(** * Enhanced list view for Obsidian Bases: grouping, property resolution,
      collapse state and text formatting

    A shallow embedding of the view class [EnhancedListBasesView], in the
    revision with native grouping, wikilink stripping and a preview source.
    The older revision in [src/main.ts] has the same [groupEntriesByProperty],
    [getPropertyValueAsString], [getTags], [formatRelativeDate] and
    [truncateToLines]; where it differs in what is modelled, a note says so.

    JavaScript strings are modelled as [string]: a sequence of code units, of
    which the code only ever distinguishes a handful of ASCII characters.
    The text algorithms (regular-expression replacement, trimming, splitting)
    run on the list of characters of a string. *)

From Stdlib Require Import ZArith Ascii String.
From stdpp Require Import gmap strings list pretty.

Local Open Scope Z_scope.

(** * Part I: the program *)

(** ** JavaScript strings and arrays *)

Module Js.

(** The characters of a string, and back. *)
Definition chars (s : string) : list ascii := list_ascii_of_string s.
Definition str (l : list ascii) : string := string_of_list_ascii l.

(** A string in a boolean position: only the empty string is falsy. *)
Definition truthy_string (s : string) : bool :=
  match s with EmptyString => false | String _ _ => true end.

(** [a || b] on strings. *)
Definition or_else (a b : string) : string :=
  if truthy_string a then a else b.

(** [a || null] on strings. *)
Definition or_null (a : string) : option string :=
  if truthy_string a then Some a else None.

(** [s.startsWith(p)] *)
Definition startsWith (s p : string) : bool := String.prefix p s.

(** A relative index of [slice], clamped to [0 .. len]. *)
Definition rel_index (len : nat) (i : Z) : nat :=
  if i <? 0 then Z.to_nat (Z.max (Z.of_nat len + i) 0)
  else Z.to_nat (Z.min i (Z.of_nat len)).

(** [a.slice(start, end)], for arrays and for the characters of a string. *)
Definition slice {A} (start end_ : Z) (l : list A) : list A :=
  let from := rel_index (length l) start in
  let to := rel_index (length l) end_ in
  take (to - from)%nat (drop from l).

(** [s.slice(start)] *)
Definition slice_from (start : Z) (s : string) : string :=
  str (drop (rel_index (String.length s) start) (chars s)).

(** [parts.join(sep)] *)
Fixpoint join (sep : string) (parts : list string) : string :=
  match parts with
  | [] => ""
  | [p] => p
  | p :: ps => p +:+ sep +:+ join sep ps
  end.

(** White space as [trim] sees it, among the code units below 256: tab, line
    feed, vertical tab, form feed, carriage return, space, no-break space. *)
Definition is_space (c : ascii) : bool :=
  match c with
  | "009" | "010" | "011" | "012" | "013" | " " | "160" => true
  | _ => false
  end%char.

Fixpoint trim_start (l : list ascii) : list ascii :=
  match l with
  | c :: l' => if is_space c then trim_start l' else l
  | [] => []
  end.

(** [s.trim()] on the characters of [s]. *)
Definition trim (l : list ascii) : list ascii :=
  reverse (trim_start (reverse (trim_start l))).

(** [s.replace(re, f)] for a global regular expression [re] that never matches
    the empty string.  [match_at l] is the match of [re] anchored at the head
    of [l]: the replacement text for it and the input left after it.  The scan
    goes left to right and resumes after each match; [fuel] bounds the number
    of steps, and one more than the length of the input is enough. *)
Fixpoint replace_go (match_at : list ascii → option (list ascii * list ascii))
    (fuel : nat) (l : list ascii) : list ascii :=
  match fuel with
  | O => l
  | S fuel' =>
      match l with
      | [] => []
      | c :: l' =>
          match match_at l with
          | Some (r, rest) => r ++ replace_go match_at fuel' rest
          | None => c :: replace_go match_at fuel' l'
          end
      end
  end.

Definition replace_all (match_at : list ascii → option (list ascii * list ascii))
    (l : list ascii) : list ascii :=
  replace_go match_at (S (length l)) l.

(** The replacement texts of the matches that the scan of [replace_all]
    finds, in order. *)
Fixpoint matches_go (match_at : list ascii → option (list ascii * list ascii))
    (fuel : nat) (l : list ascii) : list (list ascii) :=
  match fuel with
  | O => []
  | S fuel' =>
      match l with
      | [] => []
      | c :: l' =>
          match match_at l with
          | Some (r, rest) => r :: matches_go match_at fuel' rest
          | None => matches_go match_at fuel' l'
          end
      end
  end.

Definition all_matches (match_at : list ascii → option (list ascii * list ascii))
    (l : list ascii) : list (list ascii) :=
  matches_go match_at (S (length l)) l.

(** The pattern matches at no position of the input. *)
Fixpoint matches_nowhere (match_at : list ascii → option (list ascii * list ascii))
    (l : list ascii) : bool :=
  match l with
  | [] => true
  | _ :: l' =>
      match match_at l with
      | Some _ => false
      | None => matches_nowhere match_at l'
      end
  end.

End Js.

(** ** JavaScript values

    The values that reach the view from the host: frontmatter scalars and
    arrays, and Bases [Value] objects, which are seen only through their
    [toString()].  A number is an integer or one of the non-finite values;
    fractional numbers are outside the model. *)

Inductive JsNumber :=
| NumInt (z : Z)
| NumNaN
| NumInfinity (negative : bool).

Inductive JsValue :=
| VNull
| VUndefined
| VString (s : string)
| VNumber (n : JsNumber)
| VBool (b : bool)
| VArray (items : list JsValue)
| VObject (toStringResult : string).

Inductive JsType := TypeUndefined | TypeObject | TypeString | TypeNumber | TypeBoolean.

(** [typeof value] *)
Definition typeof (value : JsValue) : JsType :=
  match value with
  | VUndefined => TypeUndefined
  | VNull | VArray _ | VObject _ => TypeObject
  | VString _ => TypeString
  | VNumber _ => TypeNumber
  | VBool _ => TypeBoolean
  end.

Global Instance JsType_eq_dec : EqDecision JsType.
Proof. solve_decision. Defined.

(** [String(n)] for a number. *)
Definition number_to_string (n : JsNumber) : string :=
  match n with
  | NumInt z => pretty z
  | NumNaN => "NaN"
  | NumInfinity false => "Infinity"
  | NumInfinity true => "-Infinity"
  end.

(** [String(value)]; for a non-null value this is also [value.toString()].
    An array joins its elements with a comma, null and undefined elements
    giving the empty string. *)
Fixpoint to_string (value : JsValue) : string :=
  match value with
  | VNull => "null"
  | VUndefined => "undefined"
  | VString s => s
  | VNumber n => number_to_string n
  | VBool b => if b then "true" else "false"
  | VArray items =>
      Js.join ","
        (map (λ item, match item with
                      | VNull | VUndefined => ""
                      | _ => to_string item
                      end) items)
  | VObject s => s
  end.

(** A value in a boolean position. *)
Definition truthy (value : JsValue) : bool :=
  match value with
  | VNull | VUndefined => false
  | VString s => Js.truthy_string s
  | VNumber (NumInt z) => negb (z =? 0)
  | VNumber NumNaN => false
  | VNumber (NumInfinity _) => true
  | VBool b => b
  | VArray _ | VObject _ => true
  end.

(** [value === null || value === undefined] *)
Definition nullish (value : JsValue) : bool :=
  match value with VNull | VUndefined => true | _ => false end.

(** ** Wikilinks: [/\[\[([^\]]+?)(?:\|([^\]]+))?\]\]/g] *)

Module Wikilink.

(** The longest run of [[^\]]] at the head of the input, and what follows. *)
Fixpoint span_text (l : list ascii) : list ascii * list ascii :=
  match l with
  | [] => ([], [])
  | c :: l' =>
      if Ascii.eqb c "]" then ([], l)
      else let '(run, rest) := span_text l' in (c :: run, rest)
  end.

(** The input after a given pair of characters at its head. *)
Definition after_pair (c : ascii) (l : list ascii) : option (list ascii) :=
  match l with
  | c1 :: c2 :: rest =>
      if Ascii.eqb c1 c && Ascii.eqb c2 c then Some rest else None
  | _ => None
  end.

(** The end of the pattern, [(?:\|([^\]]+))?\]\]], after the target: the
    alias if the optional group took part, and the input after the match.
    The group is greedy and tried first.  Its alias can only be the whole run
    of [[^\]]] after the bar, since a shorter one is followed by a character
    that is not a closing bracket; and without the group the bar itself is in
    the way of the closing brackets. *)
Definition match_tail (l : list ascii) : option (option (list ascii) * list ascii) :=
  match l with
  | [] => None
  | c :: l' =>
      if Ascii.eqb c "|" then
        match span_text l' with
        | ((_ :: _) as alias, rest) =>
            match after_pair "]" rest with
            | Some rest' => Some (Some alias, rest')
            | None => None
            end
        | _ => None
        end
      else
        match after_pair "]" l with
        | Some rest' => Some (None, rest')
        | None => None
        end
  end.

(** The lazy target [([^\]]+?)] followed by the end of the pattern: one
    character is taken, and one more each time the end fails to match. *)
Fixpoint match_target (l : list ascii)
    : option (list ascii * option (list ascii) * list ascii) :=
  match l with
  | [] => None
  | c :: l' =>
      if Ascii.eqb c "]" then None
      else
        match match_tail l' with
        | Some (alias, rest) => Some ([c], alias, rest)
        | None =>
            match match_target l' with
            | Some (link, alias, rest) => Some (c :: link, alias, rest)
            | None => None
            end
        end
  end.

(** The pattern anchored at the head of the input: the two capture groups
    [link] and [alias], and the input after the match. *)
Definition match_at (l : list ascii)
    : option (list ascii * option (list ascii) * list ascii) :=
  match after_pair "[" l with
  | Some l' => match_target l'
  | None => None
  end.

(** The replacement function [(_match, link, alias) => alias ?? link]. *)
Definition replacement (l : list ascii) : option (list ascii * list ascii) :=
  match match_at l with
  | Some (link, alias, rest) => Some (default link alias, rest)
  | None => None
  end.

End Wikilink.

(** [stripWikilinks] on the characters of a string. *)
Definition strippedChars (l : list ascii) : list ascii :=
  Js.replace_all Wikilink.replacement l.

(** [stripWikilinks(str)] *)
Definition stripWikilinks (str : string) : string :=
  Js.str (strippedChars (Js.chars str)).

(** The texts that [stripWikilinks] puts in the place of the references of a
    string, in order: for each reference its alias, or else its target. *)
Definition displayedTexts (str : string) : list (list ascii) :=
  Js.all_matches Wikilink.replacement (Js.chars str).

(** No text shown for a reference holds an opening bracket. *)
Definition bracketFreeDisplays (str : string) : Prop :=
  Forall (λ text, "["%char ∉ text) (displayedTexts str).

(** ** Group keys *)

(** [valueToGroupString(value)].  The tests are made in the order of the
    source: an array is an object with a [toString] function, so the second
    test answers for it and the [Array.isArray] test further down is never
    reached with an array.  (The older revision returns the strings of the
    object and string cases without stripping them.) *)
Fixpoint valueToGroupString (value : JsValue) : string :=
  if nullish value then "None"
  else if bool_decide (typeof value = TypeObject) then
    (* every object of the model has a [toString] function *)
    let str := to_string value in
    if negb (Js.truthy_string str) || bool_decide (str = "null")
       || bool_decide (str = "undefined")
    then "None"
    else stripWikilinks str
  else
    match value with
    | VString s => Js.or_else (stripWikilinks s) "None"
    | VNumber n => number_to_string n
    | VBool b => if b then "True" else "False"
    | VArray items =>
        if (0 <? length items)%nat
        then Js.join ", " (map valueToGroupString items)
        else "None"
    | _ => to_string value
    end.

(** ** The host: files, metadata cache, entries *)

Record TFolder := { name : string }.

Record TFile := { path : string; parent : option TFolder }.

Record TagCache := { tag : string }.

(** The cache of a file: its frontmatter, a map from field names to values
    (own fields only), and its inline tags. *)
Record CachedMetadata := {
  frontmatter : option (gmap string JsValue);
  tags : option (list TagCache)
}.

(** What a call that may throw comes to. *)
Inductive Completion (A : Type) :=
| Throws
| Returns (result : A).
Global Arguments Throws {A}.
Global Arguments Returns {A} result.

(** [BasesEntry]: the file and the value accessor, which may throw. *)
Record BasesEntry := {
  file : TFile;
  getValue : string → Completion JsValue
}.

(** [this.app.metadataCache] *)
Record MetadataCache := { getFileCache : TFile → option CachedMetadata }.

Record App := { metadataCache : MetadataCache }.

(** [entry.file.parent?.name], [undefined] read as the empty string: both are
    falsy where the source uses it. *)
Definition parentName (entry : BasesEntry) : string :=
  match parent (file entry) with
  | Some folder => name folder
  | None => ""
  end.

(** [cache?.frontmatter && propName in cache.frontmatter], giving the value
    [cache.frontmatter[propName]] when the test holds. *)
Definition frontmatterField (app : App) (entry : BasesEntry) (propName : string)
    : option JsValue :=
  cache ← getFileCache (metadataCache app) (file entry);
  fm ← frontmatter cache;
  fm !! propName.

(** ** Property resolution for grouping *)

(** The [try] block of [getPropertyValueAsString]: the result it returns, or
    [None] when control leaves it without a [return] (a falsy value, or an
    exception caught). *)
Definition groupValueFromBases (entry : BasesEntry) (propertyId : string)
    : option string :=
  match getValue entry propertyId with
  | Returns value =>
      if truthy value then Some (valueToGroupString value) else None
  | Throws => None
  end.

(** The fallback to the frontmatter for note properties. *)
Definition groupValueFromFrontmatter (app : App) (entry : BasesEntry)
    (propertyId : string) : option string :=
  if Js.startsWith propertyId "note." then
    let propName := Js.slice_from 5 propertyId in
    valueToGroupString <$> frontmatterField app entry propName
  else None.

(** [getPropertyValueAsString(entry, propertyId)] *)
Definition getPropertyValueAsString (app : App) (entry : BasesEntry)
    (propertyId : string) : string :=
  match groupValueFromBases entry propertyId with
  | Some result => result
  | None =>
      match groupValueFromFrontmatter app entry propertyId with
      | Some result => result
      | None =>
          if bool_decide (propertyId = "file.folder")
          then Js.or_else (parentName entry) "Root"
          else "None"
      end
  end.

(** ** Grouping *)

(** [Map<string, BasesEntry[]>]: the keys in insertion order, each with its
    array.  The arrays are reached only through the map, so an in-place
    [push] is an update of the binding. *)
Module OrderedMap.

Definition t (V : Type) : Type := list (string * V).

Definition has {V} (k : string) (m : t V) : bool :=
  bool_decide (k ∈ m.*1).

(** [m.get(k)] *)
Fixpoint get {V} (k : string) (m : t V) : option V :=
  match m with
  | [] => None
  | (k', v) :: m' => if bool_decide (k' = k) then Some v else get k m'
  end.

(** The binding of [k] replaced in place, when there is one. *)
Fixpoint update {V} (k : string) (f : V → V) (m : t V) : t V :=
  match m with
  | [] => []
  | (k', v) :: m' =>
      if bool_decide (k' = k) then (k', f v) :: m' else (k', v) :: update k f m'
  end.

(** [m.set(k, v)]: a known key keeps its place, a new one goes last. *)
Definition set {V} (k : string) (v : V) (m : t V) : t V :=
  if has k m then update k (λ _, v) m else m ++ [(k, v)].

End OrderedMap.

(** The body of the loop of [groupEntriesByProperty]. *)
Definition groupStep (app : App) (propertyId : string)
    (groups : OrderedMap.t (list BasesEntry)) (entry : BasesEntry)
    : OrderedMap.t (list BasesEntry) :=
  let groupKey := getPropertyValueAsString app entry propertyId in
  let groups :=
    if negb (OrderedMap.has groupKey groups)
    then OrderedMap.set groupKey [] groups
    else groups in
  OrderedMap.update groupKey (λ bucket, bucket ++ [entry]) groups.

(** [groupEntriesByProperty(entries, propertyId)] *)
Definition groupEntriesByProperty (app : App) (entries : list BasesEntry)
    (propertyId : string) : OrderedMap.t (list BasesEntry) :=
  foldl (groupStep app propertyId) [] entries.

(** The keys of a list in the order in which they are first seen. *)
Fixpoint firstSeenOrder (keys : list string) : list string :=
  match keys with
  | [] => []
  | k :: keys' => k :: filter (λ k', k' ≠ k) (firstSeenOrder keys')
  end.

(** The grouping in the words of the specification: the keys in first-seen
    order, each with the entries that resolve to it, in input order. *)
Definition groupBySpec (key : BasesEntry → string) (entries : list BasesEntry)
    : OrderedMap.t (list BasesEntry) :=
  (λ k, (k, filter (λ entry, key entry = k) entries))
    <$> firstSeenOrder (key <$> entries).

(** ** Subtitle *)

Definition SUBTITLE_PARENT_FOLDER : string := "file.folder".

(** The [try] block of [getSubtitleText]. *)
Definition subtitleFromBases (entry : BasesEntry) (subtitleProperty : string)
    : option string :=
  match getValue entry subtitleProperty with
  | Returns value =>
      if truthy value then
        let valueStr := to_string value in
        if Js.truthy_string valueStr && negb (bool_decide (valueStr = "null"))
           && negb (bool_decide (valueStr = "undefined"))
        then Some (stripWikilinks valueStr)
        else None
      else None
  | Throws => None
  end.

(** The fallback to the frontmatter for note properties. *)
Definition subtitleFromFrontmatter (app : App) (entry : BasesEntry)
    (subtitleProperty : string) : option string :=
  if Js.startsWith subtitleProperty "note." then
    let propName := Js.slice_from 5 subtitleProperty in
    match frontmatterField app entry propName with
    | Some value =>
        if negb (nullish value) then Some (stripWikilinks (to_string value))
        else None
    | None => None
    end
  else None.

(** [getSubtitleText(entry, subtitleProperty)]; [None] is [null]. *)
Definition getSubtitleText (app : App) (entry : BasesEntry)
    (subtitleProperty : string) : option string :=
  if bool_decide (subtitleProperty = "file.folder")
     || bool_decide (subtitleProperty = SUBTITLE_PARENT_FOLDER)
  then Js.or_null (parentName entry)
  else
    match subtitleFromBases entry subtitleProperty with
    | Some result => Some result
    | None => subtitleFromFrontmatter app entry subtitleProperty
    end.

(** ** Tags *)

(** [tags.includes(tag)] for a string [tag]: an element is the same value
    only if it is a string with the same characters. *)
Definition includes (tags : list JsValue) (tag : string) : bool :=
  existsb (λ v, match v with VString s => bool_decide (s = tag) | _ => false end)
    tags.

(** [tagCache.tag.startsWith("#") ? tagCache.tag.slice(1) : tagCache.tag] *)
Definition inlineTagName (tagCache : TagCache) : string :=
  if Js.startsWith (tag tagCache) "#" then Js.slice_from 1 (tag tagCache)
  else tag tagCache.

(** The body of the loop over the inline tags. *)
Definition addInlineTag (acc : list JsValue) (tagCache : TagCache) : list JsValue :=
  let tag' := inlineTagName tagCache in
  if negb (includes acc tag') then acc ++ [VString tag'] else acc.

(** The tags taken from [cache.frontmatter.tags]. *)
Definition frontmatterTags (cache : option CachedMetadata) : list JsValue :=
  match (c ← cache; fm ← frontmatter c; fm !! "tags") with
  | Some fmTags =>
      if truthy fmTags then
        match fmTags with
        | VArray items => items
        | VString _ => [fmTags]
        | _ => []
        end
      else []
  | None => []
  end.

(** [getTags(entry)].  The array is typed [string[]] in the source; at run
    time it holds whatever the frontmatter array holds. *)
Definition getTags (app : App) (entry : BasesEntry) : list JsValue :=
  let cache := getFileCache (metadataCache app) (file entry) in
  let acc := frontmatterTags cache in
  match (c ← cache; tags c) with
  | Some inlineTags => foldl addInlineTag acc inlineTags
  | None => acc
  end.

(** The inline tags that [getTags] adds, in the words of the specification:
    the names of the inline tags in first-seen order, without those that the
    frontmatter tags already list. *)
Definition inlineOnlyTags (fmTags : list JsValue) (inlineNames : list string)
    : list string :=
  filter (λ t, includes fmTags t = false) (firstSeenOrder inlineNames).

(** A stringification that the resolver takes for no value. *)
Definition unusable (str : string) : Prop :=
  str = "" ∨ str = "null" ∨ str = "undefined".

(** ** Relative dates *)

(** [formatRelativeDate(timestamp)], with the value of [Date.now()] as a
    parameter.  Times are whole milliseconds. *)
Definition formatRelativeDate (now timestamp : Z) : string :=
  let diff := now - timestamp in
  let seconds := diff `div` 1000 in
  let minutes := seconds `div` 60 in
  let hours := minutes `div` 60 in
  let days := hours `div` 24 in
  if days =? 0 then
    if hours =? 0 then
      if minutes =? 0 then "Just now"
      else pretty minutes +:+ "m ago"
    else pretty hours +:+ "h ago"
  else if days =? 1 then "Yesterday"
  else if days <? 7 then pretty days +:+ "d ago"
  else if days <? 30 then
    let weeks := days `div` 7 in
    pretty weeks +:+ "w ago"
  else if days <? 365 then
    let months := days `div` 30 in
    pretty months +:+ "mo ago"
  else
    let years := days `div` 365 in
    pretty years +:+ "y ago".

(** ** Previews *)

(** Tags: [/<[^>]*>/g] *)
Module HtmlTag.

(** The input after the first [>], if there is one. *)
Fixpoint after_gt (l : list ascii) : option (list ascii) :=
  match l with
  | [] => None
  | c :: l' => if Ascii.eqb c ">" then Some l' else after_gt l'
  end.

(** The pattern anchored at the head of the input, replaced by nothing. *)
Definition replacement (l : list ascii) : option (list ascii * list ascii) :=
  match l with
  | [] => None
  | c :: l' =>
      if Ascii.eqb c "<" then
        match after_gt l' with
        | Some rest => Some ([], rest)
        | None => None
        end
      else None
  end.

End HtmlTag.

(** [text.replace(/<[^>]*>/g, "")] *)
Definition stripHtml (l : list ascii) : list ascii :=
  Js.replace_all HtmlTag.replacement l.

(** No tag is left: the pattern matches nowhere. *)
Definition tagFree (l : list ascii) : Prop :=
  Js.matches_nowhere HtmlTag.replacement l = true.

(** The input starts with a line feed. *)
Definition starts_with_lf (l : list ascii) : bool :=
  match l with
  | c :: _ => Ascii.eqb c "010"
  | [] => false
  end.

(** [s.split(/\r?\n/)] on the characters of [s]: a line feed ends a line, and
    a carriage return just before it belongs to the separator. *)
Fixpoint split_lines (l : list ascii) : list (list ascii) :=
  match l with
  | [] => [[]]
  | c :: l' =>
      if Ascii.eqb c "010" then [] :: split_lines l'
      else if Ascii.eqb c "013" && starts_with_lf l' then split_lines l'
      else
        match split_lines l' with
        | line :: more => (c :: line) :: more
        | [] => [[c]]
        end
  end.

(** [stripped.split(/\r?\n/).filter((l) => l.trim())] *)
Definition nonBlankLines (l : list ascii) : list (list ascii) :=
  filter (λ line, Js.trim line ≠ []) (split_lines l).

(** [truncateToLines(text, lines)] *)
Definition truncateToLines (text : string) (lines : Z) : string :=
  let stripped := Js.trim (stripHtml (Js.chars text)) in
  let allLines := nonBlankLines stripped in
  let truncated := Js.join " " (Js.str <$> Js.slice 0 lines allLines) in
  let maxChars := lines * 80 in
  if Z.of_nat (String.length truncated) >? maxChars then
    Js.str (Js.trim (Js.slice 0 maxChars (Js.chars truncated))) +:+ "..."
  else truncated.

(** ** Collapse state and group headers *)

Inductive Level := primary | secondary | tertiary.

Definition levels : list Level := [primary; secondary; tertiary].

(** The two fields [collapsedGroups] and [collapsedSubGroups] of the view. *)
Record CollapseState := {
  collapsedGroups : gset string;
  collapsedSubGroups : gset string
}.

(** [level === "secondary" || level === "tertiary"]; an index outside
    [levels] gives [undefined], which is neither. *)
Definition isSubLevel (level : option Level) : bool :=
  match level with
  | Some secondary | Some tertiary => true
  | _ => false
  end.

(** [(level === "secondary" || level === "tertiary")
       ? this.collapsedSubGroups : this.collapsedGroups] *)
Definition collapsedSetOf (level : option Level) (st : CollapseState) : gset string :=
  if isSubLevel level then collapsedSubGroups st else collapsedGroups st.

(** The header element of a group, with what its click handler has captured:
    the key, the level that selects the set, and [isCollapsed]. *)
Record GroupHeader := {
  isSubGroup : bool;
  titleText : string;
  countText : option string;
  clickKey : string;
  clickLevel : option Level;
  clickIsCollapsed : bool
}.

Record RenderOptions := { showGroupCounts : bool }.

(** [renderGroupHeader(groupEl, title, count, isCollapsed, options, level,
    compoundKey?)].  (The older revision shows the title as it is and adds
    the click handler only when the option [collapsibleGroups] is on.) *)
Definition renderGroupHeader (title : string) (count : nat) (isCollapsed : bool)
    (options : RenderOptions) (level : option Level)
    (compoundKey : option string) : GroupHeader :=
  {| isSubGroup := isSubLevel level;
     titleText := stripWikilinks title;
     countText := if showGroupCounts options then Some (pretty count) else None;
     clickKey := Js.or_else (default "" compoundKey) title;
     clickLevel := level;
     clickIsCollapsed := isCollapsed |}.

(** The click handler of a header, run on the state of the view. *)
Definition onClick (header : GroupHeader) (st : CollapseState) : CollapseState :=
  let flip (set : gset string) : gset string :=
    if clickIsCollapsed header then set ∖ {[clickKey header]}
    else set ∪ {[clickKey header]} in
  if isSubLevel (clickLevel header)
  then {| collapsedGroups := collapsedGroups st;
          collapsedSubGroups := flip (collapsedSubGroups st) |}
  else {| collapsedGroups := flip (collapsedGroups st);
          collapsedSubGroups := collapsedSubGroups st |}.

(** ** Rendering of plugin groups *)

(** The elements a render pass creates, as far as grouping goes: a group with
    its level, header, collapsed flag and children, or the list of entries. *)
Inductive RenderNode :=
| GroupEl (dataLevel : option Level) (header : GroupHeader) (isCollapsed : bool)
    (children : list RenderNode)
| EntriesEl (entries : list BasesEntry).

(** [collapseKey] in [renderCustomGroup] and in [renderGroupWithSubGroups].
    (The older revision has no native key: its keys are those of the empty
    native key here.) *)
Definition collapseKey (nativeKey groupKey : string) : string :=
  if Js.truthy_string nativeKey then nativeKey +:+ "::" +:+ groupKey
  else groupKey.

(** [compoundKey] in [renderGroupWithSubGroups]. *)
Definition compoundKey (nativeKey groupKey subGroupKey : string) : string :=
  if Js.truthy_string nativeKey
  then nativeKey +:+ "::" +:+ groupKey +:+ "::" +:+ subGroupKey
  else groupKey +:+ ":" +:+ subGroupKey.

(** [renderCustomGroup(parentEl, nativeKey, groupKey, entries, levelOffset,
    options)] *)
Definition renderCustomGroup (st : CollapseState) (nativeKey groupKey : string)
    (entries : list BasesEntry) (levelOffset : nat) (options : RenderOptions)
    : RenderNode :=
  let level := levels !! levelOffset in
  let collapseKey := collapseKey nativeKey groupKey in
  let collapsedSet := collapsedSetOf level st in
  let isCollapsed := bool_decide (collapseKey ∈ collapsedSet) in
  let header :=
    renderGroupHeader groupKey (length entries) isCollapsed options level
      (Some collapseKey) in
  if isCollapsed then GroupEl level header true []
  else GroupEl level header false [EntriesEl entries].

(** One turn of the loop over the sub-groups in [renderGroupWithSubGroups]. *)
Definition renderSubGroup (st : CollapseState) (nativeKey groupKey : string)
    (subLevel : option Level) (options : RenderOptions)
    (subGroup : string * list BasesEntry) : RenderNode :=
  let '(subGroupKey, subEntries) := subGroup in
  let compoundKey := compoundKey nativeKey groupKey subGroupKey in
  let isSubCollapsed := bool_decide (compoundKey ∈ collapsedSubGroups st) in
  let header :=
    renderGroupHeader subGroupKey (length subEntries) isSubCollapsed options
      subLevel (Some compoundKey) in
  if isSubCollapsed then GroupEl subLevel header true []
  else GroupEl subLevel header false [EntriesEl subEntries].

(** [renderGroupWithSubGroups(parentEl, nativeKey, groupKey, entries,
    subGroupProperty, levelOffset, options)] *)
Definition renderGroupWithSubGroups (app : App) (st : CollapseState)
    (nativeKey groupKey : string) (entries : list BasesEntry)
    (subGroupProperty : string) (levelOffset : nat) (options : RenderOptions)
    : RenderNode :=
  let primaryLevel := levels !! levelOffset in
  let subLevel := levels !! (levelOffset + 1)%nat in
  let collapseKey := collapseKey nativeKey groupKey in
  let primaryCollapsedSet := collapsedSetOf primaryLevel st in
  let isCollapsed := bool_decide (collapseKey ∈ primaryCollapsedSet) in
  let header :=
    renderGroupHeader groupKey (length entries) isCollapsed options
      primaryLevel (Some collapseKey) in
  if isCollapsed then GroupEl primaryLevel header true []
  else
    let subGroups := groupEntriesByProperty app entries subGroupProperty in
    GroupEl primaryLevel header false
      (renderSubGroup st nativeKey groupKey subLevel options <$> subGroups).

(** The header of a rendered group. *)
Definition headerOf (node : RenderNode) : option GroupHeader :=
  match node with
  | GroupEl _ header _ _ => Some header
  | EntriesEl _ => None
  end.

(** The groups rendered inside a group. *)
Definition childrenOf (node : RenderNode) : list RenderNode :=
  match node with
  | GroupEl _ _ _ children => children
  | EntriesEl _ => []
  end.

(** ** The render pass *)

(** [BasesEntryGroup]: a group of the host, with its key if it has one. *)
Module BasesEntryGroup.
Record t := {
  hasKey : bool;
  key : option JsValue;
  entries : list BasesEntry
}.
End BasesEntryGroup.

(** [value?.toString()], [None] standing for [undefined]. *)
Definition optionalToString (value : option JsValue) : option string :=
  match value with
  | Some v => if nullish v then None else Some (to_string v)
  | None => None
  end.

(** The level offset of a render pass:
    [const levelOffset = hasNativeGrouping ? 1 : 0] in [onDataUpdated]. *)
Definition levelOffsetOf (hasNativeGrouping : bool) : nat :=
  if hasNativeGrouping then 1%nat else 0%nat.

(** [nativeGroup.hasKey()
       ? (nativeGroup.key?.toString() ?? "__ungrouped__") : ""] *)
Definition nativeKeyOf (nativeGroup : BasesEntryGroup.t) : string :=
  if BasesEntryGroup.hasKey nativeGroup
  then default "__ungrouped__" (optionalToString (BasesEntryGroup.key nativeGroup))
  else "".

(** [const isNativeCollapsed = this.collapsedGroups.has(nativeKey)] *)
Definition isNativeCollapsed (st : CollapseState)
    (nativeGroup : BasesEntryGroup.t) : bool :=
  bool_decide (nativeKeyOf nativeGroup ∈ collapsedGroups st).

(** The header of a native group in [onDataUpdated]: the title is the
    stripped key, the level is primary, and no compound key is passed. *)
Definition renderNativeGroupHeader (st : CollapseState)
    (nativeGroup : BasesEntryGroup.t) (options : RenderOptions) : GroupHeader :=
  renderGroupHeader
    (stripWikilinks
       (default "" (optionalToString (BasesEntryGroup.key nativeGroup))))
    (length (BasesEntryGroup.entries nativeGroup))
    (isNativeCollapsed st nativeGroup) options (Some primary) None.

(** The plugin grouping of the entries of one native group.  The two
    properties are the results of [getConfigPropertyId]: [None] is [null]. *)
Definition renderPluginGroups (app : App) (st : CollapseState)
    (nativeKey : string) (entries : list BasesEntry)
    (groupByProperty subGroupByProperty : option string) (levelOffset : nat)
    (options : RenderOptions) : list RenderNode :=
  match groupByProperty, subGroupByProperty with
  | Some groupBy, Some subGroupBy =>
      (λ '(groupKey, groupEntries),
         renderGroupWithSubGroups app st nativeKey groupKey groupEntries
           subGroupBy levelOffset options)
        <$> groupEntriesByProperty app entries groupBy
  | Some groupBy, None =>
      (λ '(groupKey, groupEntries),
         renderCustomGroup st nativeKey groupKey groupEntries levelOffset options)
        <$> groupEntriesByProperty app entries groupBy
  | None, Some subGroupBy =>
      (λ '(groupKey, groupEntries),
         renderCustomGroup st nativeKey groupKey groupEntries levelOffset options)
        <$> groupEntriesByProperty app entries subGroupBy
  | None, None => [EntriesEl entries]
  end.

(** One turn of the loop over the native groups in [onDataUpdated]. *)
Definition renderNativeGroup (app : App) (st : CollapseState)
    (groupByProperty subGroupByProperty : option string) (levelOffset : nat)
    (options : RenderOptions) (nativeGroup : BasesEntryGroup.t)
    : list RenderNode :=
  let nativeKey := nativeKeyOf nativeGroup in
  let inner :=
    renderPluginGroups app st nativeKey (BasesEntryGroup.entries nativeGroup)
      groupByProperty subGroupByProperty levelOffset options in
  if BasesEntryGroup.hasKey nativeGroup then
    let header := renderNativeGroupHeader st nativeGroup options in
    if isNativeCollapsed st nativeGroup
    then [GroupEl (Some primary) header true []]
    else [GroupEl (Some primary) header false inner]
  else inner.

(** [onDataUpdated()]: the groups rendered for the data of the host, in the
    state [st] of the collapse sets. *)
Definition onDataUpdated (app : App) (st : CollapseState)
    (groupedData : list BasesEntryGroup.t)
    (groupByProperty subGroupByProperty : option string)
    (options : RenderOptions) : list RenderNode :=
  let hasNativeGrouping := existsb BasesEntryGroup.hasKey groupedData in
  let levelOffset := levelOffsetOf hasNativeGrouping in
  groupedData ≫=
    renderNativeGroup app st groupByProperty subGroupByProperty levelOffset
      options.

(** [totalEntries] at the end of the loop over the native groups in
    [onDataUpdated]: the entries of a collapsed group are counted too. *)
Definition totalEntries (groupedData : list BasesEntryGroup.t) : nat :=
  foldl (λ total nativeGroup,
           total + length (BasesEntryGroup.entries nativeGroup))%nat
    0%nat groupedData.

(** The empty state of [onDataUpdated]: the notice "No items to display" is
    made. *)
Definition emptyStateShown (groupedData : list BasesEntryGroup.t) : bool :=
  (totalEntries groupedData =? 0)%nat.

(** The entries that a rendered node shows, in order. *)
Fixpoint renderedEntries (node : RenderNode) : list BasesEntry :=
  match node with
  | GroupEl _ _ _ children => concat (map renderedEntries children)
  | EntriesEl entries => entries
  end.

(** A click on the header of a rendered group. *)
Definition clickOn (node : RenderNode) (st : CollapseState) : CollapseState :=
  match headerOf node with
  | Some header => onClick header st
  | None => st
  end.

(** A click on a header rendered in the state [st], the render pass that the
    handler asks for with [this.onDataUpdated()], and a click on the header
    that this pass renders for the same group. *)
Definition clickTwice (render : CollapseState → RenderNode) (st : CollapseState)
    : CollapseState :=
  let st' := clickOn (render st) st in
  clickOn (render st') st'.

(** The toggle of the collapse store in the words of the specification:
    the key is inserted into the set that matches the role if it is absent
    from it, and removed from it if it is present. *)
Definition toggle (key : string) (role : option Level) (st : CollapseState)
    : CollapseState :=
  let flip (set : gset string) : gset string :=
    if decide (key ∈ set) then set ∖ {[key]} else set ∪ {[key]} in
  if isSubLevel role
  then {| collapsedGroups := collapsedGroups st;
          collapsedSubGroups := flip (collapsedSubGroups st) |}
  else {| collapsedGroups := flip (collapsedGroups st);
          collapsedSubGroups := collapsedSubGroups st |}.

(** ** The entries in view

    Which entries a render pass shows, read off the collapse sets.  These two
    predicates are not functions of the source: the properties of
    [onDataUpdated] are stated with them. *)

(** The plugin grouping shows the entry: the group of the entry at the first
    level is not collapsed, nor is its sub-group when there are two levels. *)
Definition shownByPlugin (app : App) (st : CollapseState) (nativeKey : string)
    (groupByProperty subGroupByProperty : option string) (levelOffset : nat)
    (entry : BasesEntry) : bool :=
  let key property := getPropertyValueAsString app entry property in
  let expanded property :=
    bool_decide (collapseKey nativeKey (key property)
                 ∉ collapsedSetOf (levels !! levelOffset) st) in
  match groupByProperty, subGroupByProperty with
  | Some groupBy, Some subGroupBy =>
      expanded groupBy
      && bool_decide (compoundKey nativeKey (key groupBy) (key subGroupBy)
                      ∉ collapsedSubGroups st)
  | Some groupBy, None => expanded groupBy
  | None, Some subGroupBy => expanded subGroupBy
  | None, None => true
  end.

(** The render pass shows the entry of the native group: the native group
    has no key or is not collapsed, and the plugin grouping shows the
    entry. *)
Definition shownEntry (app : App) (st : CollapseState)
    (groupByProperty subGroupByProperty : option string) (levelOffset : nat)
    (nativeGroup : BasesEntryGroup.t) (entry : BasesEntry) : bool :=
  negb (BasesEntryGroup.hasKey nativeGroup && isNativeCollapsed st nativeGroup)
  && shownByPlugin app st (nativeKeyOf nativeGroup) groupByProperty
       subGroupByProperty levelOffset entry.

(** ** Text with links *)

(** What [renderTextWithLinks] appends to its container: a text node, or the
    span of a link, with the path that a click on it opens and the text that
    it shows. *)
Inductive TextPiece :=
| TextNode (text : string)
| LinkSpan (linkPath displayText : string).

(** [container.appendText(text.slice(lastIndex, index))] under its guard
    [index > lastIndex]: the plain text since the last match, if there is
    any. *)
Definition appendText (plain : list ascii) : list TextPiece :=
  match plain with
  | [] => []
  | _ :: _ => [TextNode (Js.str plain)]
  end.

(** The loop [while ((match = regex.exec(text)) !== null)] of
    [renderTextWithLinks], with the last step after it.  [plain] is the text
    between [lastIndex] and the position that the search has reached, [l] the
    text from this position on. *)
Fixpoint links_go (fuel : nat) (plain l : list ascii) : list TextPiece :=
  match fuel with
  | O => appendText (plain ++ l)
  | S fuel' =>
      match l with
      | [] => appendText plain
      | c :: l' =>
          match Wikilink.match_at l with
          | Some (link, alias, rest) =>
              appendText plain
              ++ LinkSpan (Js.str link) (Js.str (default link alias))
                 :: links_go fuel' [] rest
          | None => links_go fuel' (plain ++ [c]) l'
          end
      end
  end.

(** [renderTextWithLinks(container, text)]: the children appended to the
    container, in order. *)
Definition renderTextWithLinks (text : string) : list TextPiece :=
  links_go (S (String.length text)) [] (Js.chars text).

(** The text that a piece shows. *)
Definition shownText (piece : TextPiece) : string :=
  match piece with
  | TextNode text => text
  | LinkSpan _ displayText => displayText
  end.

(** The text content of a container with these children. *)
Definition textContent (pieces : list TextPiece) : string :=
  foldr (λ piece rest, shownText piece +:+ rest) "" pieces.

(** The texts of the link spans among the pieces. *)
Definition linkTexts (pieces : list TextPiece) : list string :=
  pieces ≫= λ piece,
    match piece with
    | TextNode _ => []
    | LinkSpan _ displayText => [displayText]
    end.

(** ** Preview text *)

(** The [try] block of [getPreview]. *)
Definition previewFromBases (entry : BasesEntry) (lines : Z)
    (previewProperty : string) : option string :=
  match getValue entry previewProperty with
  | Returns value =>
      if truthy value then
        let valueStr := to_string value in
        if Js.truthy_string valueStr && negb (bool_decide (valueStr = "null"))
           && negb (bool_decide (valueStr = "undefined"))
        then Some (truncateToLines (stripWikilinks valueStr) lines)
        else None
      else None
  | Throws => None
  end.

(** The fallback to the frontmatter for note properties. *)
Definition previewFromFrontmatter (app : App) (entry : BasesEntry) (lines : Z)
    (previewProperty : string) : option string :=
  if Js.startsWith previewProperty "note." then
    let propName := Js.slice_from 5 previewProperty in
    match frontmatterField app entry propName with
    | Some value =>
        if negb (nullish value)
        then Some (truncateToLines (stripWikilinks (to_string value)) lines)
        else None
    | None => None
    end
  else None.

Definition descFields : list string :=
  ["description"; "summary"; "excerpt"; "abstract"].

(** The loop over [descFields]: the first field with a truthy value gives the
    preview.  A field that the frontmatter does not have reads as
    [undefined]. *)
Fixpoint previewFromFields (fm : gmap string JsValue) (fields : list string)
    (lines : Z) : option string :=
  match fields with
  | [] => None
  | field :: fields' =>
      let value := default VUndefined (fm !! field) in
      if truthy value then Some (truncateToLines (to_string value) lines)
      else previewFromFields fm fields' lines
  end.

(** The default behaviour of [getPreview], without a preview property. *)
Definition defaultPreview (app : App) (entry : BasesEntry) (lines : Z)
    : option string :=
  match (cache ← getFileCache (metadataCache app) (file entry);
         frontmatter cache) with
  | Some fm => previewFromFields fm descFields lines
  | None => None
  end.

(** [getPreview(entry, lines, previewProperty)]; [None] is [null], both as the
    property and as the result. *)
Definition getPreview (app : App) (entry : BasesEntry) (lines : Z)
    (previewProperty : option string) : option string :=
  match previewProperty with
  | Some property =>
      if Js.truthy_string property then
        match previewFromBases entry lines property with
        | Some result => Some result
        | None => previewFromFrontmatter app entry lines property
        end
      else defaultPreview app entry lines
  | None => defaultPreview app entry lines
  end.

(** ** The item of an entry *)

(** The options that [renderEntry] reads for the preview and the tags of an
    item. *)
Module EntryOptions.
Record t := {
  previewLines : Z;
  previewProperty : option string;
  showTags : bool
}.
End EntryOptions.

(** The preview element of [renderEntry]: its text, when the element is
    made. *)
Definition entryPreview (app : App) (entry : BasesEntry)
    (options : EntryOptions.t) : option string :=
  if 0 <? EntryOptions.previewLines options then
    match getPreview app entry (EntryOptions.previewLines options)
            (EntryOptions.previewProperty options) with
    | Some preview => Js.or_null preview
    | None => None
    end
  else None.

(** [tag.startsWith("#") ? tag : `#${tag}`] for an element of the array that
    [getTags] returns.  Only a string has a method [startsWith]; the call
    throws a [TypeError] on every other value. *)
Definition tagText (tag : JsValue) : Completion string :=
  match tag with
  | VString s => Returns (if Js.startsWith s "#" then s else "#" +:+ s)
  | _ => Throws
  end.

(** The loop over the tags in [renderEntry]: the texts of the tag spans. *)
Fixpoint tagTexts (tags : list JsValue) : Completion (list string) :=
  match tags with
  | [] => Returns []
  | tag :: tags' =>
      match tagText tag with
      | Returns text =>
          match tagTexts tags' with
          | Returns texts => Returns (text :: texts)
          | Throws => Throws
          end
      | Throws => Throws
      end
  end.

(** The tags of [renderEntry]: the texts of the spans that it makes, or the
    exception that ends the rendering of the item. *)
Definition entryTags (app : App) (entry : BasesEntry)
    (options : EntryOptions.t) : Completion (list string) :=
  if EntryOptions.showTags options then tagTexts (getTags app entry)
  else Returns [].

(** One turn of the loop over [options.order] in [renderEntry]: the children
    of the value span of the property, [None] when the property is skipped,
    or the exception of the accessor, which nothing catches here.
    [parsePropertyId] is the function of the host that splits a property id
    into its type and its name. *)
Definition propertyPieces (parsePropertyId : string → string * string)
    (entry : BasesEntry) (propertyId : string)
    : Completion (option (list TextPiece)) :=
  let '(type, name) := parsePropertyId propertyId in
  if bool_decide (name = "name") && bool_decide (type = "file")
  then Returns None
  else
    match getValue entry propertyId with
    | Returns value =>
        if negb (truthy value) then Returns None
        else
          let valueStr := to_string value in
          if negb (Js.truthy_string valueStr) || bool_decide (valueStr = "null")
             || bool_decide (valueStr = "undefined")
          then Returns None
          else Returns (Some (renderTextWithLinks valueStr))
    | Throws => Throws
    end.

(** ** Thumbnails *)

Record EmbedCache := { link : string }.

(** The part of the host that only [getThumbnail] uses:
    [metadataCache.getFirstLinkpathDest], [vault.getResourcePath], and the
    field [embeds] of the cache of a file, read when the file has a cache. *)
Record ThumbnailHost := {
  getFirstLinkpathDest : string → string → option TFile;
  getResourcePath : TFile → string;
  embeds : TFile → option (list EmbedCache)
}.

(** [s.endsWith(p)] *)
Definition endsWith (s p : string) : bool :=
  bool_decide (Js.chars p `suffix_of` Js.chars s).

(** An ASCII capital letter as its small letter; every other character as it
    is.  This is how a pattern in small ASCII letters with the flag [i]
    reads its input. *)
Definition lowerAscii (c : ascii) : ascii :=
  let n := nat_of_ascii c in
  if (65 <=? n)%nat && (n <=? 90)%nat then ascii_of_nat (n + 32) else c.

Definition imageExtensions : list string :=
  ["png"; "jpg"; "jpeg"; "gif"; "webp"; "svg"].

(** [/\.(png|jpg|jpeg|gif|webp|svg)$/i.test(link)] *)
Definition isImageLink (link : string) : bool :=
  existsb
    (λ ext, bool_decide (Js.chars ("." +:+ ext)
                         `suffix_of` (lowerAscii <$> Js.chars link)))
    imageExtensions.

Definition imageFields : list string :=
  ["image"; "cover"; "thumbnail"; "banner"; "feature_image"].

(** The body of the loop over [imageFields] for one value of the frontmatter:
    the thumbnail that the loop returns, if it returns here. *)
Definition thumbnailFromValue (host : ThumbnailHost) (entry : BasesEntry)
    (value : JsValue) : option string :=
  match value with
  | VString value =>
      if Js.truthy_string value then
        if Js.startsWith value "[[" && endsWith value "]]" then
          let linkPath := Js.str (Js.slice 2 (-2) (Js.chars value)) in
          getResourcePath host
            <$> getFirstLinkpathDest host linkPath (path (file entry))
        else if negb (Js.startsWith value "http") then
          getResourcePath host
            <$> getFirstLinkpathDest host value (path (file entry))
        else Some value
      else None
  | _ => None
  end.

(** The loop over [imageFields]. *)
Fixpoint thumbnailFromFields (host : ThumbnailHost) (entry : BasesEntry)
    (fm : gmap string JsValue) (fields : list string) : option string :=
  match fields with
  | [] => None
  | field :: fields' =>
      match thumbnailFromValue host entry (default VUndefined (fm !! field)) with
      | Some thumbnail => Some thumbnail
      | None => thumbnailFromFields host entry fm fields'
      end
  end.

(** The loop over the embeds of the file. *)
Fixpoint thumbnailFromEmbeds (host : ThumbnailHost) (entry : BasesEntry)
    (embedCaches : list EmbedCache) : option string :=
  match embedCaches with
  | [] => None
  | embed :: embedCaches' =>
      let found :=
        if Js.truthy_string (link embed) && isImageLink (link embed)
        then getFirstLinkpathDest host (link embed) (path (file entry))
        else None in
      match found with
      | Some linkedFile => Some (getResourcePath host linkedFile)
      | None => thumbnailFromEmbeds host entry embedCaches'
      end
  end.

(** [getThumbnail(entry)]; [None] is [null]. *)
Definition getThumbnail (app : App) (host : ThumbnailHost) (entry : BasesEntry)
    : option string :=
  let cache := getFileCache (metadataCache app) (file entry) in
  let fromFrontmatter :=
    match (c ← cache; frontmatter c) with
    | Some fm => thumbnailFromFields host entry fm imageFields
    | None => None
    end in
  match fromFrontmatter with
  | Some thumbnail => Some thumbnail
  | None =>
      match (c ← cache; embeds host (file entry)) with
      | Some embedCaches => thumbnailFromEmbeds host entry embedCaches
      | None => None
      end
  end.

(** ** Sample inputs

    Entries, caches and texts on which the functions are evaluated. *)

Module Sample.

(** An entry in the folder [Projects] whose accessor answers every property
    with the given completion. *)
Definition entry (completion : Completion JsValue) : BasesEntry :=
  {| file := {| path := "Projects/note.md";
                parent := Some {| name := "Projects" |} |};
     getValue := λ _, completion |}.

(** An entry at the root of the vault: the root folder has the empty name. *)
Definition rootEntry (completion : Completion JsValue) : BasesEntry :=
  {| file := {| path := "note.md"; parent := Some {| name := "" |} |};
     getValue := λ _, completion |}.

(** A host in which every file has the given frontmatter and inline tags. *)
Definition host (fields : list (string * JsValue)) (inlineTags : list string)
    : App :=
  {| metadataCache :=
       {| getFileCache := λ _,
            Some {| frontmatter := Some (list_to_map fields);
                    tags := Some ((λ t, {| tag := t |}) <$> inlineTags) |} |} |}.

(** A preview source with tags, a blank line and an indented line. *)
Definition preview : string :=
  "<b>Hello</b> world" +:+ String "010" (String "010" "  second <i>line</i>")
  +:+ String "013" (String "010" "third line").

(** A Bases value that is present but stringifies to ["null"]. *)
Definition nullValue : JsValue := VObject "null".

(** A native group of the host whose key is a link. *)
Definition linkGroup : BasesEntryGroup.t :=
  {| BasesEntryGroup.hasKey := true;
     BasesEntryGroup.key := Some (VObject "[[Project A]]");
     BasesEntryGroup.entries := [entry Throws] |}.

(** The collapse sets of a new view. *)
Definition noneCollapsed : CollapseState :=
  {| collapsedGroups := ∅; collapsedSubGroups := ∅ |}.

(** An entry with the given path whose accessor answers with the status. *)
Definition statusEntry (path status : string) : BasesEntry :=
  {| file := {| path := path; parent := None |};
     getValue := λ _, Returns (VObject status) |}.

(** Three entries whose status is done, done and todo, in one group of the
    host without a key. *)
Definition statusData : list BasesEntryGroup.t :=
  [{| BasesEntryGroup.hasKey := false;
      BasesEntryGroup.key := None;
      BasesEntryGroup.entries :=
        [statusEntry "a.md" "done"; statusEntry "b.md" "done";
         statusEntry "c.md" "todo"] |}].

End Sample.

(** A host for thumbnails: it finds one image of the vault, gives resource
    paths under [app://vault/], and reports one embed for every file. *)
Module Gallery.

Definition cover : TFile :=
  {| path := "img/cover.png"; parent := Some {| name := "img" |} |}.

Definition host : ThumbnailHost :=
  {| getFirstLinkpathDest := λ linkpath _,
       if bool_decide (linkpath = "img/cover.png") then Some cover else None;
     getResourcePath := λ linkedFile, "app://vault/" +:+ path linkedFile;
     embeds := λ _, Some [{| link := "photo.JPG" |}] |}.

(** A note whose first image field names a file that is not there. *)
Definition app : App :=
  Sample.host [("image", VString "[[missing.png]]");
               ("cover", VString "[[img/cover.png]]")] [].

(** Options with a preview of two lines from the default fields. *)
Definition options : EntryOptions.t :=
  {| EntryOptions.previewLines := 2;
     EntryOptions.previewProperty := None;
     EntryOptions.showTags := true |}.

End Gallery.

(** * Part II: properties *)

(** ** Strings *)

Lemma chars_str l : Js.chars (Js.str l) = l.
Proof. apply list_ascii_of_string_of_list_ascii. Qed.

Lemma str_chars s : Js.str (Js.chars s) = s.
Proof. apply string_of_list_ascii_of_string. Qed.

Lemma chars_app s t : Js.chars (s +:+ t) = Js.chars s ++ Js.chars t.
Proof. induction s as [|c s IH]; simpl; [done|]. by rewrite <- IH. Qed.

Lemma str_app l k : Js.str (l ++ k) = Js.str l +:+ Js.str k.
Proof. induction l as [|c l IH]; simpl; [done|]. by rewrite IH. Qed.

Lemma chars_length s : length (Js.chars s) = String.length s.
Proof. induction s; simpl; congruence. Qed.

Lemma str_length l : String.length (Js.str l) = length l.
Proof. by rewrite <- chars_length, chars_str. Qed.

Lemma string_app_length s t :
  String.length (s +:+ t) = (String.length s + String.length t)%nat.
Proof. by rewrite <- !chars_length, chars_app, length_app. Qed.

Lemma truthy_string_spec s : Js.truthy_string s = true ↔ s ≠ "".
Proof. destruct s; simpl; split; congruence. Qed.

Lemma truthy_string_false s : Js.truthy_string s = false ↔ s = "".
Proof. destruct s; simpl; split; congruence. Qed.

Lemma or_else_empty s : Js.or_else s s = s.
Proof. unfold Js.or_else. by destruct (Js.truthy_string s). Qed.

Lemma string_app_empty s t : s +:+ t = "" → s = "" ∧ t = "".
Proof. destruct s; simpl; [done | discriminate]. Qed.

(** ** Composite keys *)

Lemma collapseKey_click nativeKey groupKey :
  Js.or_else (collapseKey nativeKey groupKey) groupKey
  = collapseKey nativeKey groupKey.
Proof.
  unfold collapseKey. destruct nativeKey as [|c nk]; simpl.
  - apply or_else_empty.
  - done.
Qed.

Lemma compoundKey_nonempty nativeKey groupKey subGroupKey :
  compoundKey nativeKey groupKey subGroupKey ≠ "".
Proof.
  unfold compoundKey. destruct nativeKey as [|c nk]; simpl; [|done].
  intros [_ H]%string_app_empty. discriminate.
Qed.

Lemma compoundKey_click nativeKey groupKey subGroupKey title :
  Js.or_else (compoundKey nativeKey groupKey subGroupKey) title
  = compoundKey nativeKey groupKey subGroupKey.
Proof.
  unfold Js.or_else.
  destruct (Js.truthy_string _) eqn:E; [done|].
  apply truthy_string_false in E. by apply compoundKey_nonempty in E.
Qed.

Lemma renderCustomGroup_header st nativeKey groupKey entries levelOffset options :
  renderCustomGroup st nativeKey groupKey entries levelOffset options
  = let level := levels !! levelOffset in
    let isCollapsed :=
      bool_decide (collapseKey nativeKey groupKey ∈ collapsedSetOf level st) in
    GroupEl level
      (renderGroupHeader groupKey (length entries) isCollapsed options level
         (Some (collapseKey nativeKey groupKey)))
      isCollapsed
      (if isCollapsed then [] else [EntriesEl entries]).
Proof. unfold renderCustomGroup. simpl. by case_bool_decide. Qed.

Lemma renderSubGroup_header st nativeKey groupKey subLevel options subGroupKey subEntries :
  renderSubGroup st nativeKey groupKey subLevel options (subGroupKey, subEntries)
  = let key := compoundKey nativeKey groupKey subGroupKey in
    let isSubCollapsed := bool_decide (key ∈ collapsedSubGroups st) in
    GroupEl subLevel
      (renderGroupHeader subGroupKey (length subEntries) isSubCollapsed options
         subLevel (Some key))
      isSubCollapsed
      (if isSubCollapsed then [] else [EntriesEl subEntries]).
Proof. unfold renderSubGroup. simpl. by case_bool_decide. Qed.

Lemma renderGroupWithSubGroups_header app st nativeKey groupKey entries
    subGroupProperty levelOffset options :
  renderGroupWithSubGroups app st nativeKey groupKey entries subGroupProperty
    levelOffset options
  = let level := levels !! levelOffset in
    let isCollapsed :=
      bool_decide (collapseKey nativeKey groupKey ∈ collapsedSetOf level st) in
    GroupEl level
      (renderGroupHeader groupKey (length entries) isCollapsed options level
         (Some (collapseKey nativeKey groupKey)))
      isCollapsed
      (if isCollapsed then []
       else renderSubGroup st nativeKey groupKey
              (levels !! (levelOffset + 1)%nat) options
              <$> groupEntriesByProperty app entries subGroupProperty).
Proof. unfold renderGroupWithSubGroups. simpl. by case_bool_decide. Qed.

(** C4. The keys under which the headers of plugin groups are looked up and
    toggled: with a native key, [nativeKey::level1Key] for the group of a
    one-level or two-level grouping and [nativeKey::level1Key::level2Key] for
    a sub-group; without one, the bare [level1Key] and [level1Key:level2Key].
    A native key is present when [nativeKey] is not the empty string. *)
Theorem composite_collapse_keys (app : App) (st : CollapseState)
    (nativeKey level1Key : string) (entries : list BasesEntry)
    (subGroupProperty : string) (levelOffset : nat) (options : RenderOptions) :
  let key1 :=
    if decide (nativeKey = "") then level1Key
    else nativeKey +:+ "::" +:+ level1Key in
  let key2 (level2Key : string) :=
    if decide (nativeKey = "") then level1Key +:+ ":" +:+ level2Key
    else nativeKey +:+ "::" +:+ level1Key +:+ "::" +:+ level2Key in
  let oneLevel :=
    renderCustomGroup st nativeKey level1Key entries levelOffset options in
  let twoLevels :=
    renderGroupWithSubGroups app st nativeKey level1Key entries subGroupProperty
      levelOffset options in
  let collapsed1 :=
    bool_decide (key1 ∈ collapsedSetOf (levels !! levelOffset) st) in
  collapseKey nativeKey level1Key = key1
  ∧ (∀ level2Key, compoundKey nativeKey level1Key level2Key = key2 level2Key)
  ∧ clickKey <$> headerOf oneLevel = Some key1
  ∧ clickIsCollapsed <$> headerOf oneLevel = Some collapsed1
  ∧ clickKey <$> headerOf twoLevels = Some key1
  ∧ clickIsCollapsed <$> headerOf twoLevels = Some collapsed1
  ∧ (λ node, clickKey <$> headerOf node) <$> childrenOf twoLevels
    = (if collapsed1 then []
       else (λ sub, Some (key2 sub.1))
              <$> groupEntriesByProperty app entries subGroupProperty)
  ∧ (λ node, clickIsCollapsed <$> headerOf node) <$> childrenOf twoLevels
    = (if collapsed1 then []
       else (λ sub, Some (bool_decide (key2 sub.1 ∈ collapsedSubGroups st)))
              <$> groupEntriesByProperty app entries subGroupProperty).
Proof.
  intros key1 key2 oneLevel twoLevels collapsed1.
  assert (Hk1 : collapseKey nativeKey level1Key = key1).
  { unfold collapseKey, key1. destruct nativeKey; by simpl. }
  assert (Hk2 : ∀ k, compoundKey nativeKey level1Key k = key2 k).
  { intros k. unfold compoundKey, key2. destruct nativeKey; by simpl. }
  split_and!; try done.
  - unfold oneLevel. rewrite renderCustomGroup_header. simpl.
    by rewrite collapseKey_click, Hk1.
  - unfold oneLevel. rewrite renderCustomGroup_header. simpl.
    by rewrite Hk1.
  - unfold twoLevels. rewrite renderGroupWithSubGroups_header. simpl.
    by rewrite collapseKey_click, Hk1.
  - unfold twoLevels. rewrite renderGroupWithSubGroups_header. simpl.
    by rewrite Hk1.
  - unfold twoLevels. rewrite renderGroupWithSubGroups_header. simpl.
    rewrite Hk1. fold collapsed1. destruct collapsed1; simpl; [done|].
    rewrite <- list_fmap_compose. apply list_fmap_ext.
    intros _ [sk es] _. unfold compose. rewrite renderSubGroup_header. simpl.
    by rewrite compoundKey_click, Hk2.
  - unfold twoLevels. rewrite renderGroupWithSubGroups_header. simpl.
    rewrite Hk1. fold collapsed1. destruct collapsed1; simpl; [done|].
    rewrite <- list_fmap_compose. apply list_fmap_ext.
    intros _ [sk es] _. unfold compose. rewrite renderSubGroup_header. simpl.
    by rewrite Hk2.
Qed.

(** ** Collapse state *)

Lemma toggle_membership key role st :
  key ∈ collapsedSetOf role (toggle key role st)
  ↔ key ∉ collapsedSetOf role st.
Proof.
  unfold toggle, collapsedSetOf.
  destruct (isSubLevel role); simpl; case_decide; set_solver.
Qed.

Lemma toggle_other key role st k :
  k ≠ key →
  k ∈ collapsedSetOf role (toggle key role st) ↔ k ∈ collapsedSetOf role st.
Proof.
  intros Hne. unfold toggle, collapsedSetOf.
  destruct (isSubLevel role); simpl; case_decide; set_solver.
Qed.

Lemma flip_twice (key : string) (set : gset string) :
  let flip (s : gset string) :=
    if decide (key ∈ s) then s ∖ {[key]} else s ∪ {[key]} in
  flip (flip set) = set.
Proof.
  simpl. destruct (decide (key ∈ set)) as [Hin|Hout].
  - rewrite decide_False by set_solver.
    apply set_eq. intros x. destruct (decide (x = key)); set_solver.
  - rewrite decide_True by set_solver. set_solver.
Qed.

Lemma toggle_twice key role st : toggle key role (toggle key role st) = st.
Proof.
  destruct st as [top nested]. unfold toggle.
  destruct (isSubLevel role); simpl; f_equal; apply flip_twice.
Qed.

(** The handler of a header that was rendered with the membership of its own
    key in the set of its own level is the toggle of that key. *)
Lemma onClick_toggle title count options level key st :
  Js.or_else key title = key →
  onClick
    (renderGroupHeader title count (bool_decide (key ∈ collapsedSetOf level st))
       options level (Some key)) st
  = toggle key level st.
Proof.
  intros Hkey. unfold onClick, toggle, collapsedSetOf. simpl. rewrite Hkey.
  destruct (isSubLevel level); simpl; f_equal;
    case_bool_decide; by case_decide.
Qed.

Lemma clickOn_customGroup st nativeKey groupKey entries levelOffset options :
  clickOn (renderCustomGroup st nativeKey groupKey entries levelOffset options) st
  = toggle (collapseKey nativeKey groupKey) (levels !! levelOffset) st.
Proof.
  unfold clickOn. rewrite renderCustomGroup_header. simpl.
  apply onClick_toggle, collapseKey_click.
Qed.

Lemma clickOn_groupWithSubGroups app st nativeKey groupKey entries
    subGroupProperty levelOffset options :
  clickOn (renderGroupWithSubGroups app st nativeKey groupKey entries
             subGroupProperty levelOffset options) st
  = toggle (collapseKey nativeKey groupKey) (levels !! levelOffset) st.
Proof.
  unfold clickOn. rewrite renderGroupWithSubGroups_header. simpl.
  apply onClick_toggle, collapseKey_click.
Qed.

Lemma subLevel_isSubLevel hasNativeGrouping :
  isSubLevel (levels !! (levelOffsetOf hasNativeGrouping + 1)%nat) = true.
Proof. by destruct hasNativeGrouping. Qed.

Lemma clickOn_subGroup st nativeKey groupKey hasNativeGrouping options
    subGroupKey subEntries :
  let subLevel := levels !! (levelOffsetOf hasNativeGrouping + 1)%nat in
  clickOn (renderSubGroup st nativeKey groupKey subLevel options
             (subGroupKey, subEntries)) st
  = toggle (compoundKey nativeKey groupKey subGroupKey) subLevel st.
Proof.
  intros subLevel. unfold clickOn. rewrite renderSubGroup_header. simpl.
  rewrite <- (onClick_toggle subGroupKey (length subEntries) options)
    by apply compoundKey_click.
  unfold collapsedSetOf, subLevel. by rewrite subLevel_isSubLevel.
Qed.

(** X1. A click on the header of a plugin group (one-level group, first level
    of a two-level grouping, or sub-group) is the toggle of its composite key
    in the set that matches its level: the key is inserted if absent and
    removed if present, the membership of every other key is kept, and a
    second click, on the header rendered after the first, brings the store
    back to the state before the first. *)
Lemma plugin_group_toggle_round_trip (app : App) (st : CollapseState)
    (nativeKey groupKey subGroupKey subGroupProperty : string)
    (entries subEntries : list BasesEntry) (levelOffset : nat)
    (hasNativeGrouping : bool) (options : RenderOptions) :
  let level := levels !! levelOffset in
  let subLevel := levels !! (levelOffsetOf hasNativeGrouping + 1)%nat in
  let key1 := collapseKey nativeKey groupKey in
  let key2 := compoundKey nativeKey groupKey subGroupKey in
  let renderOne s :=
    renderCustomGroup s nativeKey groupKey entries levelOffset options in
  let renderTwo s :=
    renderGroupWithSubGroups app s nativeKey groupKey entries subGroupProperty
      levelOffset options in
  let renderSub s :=
    renderSubGroup s nativeKey groupKey subLevel options
      (subGroupKey, subEntries) in
  (∀ key role s,
     (key ∈ collapsedSetOf role (toggle key role s)
      ↔ key ∉ collapsedSetOf role s)
     ∧ (∀ k, k ≠ key →
          k ∈ collapsedSetOf role (toggle key role s)
          ↔ k ∈ collapsedSetOf role s)
     ∧ toggle key role (toggle key role s) = s)
  ∧ clickOn (renderOne st) st = toggle key1 level st
  ∧ clickOn (renderTwo st) st = toggle key1 level st
  ∧ clickOn (renderSub st) st = toggle key2 subLevel st
  ∧ clickTwice renderOne st = st
  ∧ clickTwice renderTwo st = st
  ∧ clickTwice renderSub st = st.
Proof.
  intros level subLevel key1 key2 renderOne renderTwo renderSub.
  split_and!.
  - intros key role s. split_and!.
    + apply toggle_membership.
    + intros k Hk. by apply toggle_other.
    + apply toggle_twice.
  - apply clickOn_customGroup.
  - apply clickOn_groupWithSubGroups.
  - apply clickOn_subGroup.
  - unfold clickTwice, renderOne.
    rewrite !clickOn_customGroup. apply toggle_twice.
  - unfold clickTwice, renderTwo.
    rewrite !clickOn_groupWithSubGroups. apply toggle_twice.
  - unfold clickTwice, renderSub, subLevel.
    rewrite !clickOn_subGroup. apply toggle_twice.
Qed.

(** ** The header of a native group *)

(** C5, the code at the failing input: a native group whose key is the link
    [[[Project A]]].  The group is looked up under its key, but its header is
    given the stripped key as title and no compound key, so a click inserts
    "Project A".  The group still reads as expanded, a second click changes
    nothing, and the store is not back in its first state. *)
Theorem native_group_toggle_not_a_flip :
  let options := {| showGroupCounts := true |} in
  let render st := renderNativeGroupHeader st Sample.linkGroup options in
  let st0 := Sample.noneCollapsed in
  let st1 := onClick (render st0) st0 in
  let st2 := onClick (render st1) st1 in
  nativeKeyOf Sample.linkGroup = "[[Project A]]"
  ∧ clickKey (render st0) = "Project A"
  ∧ collapsedGroups st1 = {["Project A"]}
  ∧ isNativeCollapsed st1 Sample.linkGroup = false
  ∧ st2 = st1
  ∧ st2 ≠ st0.
Proof.
  intros options render st0 st1 st2.
  assert (H1 : st1 = {| collapsedGroups := {["Project A"]};
                        collapsedSubGroups := ∅ |}) by by vm_compute.
  assert (H2 : st2 = st1) by by vm_compute.
  assert (Hne : st2 ≠ st0).
  { rewrite H2, H1. unfold st0, Sample.noneCollapsed. intros Heq.
    apply (f_equal collapsedGroups) in Heq. simpl in Heq. set_solver. }
  split_and!; [by vm_compute|by vm_compute|by rewrite H1|by vm_compute|done|done].
Qed.

(** ** A render pass from end to end *)

(** X2. The scenario of the specification: three entries, no native grouping,
    grouped by [note.status] with the values done, done, todo.  Two groups
    are rendered in first-seen order, "done" with two entries and "todo" with
    one; after a click on the header of "done" its two entries are no longer
    rendered and "todo" still is. *)
Lemma render_pass_scenario :
  let options := {| showGroupCounts := true |} in
  let forest st :=
    onDataUpdated (Sample.host [] []) st Sample.statusData
      (Some "note.status") None options in
  let summary nodes :=
    (λ node, (titleText <$> headerOf node, countText <$> headerOf node,
              path ∘ file <$> renderedEntries node)) <$> nodes in
  let st0 := Sample.noneCollapsed in
  let st1 := default st0 ((λ node, clickOn node st0) <$> head (forest st0)) in
  summary (forest st0)
  = [(Some "done", Some (Some "2"), ["a.md"; "b.md"]);
     (Some "todo", Some (Some "1"), ["c.md"])]
  ∧ collapsedGroups st1 = {["done"]}
  ∧ summary (forest st1)
    = [(Some "done", Some (Some "2"), []);
       (Some "todo", Some (Some "1"), ["c.md"])].
Proof.
  intros options forest summary st0 st1.
  assert (H0 : summary (forest st0)
               = [(Some "done", Some (Some "2"), ["a.md"; "b.md"]);
                  (Some "todo", Some (Some "1"), ["c.md"])])
    by by vm_compute.
  assert (H1 : st1 = {| collapsedGroups := {["done"]};
                        collapsedSubGroups := ∅ |}).
  { by vm_compute. }
  split_and!; [done|by rewrite H1|].
  rewrite H1. by vm_compute.
Qed.

(** ** Relative dates *)

(** The result depends on the two times through their difference only. *)
Lemma formatRelativeDate_diff now timestamp :
  formatRelativeDate now timestamp = formatRelativeDate (now - timestamp) 0.
Proof. unfold formatRelativeDate. by rewrite Z.sub_0_r. Qed.

Lemma formatRelativeDate_ago now age :
  formatRelativeDate now (now - age) = formatRelativeDate age 0.
Proof.
  rewrite formatRelativeDate_diff. f_equal. lia.
Qed.

(** The day count 1, that is an age from 24 hours up to 48 hours, reads
    "Yesterday"; "1d ago" is never produced. *)
Lemma formatRelativeDate_yesterday now timestamp :
  86400000 ≤ now - timestamp < 172800000 →
  formatRelativeDate now timestamp = "Yesterday".
Proof.
  intros H. unfold formatRelativeDate.
  assert (Hd : ((((now - timestamp) `div` 1000) `div` 60) `div` 60) `div` 24 = 1).
  { rewrite !Z.div_div by lia. simpl. symmetry.
    apply Z.div_unique with (r := now - timestamp - 86400000); lia. }
  by rewrite Hd.
Qed.

(** C6 as stated fails: 25 hours after the timestamp the day count is 1, and
    the result is "Yesterday", not "1d ago". *)
Lemma formatRelativeDate_25h_not_1d_ago :
  formatRelativeDate 1700000000000 (1700000000000 - 25 * 3600 * 1000)
  ≠ "1d ago".
Proof. vm_compute. discriminate. Qed.

(** C6, amended. For every value of the clock: a timestamp equal to now yields
    "Just now"; now minus 90 seconds yields "1m ago"; now minus 25 hours
    yields "Yesterday", as does now minus exactly 24 hours; now minus 400 days
    yields "1y ago". *)
Theorem formatRelativeDate_vectors (now : Z) :
  formatRelativeDate now now = "Just now"
  ∧ formatRelativeDate now (now - 90 * 1000) = "1m ago"
  ∧ formatRelativeDate now (now - 25 * 3600 * 1000) = "Yesterday"
  ∧ formatRelativeDate now (now - 24 * 3600 * 1000) = "Yesterday"
  ∧ formatRelativeDate now (now - 400 * 24 * 3600 * 1000) = "1y ago".
Proof.
  split_and!.
  - rewrite formatRelativeDate_diff, Z.sub_diag. by vm_compute.
  - rewrite formatRelativeDate_ago. by vm_compute.
  - rewrite formatRelativeDate_ago. by vm_compute.
  - rewrite formatRelativeDate_ago. by vm_compute.
  - rewrite formatRelativeDate_ago. by vm_compute.
Qed.

(** ** Grouping *)

Section ordered_map.
Context {V : Type}.
Implicit Types (m : OrderedMap.t V) (k : string) (f : V → V).

Lemma has_spec k m : OrderedMap.has k m = true ↔ k ∈ m.*1.
Proof. unfold OrderedMap.has. by rewrite bool_decide_eq_true. Qed.

Lemma update_keys k f m : (OrderedMap.update k f m).*1 = m.*1.
Proof.
  induction m as [|[k' v] m IH]; csimpl; [done|].
  case_bool_decide; csimpl; by rewrite ?IH.
Qed.

Lemma update_absent k f m : k ∉ m.*1 → OrderedMap.update k f m = m.
Proof.
  induction m as [|[k' v] m IH]; csimpl; [done|].
  intros [Hne Hm]%not_elem_of_cons.
  rewrite bool_decide_eq_false_2 by done. by rewrite IH.
Qed.

Lemma update_app_r k f m m' :
  k ∉ m.*1 →
  OrderedMap.update k f (m ++ m') = m ++ OrderedMap.update k f m'.
Proof.
  induction m as [|[k' v] m IH]; csimpl; [done|].
  intros [Hne Hm]%not_elem_of_cons.
  rewrite bool_decide_eq_false_2 by done. by rewrite IH.
Qed.

(** On a map built from its list of distinct keys, an update is pointwise. *)
Lemma update_fmap k f (h : string → V) (keys : list string) :
  NoDup keys →
  OrderedMap.update k f ((λ k', (k', h k')) <$> keys)
  = (λ k', (k', if decide (k' = k) then f (h k') else h k')) <$> keys.
Proof.
  induction keys as [|k0 keys IH]; [done|].
  intros [Hk0 Hnd]%NoDup_cons. csimpl. case_bool_decide as Hk; subst.
  - rewrite decide_True by done. f_equal.
    apply list_fmap_ext. intros _ k' Hk'%list_elem_of_lookup_2.
    rewrite decide_False; [done|]. by intros ->.
  - rewrite decide_False by done. by rewrite IH.
Qed.

End ordered_map.

Lemma firstSeenOrder_elem_of k keys : k ∈ firstSeenOrder keys ↔ k ∈ keys.
Proof.
  induction keys as [|k0 keys IH]; csimpl; [done|].
  rewrite !elem_of_cons, list_elem_of_filter, IH.
  destruct (decide (k = k0)); naive_solver.
Qed.

Lemma firstSeenOrder_NoDup keys : NoDup (firstSeenOrder keys).
Proof.
  induction keys as [|k0 keys IH]; csimpl; [constructor|].
  apply NoDup_cons. split.
  - rewrite list_elem_of_filter. naive_solver.
  - by apply NoDup_filter.
Qed.

Lemma firstSeenOrder_snoc keys k :
  firstSeenOrder (keys ++ [k])
  = if decide (k ∈ keys) then firstSeenOrder keys
    else firstSeenOrder keys ++ [k].
Proof.
  induction keys as [|k0 keys IH]; csimpl.
  - done.
  - rewrite IH. destruct (decide (k = k0)) as [->|Hne].
    + rewrite (decide_True (P := k0 ∈ k0 :: keys)) by set_solver.
      case_decide; [done|].
      by rewrite filter_app, filter_cons_False, filter_nil, app_nil_r by naive_solver.
    + case_decide as Hin.
      * by rewrite decide_True by set_solver.
      * rewrite decide_False by set_solver.
        by rewrite filter_app, filter_cons_True by done.
Qed.

Lemma groupBySpec_keys key entries :
  (groupBySpec key entries).*1 = firstSeenOrder (key <$> entries).
Proof.
  unfold groupBySpec. rewrite <- list_fmap_compose. apply list_fmap_id.
Qed.

Lemma has_groupBySpec key entries k :
  OrderedMap.has k (groupBySpec key entries) = true ↔ k ∈ key <$> entries.
Proof. by rewrite has_spec, groupBySpec_keys, firstSeenOrder_elem_of. Qed.

Lemma filter_absent_key (key : BasesEntry → string) entries k :
  k ∉ key <$> entries → filter (λ entry, key entry = k) entries = [].
Proof.
  intros Hout. induction entries as [|e entries IH]; [done|].
  rewrite fmap_cons, not_elem_of_cons in Hout. destruct Hout as [Hne Hout].
  rewrite filter_cons_False by done. by apply IH.
Qed.

Section grouping.
Context (app : App) (propertyId : string).

Local Abbreviation key := (λ entry, getPropertyValueAsString app entry propertyId).

(** One turn of the loop takes the grouping of the entries seen so far to the
    grouping of these entries and the next. *)
Lemma groupStep_spec seen entry :
  groupStep app propertyId (groupBySpec key seen) entry
  = groupBySpec key (seen ++ [entry]).
Proof.
  unfold groupStep. set (k := key entry).
  destruct (OrderedMap.has k _) eqn:Hhas; csimpl.
  - apply has_groupBySpec in Hhas. unfold groupBySpec.
    rewrite fmap_app. csimpl. fold k. rewrite firstSeenOrder_snoc.
    rewrite decide_True by done.
    rewrite update_fmap by apply firstSeenOrder_NoDup.
    apply list_fmap_ext. intros _ k' _. f_equal.
    rewrite filter_app. case_decide as Hk'.
    + by rewrite filter_cons_True by done.
    + rewrite filter_cons_False, filter_nil, app_nil_r; [done|].
      by intros <-.
  - assert (Hout : k ∉ key <$> seen).
    { intros Hin%has_groupBySpec. congruence. }
    unfold OrderedMap.set. rewrite Hhas.
    rewrite update_app_r
      by (by rewrite groupBySpec_keys, firstSeenOrder_elem_of).
    csimpl. rewrite bool_decide_eq_true_2 by done.
    unfold groupBySpec.
    rewrite (fmap_app key). csimpl. fold k. rewrite firstSeenOrder_snoc.
    rewrite decide_False by done.
    rewrite fmap_app. csimpl. f_equal.
    + apply list_fmap_ext. intros _ k' Hk'%list_elem_of_lookup_2. f_equal.
      rewrite filter_app, filter_cons_False, filter_nil, app_nil_r; [done|].
      intros Heq. apply Hout. fold k in Heq. rewrite Heq.
      by apply firstSeenOrder_elem_of.
    + do 2 f_equal. rewrite filter_app, filter_cons_True by done.
      by rewrite filter_absent_key.
Qed.

End grouping.

Lemma update_push_concat (k : string) (entry : BasesEntry)
    (m : OrderedMap.t (list BasesEntry)) :
  k ∈ m.*1 →
  concat (OrderedMap.update k (λ bucket, bucket ++ [entry]) m).*2
  ≡ₚ concat m.*2 ++ [entry].
Proof.
  induction m as [|[k' v] m IH]; csimpl.
  - by intros ?%elem_of_nil.
  - intros Hin. case_bool_decide as Hk; csimpl.
    + rewrite <- !(assoc (++)). f_equiv. apply Permutation_app_comm.
    + rewrite <- (assoc (++)). f_equiv. apply IH.
      apply elem_of_cons in Hin as [->|Hin]; done.
Qed.

Lemma groupStep_concat app propertyId m entry :
  concat (groupStep app propertyId m entry).*2 ≡ₚ concat m.*2 ++ [entry].
Proof.
  unfold groupStep. set (k := getPropertyValueAsString app entry propertyId).
  destruct (OrderedMap.has k m) eqn:Hhas; csimpl.
  - apply update_push_concat. by apply has_spec.
  - unfold OrderedMap.set. rewrite Hhas.
    rewrite update_app_r.
    + csimpl. rewrite bool_decide_eq_true_2 by done.
      by rewrite fmap_app, concat_app.
    + intros Hin%has_spec. congruence.
Qed.

Lemma foldl_groupStep_concat app propertyId m entries :
  concat (foldl (groupStep app propertyId) m entries).*2
  ≡ₚ concat m.*2 ++ entries.
Proof.
  revert m. induction entries as [|entry entries IH]; intros m; csimpl.
  - by rewrite app_nil_r.
  - rewrite IH, groupStep_concat. by rewrite <- (assoc (++)).
Qed.

Lemma foldl_groupStep_spec app propertyId seen entries :
  let key entry := getPropertyValueAsString app entry propertyId in
  foldl (groupStep app propertyId) (groupBySpec key seen) entries
  = groupBySpec key (seen ++ entries).
Proof.
  intros key. revert seen.
  induction entries as [|entry entries IH]; intros seen; csimpl.
  - by rewrite app_nil_r.
  - rewrite groupStep_spec, IH. by rewrite <- (assoc (++)).
Qed.

(** The loop computes the grouping of the specification. *)
Lemma groupEntriesByProperty_spec app entries propertyId :
  groupEntriesByProperty app entries propertyId
  = groupBySpec (λ entry, getPropertyValueAsString app entry propertyId) entries.
Proof. apply (foldl_groupStep_spec app propertyId []). Qed.

Lemma get_fmap_keys {V} (h : string → V) (keys : list string) k :
  k ∈ keys → OrderedMap.get k ((λ k', (k', h k')) <$> keys) = Some (h k).
Proof.
  induction keys as [|k0 keys IH]; csimpl.
  - by intros ?%elem_of_nil.
  - intros Hin. case_bool_decide as Hk; [by subst|].
    apply IH. apply elem_of_cons in Hin as [->|Hin]; done.
Qed.

(** C1. The buckets of [groupEntriesByProperty] partition the entries: the
    keys are those of the entries in first-seen order, none twice; the bucket
    of a key holds the entries that resolve to this key, all of them and in
    input order, so it is not empty; every entry is in the bucket of its own
    key and in no bucket of another key; and the buckets together hold the
    entries as often as the input does, so the total count is kept. *)
Theorem groupEntriesByProperty_partition (app : App)
    (entries : list BasesEntry) (propertyId : string) :
  let key entry := getPropertyValueAsString app entry propertyId in
  let groups := groupEntriesByProperty app entries propertyId in
  groups.*1 = firstSeenOrder (key <$> entries)
  ∧ NoDup groups.*1
  ∧ (∀ k bucket, (k, bucket) ∈ groups →
       bucket ≠ [] ∧ bucket = filter (λ entry, key entry = k) entries)
  ∧ (∀ entry, entry ∈ entries →
       ∃ bucket, OrderedMap.get (key entry) groups = Some bucket
                 ∧ entry ∈ bucket)
  ∧ (∀ k bucket entry, (k, bucket) ∈ groups → entry ∈ bucket → k = key entry)
  ∧ concat groups.*2 ≡ₚ entries
  ∧ length (concat groups.*2) = length entries.
Proof.
  intros key groups.
  assert (Hspec : groups = groupBySpec key entries)
    by apply groupEntriesByProperty_spec.
  assert (Hbucket : ∀ k bucket, (k, bucket) ∈ groups →
            k ∈ key <$> entries
            ∧ bucket = filter (λ entry, key entry = k) entries).
  { intros k bucket. rewrite Hspec. unfold groupBySpec.
    intros (k' & [= -> ->] & Hk')%list_elem_of_fmap.
    split; [|done]. by apply firstSeenOrder_elem_of. }
  assert (Hperm : concat groups.*2 ≡ₚ entries)
    by apply (foldl_groupStep_concat app propertyId []).
  split_and!.
  - rewrite Hspec. apply groupBySpec_keys.
  - rewrite Hspec, groupBySpec_keys. apply firstSeenOrder_NoDup.
  - intros k bucket [Hk ->]%Hbucket. split; [|done].
    apply list_elem_of_fmap in Hk as (entry & -> & Hentry).
    intros Hnil.
    eapply (filter_nil_not_elem_of _ _ entry); [exact Hnil| |exact Hentry].
    done.
  - intros entry Hentry. eexists. split.
    + rewrite Hspec. unfold groupBySpec. apply get_fmap_keys.
      apply firstSeenOrder_elem_of. by apply list_elem_of_fmap_2.
    + apply list_elem_of_filter. by split.
  - intros k bucket entry [_ ->]%Hbucket [Hk _]%list_elem_of_filter. done.
  - done.
  - by rewrite Hperm.
Qed.

(** ** Numerals *)

Lemma pretty_N_go_nonempty (x : N) (s : string) :
  s ≠ "" → pretty_N_go x s ≠ "".
Proof.
  revert s. induction (N.lt_wf_0 x) as [x _ IH]. intros s Hs.
  destruct (decide (x = 0%N)) as [->|Hx].
  - by rewrite pretty_N_go_0.
  - rewrite pretty_N_go_step by lia.
    apply IH; [|done]. apply N.div_lt; lia.
Qed.

Lemma pretty_N_nonempty (x : N) : pretty x ≠ "".
Proof.
  unfold pretty, pretty_N. case_decide as Hx; [done|].
  rewrite pretty_N_go_step by lia. by apply pretty_N_go_nonempty.
Qed.

Lemma pretty_Z_nonempty (z : Z) : pretty z ≠ "".
Proof.
  destruct z as [|p|p]; [done| |done].
  apply (pretty_N_nonempty (N.pos p)).
Qed.

Lemma number_to_string_nonempty n : number_to_string n ≠ "".
Proof.
  destruct n as [z| |[]]; simpl; try done. apply pretty_Z_nonempty.
Qed.

(** ** Global replacement *)

Section replace.
Context (match_at : list ascii → option (list ascii * list ascii)).
Context (match_shorter :
  ∀ l r rest, match_at l = Some (r, rest) → (length rest < length l)%nat).

Lemma replace_go_fuel fuel fuel' l :
  (length l < fuel)%nat → (length l < fuel')%nat →
  Js.replace_go match_at fuel l = Js.replace_go match_at fuel' l.
Proof.
  revert fuel' l. induction fuel as [|fuel IH]; intros fuel' l Hf Hf'; [lia|].
  destruct fuel' as [|fuel']; [lia|]. simpl.
  destruct l as [|c l]; [done|]. simpl in Hf, Hf'.
  destruct (match_at (c :: l)) as [[r rest]|] eqn:Hm.
  - apply match_shorter in Hm. simpl in Hm. f_equal. apply IH; lia.
  - f_equal. apply IH; lia.
Qed.

Lemma replace_go_S fuel c l :
  Js.replace_go match_at (S fuel) (c :: l)
  = match match_at (c :: l) with
    | Some (r, rest) => r ++ Js.replace_go match_at fuel rest
    | None => c :: Js.replace_go match_at fuel l
    end.
Proof. done. Qed.

Lemma replace_all_nil : Js.replace_all match_at [] = [].
Proof. done. Qed.

Lemma replace_all_match l r rest :
  match_at l = Some (r, rest) →
  Js.replace_all match_at l = r ++ Js.replace_all match_at rest.
Proof.
  intros Hm. pose proof (match_shorter _ _ _ Hm) as Hlen.
  unfold Js.replace_all.
  destruct l as [|c l]; [simpl in Hlen; lia|].
  rewrite replace_go_S, Hm. f_equal.
  simpl in Hlen. apply replace_go_fuel; simpl; lia.
Qed.

Lemma replace_all_no_match c l :
  match_at (c :: l) = None →
  Js.replace_all match_at (c :: l) = c :: Js.replace_all match_at l.
Proof.
  intros Hm. unfold Js.replace_all.
  by rewrite replace_go_S, Hm.
Qed.

(** Induction along the scan. *)
Lemma replace_all_ind (P : list ascii → Prop) :
  P [] →
  (∀ l r rest, match_at l = Some (r, rest) → P rest → P l) →
  (∀ c l, match_at (c :: l) = None → P l → P (c :: l)) →
  ∀ l, P l.
Proof.
  intros Hnil Hmatch Hskip l.
  remember (length l) as n eqn:Hn. revert l Hn.
  induction (lt_wf n) as [n _ IH]. intros l ->.
  destruct l as [|c l]; [done|].
  destruct (match_at (c :: l)) as [[r rest]|] eqn:Hm.
  - apply (Hmatch _ _ _ Hm). eapply IH; [|done]. by eapply match_shorter.
  - apply Hskip; [done|]. eapply IH; [|done]. simpl. lia.
Qed.

End replace.

(** ** Wikilinks *)

Lemma span_text_spec l run rest :
  Wikilink.span_text l = (run, rest) →
  l = run ++ rest
  ∧ ("]"%char ∉ run)
  ∧ (∀ c rest', rest = c :: rest' → c = "]"%char).
Proof.
  revert run rest. induction l as [|c l IH]; intros run rest; simpl.
  - intros [= <- <-]. split_and!; [done|apply not_elem_of_nil|done].
  - destruct (Ascii.eqb c "]") eqn:Hc.
    + apply Ascii.eqb_eq in Hc as ->. intros [= <- <-].
      split_and!; [done|apply not_elem_of_nil|]. by intros ? ? [= <- _].
    + apply Ascii.eqb_neq in Hc.
      destruct (Wikilink.span_text l) as [run' rest'] eqn:Hspan.
      intros [= <- <-]. destruct (IH _ _ eq_refl) as (-> & Hrun & Hrest).
      split_and!; [done| |done].
      apply not_elem_of_cons. by split.
Qed.

Lemma after_pair_spec c l rest :
  Wikilink.after_pair c l = Some rest → l = c :: c :: rest.
Proof.
  unfold Wikilink.after_pair. destruct l as [|c1 [|c2 l]]; try done.
  destruct (Ascii.eqb c1 c) eqn:H1; [|done].
  destruct (Ascii.eqb c2 c) eqn:H2; [|done].
  apply Ascii.eqb_eq in H1, H2. by intros [= <-]; subst.
Qed.

Lemma after_pair_here c rest : Wikilink.after_pair c (c :: c :: rest) = Some rest.
Proof. unfold Wikilink.after_pair. by rewrite Ascii.eqb_refl. Qed.

Lemma match_tail_spec l alias rest :
  Wikilink.match_tail l = Some (alias, rest) →
  (length rest < length l)%nat
  ∧ (∀ a, alias = Some a → a ≠ [] ∧ "]"%char ∉ a).
Proof.
  unfold Wikilink.match_tail. destruct l as [|c l]; [done|].
  destruct (Ascii.eqb c "|") eqn:Hbar.
  - destruct (Wikilink.span_text l) as [run rest0] eqn:Hspan.
    apply span_text_spec in Hspan as (-> & Hrun & _).
    destruct run as [|a run]; [done|].
    destruct (Wikilink.after_pair "]" rest0) as [rest'|] eqn:Hclose; [|done].
    apply after_pair_spec in Hclose as ->. intros [= <- <-]. split.
    + rewrite !length_cons, length_app, !length_cons. lia.
    + by intros ? [= <-].
  - destruct (Wikilink.after_pair "]" (c :: l)) as [rest'|] eqn:Hclose; [|done].
    apply after_pair_spec in Hclose. intros [= <- <-].
    rewrite Hclose. split; [simpl; lia|done].
Qed.

Lemma match_target_spec l link alias rest :
  Wikilink.match_target l = Some (link, alias, rest) →
  link ≠ [] ∧ ("]"%char ∉ link)
  ∧ (length rest < length l)%nat
  ∧ (∀ a, alias = Some a → a ≠ [] ∧ "]"%char ∉ a).
Proof.
  revert link. induction l as [|c l IH]; intros link; simpl; [done|].
  destruct (Ascii.eqb c "]") eqn:Hc; [done|]. apply Ascii.eqb_neq in Hc.
  destruct (Wikilink.match_tail l) as [[alias' rest']|] eqn:Htail.
  - intros [= <- <- <-]. apply match_tail_spec in Htail as [Hlen Halias].
    split_and!; [done| |lia|done].
    apply not_elem_of_cons. split; [done|apply not_elem_of_nil].
  - destruct (Wikilink.match_target l) as [[[link' alias'] rest']|] eqn:Hrec;
      [|done].
    intros [= <- <- <-]. destruct (IH _ eq_refl) as (_ & Hlink & Hlen & Halias).
    split_and!; [done| |lia|done].
    by apply not_elem_of_cons.
Qed.

Lemma replacement_spec l r rest :
  Wikilink.replacement l = Some (r, rest) →
  r ≠ [] ∧ ("]"%char ∉ r) ∧ (length rest < length l)%nat.
Proof.
  unfold Wikilink.replacement, Wikilink.match_at.
  destruct (Wikilink.after_pair "[" l) as [l'|] eqn:Hopen; [|done].
  apply after_pair_spec in Hopen as ->.
  destruct (Wikilink.match_target l') as [[[link alias] rest']|] eqn:Hm; [|done].
  apply match_target_spec in Hm as (Hlink & Hlink' & Hlen & Halias).
  intros [= <- <-]. split_and!; [| |simpl; lia].
  - destruct alias as [a|]; simpl; [by apply (Halias a)|done].
  - destruct alias as [a|]; simpl; [by apply (Halias a)|done].
Qed.

Lemma replacement_shorter l r rest :
  Wikilink.replacement l = Some (r, rest) → (length rest < length l)%nat.
Proof. by intros (_ & _ & ?)%replacement_spec. Qed.

Lemma stripWikilinks_chars s :
  Js.chars (stripWikilinks s) = strippedChars (Js.chars s).
Proof. unfold stripWikilinks. apply chars_str. Qed.

Lemma stripped_nonempty l : l ≠ [] → strippedChars l ≠ [].
Proof.
  destruct l as [|c l]; [done|]. intros _. unfold strippedChars.
  destruct (Wikilink.replacement (c :: l)) as [[r rest]|] eqn:Hm.
  - rewrite (replace_all_match _ replacement_shorter _ _ _ Hm).
    apply replacement_spec in Hm as (Hr & _). by destruct r.
  - by rewrite replace_all_no_match.
Qed.

Lemma stripWikilinks_nonempty s : s ≠ "" → stripWikilinks s ≠ "".
Proof.
  intros Hs Hempty. apply (stripped_nonempty (Js.chars s)).
  - by destruct s.
  - rewrite <- stripWikilinks_chars. by rewrite Hempty.
Qed.

(** ** Group keys *)

(** The result for an object, arrays included: the [Array.isArray] branch of
    [valueToGroupString] is dead code. *)
Lemma valueToGroupString_object value :
  typeof value = TypeObject → nullish value = false →
  valueToGroupString value
  = let str := to_string value in
    if negb (Js.truthy_string str) || bool_decide (str = "null")
       || bool_decide (str = "undefined")
    then "None"
    else stripWikilinks str.
Proof. by destruct value. Qed.

Lemma valueToGroupString_array items :
  valueToGroupString (VArray items)
  = let str := to_string (VArray items) in
    if negb (Js.truthy_string str) || bool_decide (str = "null")
       || bool_decide (str = "undefined")
    then "None"
    else stripWikilinks str.
Proof. by apply valueToGroupString_object. Qed.

(** C10. [valueToGroupString] never returns the empty string.  Absent and
    empty inputs (null, undefined, the empty string, the empty array, an
    object that stringifies to the empty string) give the sentinel "None",
    and stripping the wikilinks of a non-empty string leaves a non-empty
    string. *)
Theorem valueToGroupString_nonempty :
  (∀ value, valueToGroupString value ≠ "")
  ∧ valueToGroupString VNull = "None"
  ∧ valueToGroupString VUndefined = "None"
  ∧ valueToGroupString (VString "") = "None"
  ∧ valueToGroupString (VArray []) = "None"
  ∧ valueToGroupString (VObject "") = "None"
  ∧ (∀ s, s ≠ "" → stripWikilinks s ≠ "").
Proof.
  split_and!; try done; [|apply stripWikilinks_nonempty].
  assert (Hobj : ∀ value, typeof value = TypeObject → nullish value = false →
            valueToGroupString value ≠ "").
  { intros value Hty Hnull. rewrite valueToGroupString_object by done. simpl.
    destruct (Js.truthy_string (to_string value)) eqn:Hstr; simpl; [|done].
    repeat case_bool_decide; simpl; try done.
    apply stripWikilinks_nonempty. by apply truthy_string_spec. }
  intros [| |s|n|[]|items|str]; try done.
  - simpl. unfold Js.or_else.
    destruct (Js.truthy_string (stripWikilinks s)) eqn:Hs; [|done].
    by apply truthy_string_spec.
  - apply number_to_string_nonempty.
  - by apply Hobj.
  - by apply Hobj.
Qed.

(** ** The fallback chain *)

(** Subtitle resolution treats a value with an unusable stringification as no
    value and goes on to the frontmatter. *)
Lemma getSubtitleText_unusable app entry subtitleProperty value :
  subtitleProperty ≠ "file.folder" →
  getValue entry subtitleProperty = Returns value →
  unusable (to_string value) →
  getSubtitleText app entry subtitleProperty
  = subtitleFromFrontmatter app entry subtitleProperty.
Proof.
  intros Hne Hget Hstr. unfold getSubtitleText, SUBTITLE_PARENT_FOLDER.
  rewrite bool_decide_eq_false_2 by done. simpl.
  unfold subtitleFromBases. rewrite Hget.
  destruct (truthy value); [|done].
  by destruct Hstr as [->| [->| ->]].
Qed.

(** Grouping does not: for an object with an unusable stringification the
    [try] block returns "None", whatever the frontmatter holds. *)
Lemma getPropertyValueAsString_unusable app entry propertyId value :
  getValue entry propertyId = Returns value →
  typeof value = TypeObject → nullish value = false →
  unusable (to_string value) →
  getPropertyValueAsString app entry propertyId = "None".
Proof.
  intros Hget Hty Hnull Hstr.
  unfold getPropertyValueAsString, groupValueFromBases. rewrite Hget.
  assert (truthy value = true) as -> by (by destruct value).
  rewrite valueToGroupString_object by done. simpl.
  by destruct Hstr as [->| [->| ->]].
Qed.

(** C3, the code at the failing input: the accessor returns a value that
    stringifies to "null" and the frontmatter holds [status: done].  The
    frontmatter fallback would give "done", and subtitle resolution does give
    it; grouping returns "None" from the first step. *)
Theorem grouping_ignores_frontmatter_fallback :
  let entry := Sample.entry (Returns Sample.nullValue) in
  let app := Sample.host [("status", VString "done")] [] in
  groupValueFromFrontmatter app entry "note.status" = Some "done"
  ∧ getSubtitleText app entry "note.status" = Some "done"
  ∧ getPropertyValueAsString app entry "note.status" = "None".
Proof. by vm_compute. Qed.

(** The same early return keeps grouping from the folder step: for a file at
    the root of the vault whose [file.folder] value stringifies to the empty
    string the group key is "None", not "Root". *)
Lemma grouping_ignores_folder_fallback :
  getPropertyValueAsString (Sample.host [] [])
    (Sample.rootEntry (Returns (VObject ""))) "file.folder" = "None".
Proof. by vm_compute. Qed.

(** ** The parent folder *)

Lemma groupValueFromFrontmatter_file_folder app entry :
  groupValueFromFrontmatter app entry "file.folder" = None.
Proof. done. Qed.

(** The folder step where it is reached.  For the property [file.folder],
    when the first step of the resolver has returned nothing (the frontmatter
    step does not apply to this id), the group key is the name of the parent
    folder, or "Root" when there is no parent folder or its name is empty;
    the subtitle is the name of the parent folder, or null in these two
    cases. *)
Theorem file_folder_resolution (app : App) (entry : BasesEntry)
    (Hstep1 : groupValueFromBases entry "file.folder" = None) :
  getPropertyValueAsString app entry "file.folder"
  = match parent (file entry) with
    | Some folder => if decide (name folder = "") then "Root" else name folder
    | None => "Root"
    end
  ∧ getSubtitleText app entry "file.folder"
    = match parent (file entry) with
      | Some folder => if decide (name folder = "") then None
                       else Some (name folder)
      | None => None
      end.
Proof.
  unfold getPropertyValueAsString, getSubtitleText. rewrite Hstep1.
  rewrite groupValueFromFrontmatter_file_folder. simpl.
  unfold parentName, Js.or_else, Js.or_null.
  destruct (parent (file entry)) as [[folderName]|]; simpl; [|done].
  by destruct folderName.
Qed.

(** An entry in the folder [Projects] whose accessor throws, and an entry at
    the root of the vault whose accessor returns null. *)
Lemma file_folder_resolution_witness :
  (getPropertyValueAsString (Sample.host [] []) (Sample.entry Throws)
     "file.folder" = "Projects"
   ∧ getSubtitleText (Sample.host [] []) (Sample.entry Throws)
       "file.folder" = Some "Projects")
  ∧ (getPropertyValueAsString (Sample.host [] [])
       (Sample.rootEntry (Returns VNull)) "file.folder" = "Root"
     ∧ getSubtitleText (Sample.host [] [])
         (Sample.rootEntry (Returns VNull)) "file.folder" = None).
Proof.
  split.
  - apply (file_folder_resolution (Sample.host [] []) (Sample.entry Throws)).
    reflexivity.
  - apply (file_folder_resolution (Sample.host [] [])
             (Sample.rootEntry (Returns VNull))).
    reflexivity.
Defined.

(** C8, the code at the failing input.  For [file.folder] the subtitle is
    always the name of the parent folder, or null when there is none.  The
    group key is the name of the parent folder or "Root" only when the first
    step of the resolver returns nothing, that is when the accessor throws or
    returns a falsy value.  An accessor result that is present with a text
    that is no usable value ("", "null" or "undefined") does not get there:
    the first step returns "None" for it.  So for a file in the folder
    [Projects] whose [file.folder] value has the empty text the group key is
    "None" while the subtitle is "Projects", and for a file at the root of
    the vault whose value has the text "null" the group key is "None", not
    "Root". *)
Theorem grouping_skips_folder_step :
  (∀ app entry,
     getSubtitleText app entry "file.folder" = Js.or_null (parentName entry))
  ∧ (∀ app entry,
       groupValueFromBases entry "file.folder" = None →
       getPropertyValueAsString app entry "file.folder"
       = Js.or_else (parentName entry) "Root")
  ∧ (∀ app entry value,
       getValue entry "file.folder" = Returns value →
       typeof value = TypeObject → nullish value = false →
       unusable (to_string value) →
       groupValueFromBases entry "file.folder" = Some "None"
       ∧ getPropertyValueAsString app entry "file.folder" = "None")
  ∧ (let app := Sample.host [] [] in
     let inFolder := Sample.entry (Returns (VObject "")) in
     let atRoot := Sample.rootEntry (Returns (VObject "null")) in
     Js.or_else (parentName inFolder) "Root" = "Projects"
     ∧ getPropertyValueAsString app inFolder "file.folder" = "None"
     ∧ getSubtitleText app inFolder "file.folder" = Some "Projects"
     ∧ Js.or_else (parentName atRoot) "Root" = "Root"
     ∧ getPropertyValueAsString app atRoot "file.folder" = "None"
     ∧ getSubtitleText app atRoot "file.folder" = None).
Proof.
  split_and!.
  - done.
  - intros app entry Hstep1.
    unfold getPropertyValueAsString.
    by rewrite Hstep1, groupValueFromFrontmatter_file_folder.
  - intros app entry value Hget Hty Hnull Hstr.
    assert (Hstep1 : groupValueFromBases entry "file.folder" = Some "None").
    { unfold groupValueFromBases. rewrite Hget.
      assert (truthy value = true) as -> by (by destruct value).
      rewrite valueToGroupString_object by done. simpl.
      by destruct Hstr as [->| [->| ->]]. }
    split; [done|]. unfold getPropertyValueAsString. by rewrite Hstep1.
  - by vm_compute.
Qed.

(** ** Tags *)

Lemma includes_spec acc t : includes acc t = true ↔ VString t ∈ acc.
Proof.
  unfold includes. induction acc as [|v acc IH]; simpl.
  - split; [done|]. by intros ?%elem_of_nil.
  - rewrite orb_true_iff, IH, elem_of_cons. split.
    + intros [Hv|?]; [left|by right].
      destruct v; try done. by apply bool_decide_eq_true in Hv as ->.
    + intros [<-|?]; [left|by right]. by apply bool_decide_eq_true.
Qed.

Lemma includes_false acc t : includes acc t = false ↔ VString t ∉ acc.
Proof. rewrite <- includes_spec. by destruct (includes acc t). Qed.

Lemma inlineOnlyTags_elem_of fmTags names t :
  t ∈ inlineOnlyTags fmTags names ↔ t ∈ names ∧ VString t ∉ fmTags.
Proof.
  unfold inlineOnlyTags.
  rewrite list_elem_of_filter, firstSeenOrder_elem_of, includes_false.
  naive_solver.
Qed.

Lemma inlineOnlyTags_NoDup fmTags names : NoDup (inlineOnlyTags fmTags names).
Proof. apply NoDup_filter, firstSeenOrder_NoDup. Qed.

Lemma inlineOnlyTags_snoc fmTags names t :
  inlineOnlyTags fmTags (names ++ [t])
  = if includes (fmTags ++ (VString <$> inlineOnlyTags fmTags names)) t
    then inlineOnlyTags fmTags names
    else inlineOnlyTags fmTags names ++ [t].
Proof.
  unfold inlineOnlyTags at 1. rewrite firstSeenOrder_snoc.
  destruct (includes _ t) eqn:Hinc.
  - apply includes_spec, elem_of_app in Hinc as [Hfm|Hin].
    + case_decide; [done|].
      rewrite filter_app, filter_cons_False, filter_nil, app_nil_r; [done|].
      apply includes_spec in Hfm. by rewrite Hfm.
    + apply list_elem_of_fmap in Hin as (t' & [= <-] & Hin).
      apply inlineOnlyTags_elem_of in Hin as [Hin _].
      by rewrite decide_True.
  - apply includes_false in Hinc.
    rewrite elem_of_app, list_elem_of_fmap in Hinc.
    assert (Hfm : includes fmTags t = false).
    { apply includes_false. intros ?. apply Hinc. by left. }
    rewrite decide_False.
    + by rewrite filter_app, filter_cons_True.
    + intros Hin. apply Hinc. right. exists t. split; [done|].
      apply inlineOnlyTags_elem_of. split; [done|]. by apply includes_false.
Qed.

Lemma foldl_addInlineTag fmTags inlineTags :
  foldl addInlineTag fmTags inlineTags
  = fmTags ++ (VString <$> inlineOnlyTags fmTags (inlineTagName <$> inlineTags)).
Proof.
  induction inlineTags as [|tagCache inlineTags IH] using rev_ind.
  - by rewrite app_nil_r.
  - rewrite foldl_snoc, IH, fmap_app. csimpl.
    rewrite inlineOnlyTags_snoc. unfold addInlineTag.
    destruct (includes _ _); simpl; [done|].
    by rewrite fmap_app, (assoc (++)).
Qed.

(** C9 as stated fails: a tag that the frontmatter array lists twice is in
    the result twice. *)
Lemma getTags_keeps_frontmatter_duplicates :
  ¬ NoDup (getTags (Sample.host [("tags", VArray [VString "a"; VString "a"])] [])
             (Sample.entry Throws)).
Proof.
  replace (getTags _ _) with [VString "a"; VString "a"] by by vm_compute.
  intros [Hin _]%NoDup_cons. apply Hin. by left.
Qed.

(** The scenario of the specification: frontmatter tags [a, b] and the
    inline tag [#b] give [a, b]. *)
Lemma getTags_scenario :
  getTags (Sample.host [("tags", VArray [VString "a"; VString "b"])] ["#b"])
    (Sample.entry Throws)
  = [VString "a"; VString "b"].
Proof. by vm_compute. Qed.

(** C9, amended. The resolved tag list is the frontmatter tag field as it is
    (a string as one tag, an array element by element, repetitions included),
    followed by the inline tags, without their leading [#], that the list
    does not hold yet, each once and in the order of first appearance.  So
    frontmatter tags precede inline-only tags, an inline tag equal to a
    listed tag is not added again, and the result has no tag twice whenever
    the frontmatter tags have none twice. *)
Theorem getTags_union (app : App) (entry : BasesEntry) :
  let cache := getFileCache (metadataCache app) (file entry) in
  let fmTags := frontmatterTags cache in
  let inlineNames := inlineTagName <$> default [] (c ← cache; tags c) in
  let added := inlineOnlyTags fmTags inlineNames in
  getTags app entry = fmTags ++ (VString <$> added)
  ∧ NoDup added
  ∧ (∀ t, t ∈ added ↔ t ∈ inlineNames ∧ VString t ∉ fmTags)
  ∧ (∀ t, t ∈ inlineNames → VString t ∈ getTags app entry)
  ∧ added = filter (λ t, includes fmTags t = false) (firstSeenOrder inlineNames)
  ∧ (NoDup fmTags ↔ NoDup (getTags app entry)).
Proof.
  intros cache fmTags inlineNames added.
  assert (Hget : getTags app entry = fmTags ++ (VString <$> added)).
  { unfold getTags. fold cache. fold fmTags. unfold added, inlineNames.
    destruct (c ← cache; tags c) as [inlineTags|]; simpl.
    - apply foldl_addInlineTag.
    - by rewrite app_nil_r. }
  assert (Hadded : ∀ t, t ∈ added ↔ t ∈ inlineNames ∧ VString t ∉ fmTags)
    by apply inlineOnlyTags_elem_of.
  split_and!; try done.
  - apply inlineOnlyTags_NoDup.
  - intros t Ht. rewrite Hget, elem_of_app.
    destruct (includes fmTags t) eqn:Hinc.
    + left. by apply includes_spec.
    + right. apply list_elem_of_fmap_2, Hadded. split; [done|].
      by apply includes_false.
  - rewrite Hget, NoDup_app. split; [|naive_solver].
    intros Hnd. split_and!; [done| |].
    + intros v Hv (t & -> & Ht)%list_elem_of_fmap.
      by apply Hadded in Ht as [_ ?].
    + apply NoDup_fmap_2; [|apply inlineOnlyTags_NoDup].
      by intros ? ? [= ->].
Qed.

(** ** Previews *)

Lemma matches_nowhere_cons match_at c l :
  Js.matches_nowhere match_at (c :: l) = true
  ↔ match_at (c :: l) = None ∧ Js.matches_nowhere match_at l = true.
Proof.
  change (Js.matches_nowhere match_at (c :: l))
    with (match match_at (c :: l) with
          | Some _ => false
          | None => Js.matches_nowhere match_at l
          end).
  destruct (match_at (c :: l)); naive_solver.
Qed.

Lemma matches_nowhere_fixed match_at l :
  Js.matches_nowhere match_at l = true → Js.replace_all match_at l = l.
Proof.
  induction l as [|c l IH]; [done|].
  intros [Hm Hl]%matches_nowhere_cons.
  rewrite replace_all_no_match by done. by rewrite IH.
Qed.

Lemma sublist_reverse {A} (l1 l2 : list A) :
  l1 `sublist_of` l2 → reverse l1 `sublist_of` reverse l2.
Proof.
  induction 1 as [|x l1 l2 _ IH|x l1 l2 _ IH].
  - done.
  - rewrite !reverse_cons. by apply sublist_app.
  - rewrite reverse_cons. by apply sublist_inserts_r.
Qed.

Lemma sublist_filter_mono {A} (P : A → Prop) `{!∀ x, Decision (P x)}
    (l1 l2 : list A) :
  l1 `sublist_of` l2 → filter P l1 `sublist_of` filter P l2.
Proof.
  induction 1 as [|x l1 l2 _ IH|x l1 l2 _ IH].
  - done.
  - rewrite !filter_cons. case_decide; [by constructor|done].
  - rewrite filter_cons. case_decide; [by constructor|done].
Qed.

Lemma sublist_concat {A} (ls1 ls2 : list (list A)) :
  ls1 `sublist_of` ls2 → concat ls1 `sublist_of` concat ls2.
Proof.
  induction 1 as [|x l1 l2 _ IH|x l1 l2 _ IH]; simpl.
  - done.
  - by apply sublist_app.
  - by apply sublist_inserts_l.
Qed.

Lemma trim_start_sublist l : Js.trim_start l `sublist_of` l.
Proof.
  induction l as [|c l IH]; simpl; [done|].
  destruct (Js.is_space c); [by constructor|done].
Qed.

Lemma trim_sublist l : Js.trim l `sublist_of` l.
Proof.
  unfold Js.trim. rewrite <- (reverse_involutive l) at 2.
  apply sublist_reverse. etrans; [apply trim_start_sublist|].
  apply sublist_reverse, trim_start_sublist.
Qed.

Lemma trim_length l : (length (Js.trim l) ≤ length l)%nat.
Proof. apply sublist_length, trim_sublist. Qed.

Lemma split_lines_sublist l : concat (split_lines l) `sublist_of` l.
Proof.
  induction l as [|c l IH]; simpl; [done|].
  destruct (Ascii.eqb c "010"); [by constructor|].
  destruct (Ascii.eqb c "013" && starts_with_lf l); [by constructor|].
  destruct (split_lines l) as [|line more]; simpl in *.
  - constructor. apply sublist_nil_l.
  - by constructor.
Qed.

(** For a positive count, [slice(0, n)] keeps the first [n] elements. *)
Lemma slice_0_take {A} (n : Z) (l : list A) :
  0 ≤ n → Js.slice 0 n l = take (Z.to_nat n) l.
Proof.
  intros Hn. unfold Js.slice, Js.rel_index.
  rewrite (proj2 (Z.ltb_ge 0 0)) by lia.
  rewrite (proj2 (Z.ltb_ge n 0)) by lia.
  replace (Z.to_nat (Z.min 0 (Z.of_nat (length l)))) with 0%nat by lia.
  rewrite drop_0, Nat.sub_0_r.
  destruct (decide (n ≤ Z.of_nat (length l))).
  - by rewrite Z.min_l by lia.
  - rewrite Z.min_r, Nat2Z.id by lia.
    by rewrite !take_ge by lia.
Qed.

(** *** Tags *)

Lemma after_gt_spec l rest :
  HtmlTag.after_gt l = Some rest → ∃ skipped, l = skipped ++ ">"%char :: rest.
Proof.
  revert rest. induction l as [|c l IH]; intros rest; simpl; [done|].
  destruct (Ascii.eqb c ">") eqn:Hc.
  - apply Ascii.eqb_eq in Hc as ->. intros [= ->]. by exists [].
  - intros (skipped & ->)%IH. by exists (c :: skipped).
Qed.

Lemma after_gt_None l : HtmlTag.after_gt l = None ↔ ">"%char ∉ l.
Proof.
  induction l as [|c l IH]; simpl.
  - split; [intros _; apply not_elem_of_nil|done].
  - rewrite not_elem_of_cons. destruct (Ascii.eqb c ">") eqn:Hc.
    + apply Ascii.eqb_eq in Hc as ->. naive_solver.
    + apply Ascii.eqb_neq in Hc. naive_solver.
Qed.

Lemma tag_replacement_spec l r rest :
  HtmlTag.replacement l = Some (r, rest) →
  r = [] ∧ ∃ skipped, l = "<"%char :: skipped ++ ">"%char :: rest.
Proof.
  unfold HtmlTag.replacement. destruct l as [|c l]; [done|].
  destruct (Ascii.eqb c "<") eqn:Hc; [|done].
  apply Ascii.eqb_eq in Hc as ->.
  destruct (HtmlTag.after_gt l) as [rest'|] eqn:Hgt; [|done].
  intros [= <- <-]. apply after_gt_spec in Hgt as (skipped & ->). eauto.
Qed.

Lemma tag_replacement_None c l :
  HtmlTag.replacement (c :: l) = None ↔ (c = "<"%char → ">"%char ∉ l).
Proof.
  unfold HtmlTag.replacement. destruct (Ascii.eqb c "<") eqn:Hc.
  - apply Ascii.eqb_eq in Hc as ->. rewrite <- after_gt_None.
    destruct (HtmlTag.after_gt l); naive_solver.
  - apply Ascii.eqb_neq in Hc. naive_solver.
Qed.

Lemma tag_replacement_shorter l r rest :
  HtmlTag.replacement l = Some (r, rest) → (length rest < length l)%nat.
Proof.
  intros (_ & skipped & ->)%tag_replacement_spec.
  rewrite length_cons, length_app, length_cons. lia.
Qed.

Lemma tagFree_cons c l :
  tagFree (c :: l) ↔ (c = "<"%char → ">"%char ∉ l) ∧ tagFree l.
Proof.
  unfold tagFree. by rewrite matches_nowhere_cons, tag_replacement_None.
Qed.

Lemma tagFree_nil : tagFree [].
Proof. done. Qed.

Lemma stripHtml_sublist l : stripHtml l `sublist_of` l.
Proof.
  unfold stripHtml.
  induction l as [|l r rest Hm IH|c l Hm IH]
    using (replace_all_ind _ tag_replacement_shorter).
  - done.
  - rewrite (replace_all_match _ tag_replacement_shorter _ _ _ Hm).
    apply tag_replacement_spec in Hm as (-> & skipped & ->). simpl.
    constructor. apply sublist_inserts_l. by constructor.
  - rewrite replace_all_no_match by done. by constructor.
Qed.

(** What is left after the replacement holds no tag. *)
Lemma stripHtml_tagFree l : tagFree (stripHtml l).
Proof.
  unfold stripHtml.
  induction l as [|l r rest Hm IH|c l Hm IH]
    using (replace_all_ind _ tag_replacement_shorter).
  - done.
  - rewrite (replace_all_match _ tag_replacement_shorter _ _ _ Hm).
    by apply tag_replacement_spec in Hm as (-> & _).
  - rewrite replace_all_no_match by done. apply tagFree_cons. split; [|done].
    intros Hc Hin. apply tag_replacement_None in Hm; [|done].
    apply Hm. eapply elem_of_sublist; [done|apply stripHtml_sublist].
Qed.

Local Abbreviation angles :=
  (filter (λ c : ascii, c = "<"%char ∨ c = ">"%char)).

Lemma tagFree_sublist l1 l2 : l1 `sublist_of` l2 → tagFree l2 → tagFree l1.
Proof.
  induction 1 as [|x l1 l2 Hsub IH|x l1 l2 Hsub IH].
  - done.
  - rewrite !tagFree_cons. intros [Hx Hl2]. split; [|by apply IH].
    intros -> Hin. apply Hx; [done|]. by eapply elem_of_sublist.
  - rewrite tagFree_cons. intros [_ Hl2]. by apply IH.
Qed.

(** Only the angle brackets of a text decide whether it holds a tag. *)
Lemma tagFree_angles l : tagFree (angles l) → tagFree l.
Proof.
  induction l as [|c l IH]; [done|]. rewrite filter_cons.
  case_decide as Hc.
  - rewrite !tagFree_cons. intros [Hgt Hl]. split; [|by apply IH].
    intros -> Hin. apply Hgt; [done|]. apply list_elem_of_filter. auto.
  - intros Hl. apply tagFree_cons. split; [|by apply IH].
    intros ->. destruct Hc. by left.
Qed.

Lemma angles_join (ls : list (list ascii)) :
  angles (Js.chars (Js.join " " (Js.str <$> ls))) = angles (concat ls).
Proof.
  induction ls as [|line ls IH]; [done|].
  destruct ls as [|line' ls].
  - simpl. by rewrite chars_str, app_nil_r.
  - change (Js.join " " (Js.str <$> line :: line' :: ls))
      with (Js.str line +:+ " " +:+ Js.join " " (Js.str <$> line' :: ls)).
    rewrite !chars_app, chars_str, !filter_app, IH.
    change (concat (line :: line' :: ls)) with (line ++ concat (line' :: ls)).
    by rewrite filter_app.
Qed.

Lemma slice_sublist {A} (from to : Z) (l : list A) :
  Js.slice from to l `sublist_of` l.
Proof.
  unfold Js.slice. etrans; [apply sublist_take|apply sublist_drop].
Qed.

(** The brackets of the output are among those of the text without its tags,
    in the same order. *)
Lemma truncateToLines_angles text lines :
  angles (Js.chars (truncateToLines text lines))
  `sublist_of` angles (stripHtml (Js.chars text)).
Proof.
  unfold truncateToLines.
  set (kept := Js.slice 0 lines _).
  assert (Hjoined : angles (Js.chars (Js.join " " (Js.str <$> kept)))
                    `sublist_of` angles (stripHtml (Js.chars text))).
  { rewrite angles_join. apply sublist_filter_mono.
    etrans; [apply sublist_concat, slice_sublist|].
    etrans; [apply sublist_concat, sublist_filter|].
    etrans; [apply split_lines_sublist|apply trim_sublist]. }
  destruct (_ >? _); [|done].
  rewrite chars_app, chars_str, filter_app.
  change (angles (Js.chars "...")) with (@nil ascii). rewrite app_nil_r.
  etrans; [|exact Hjoined]. apply sublist_filter_mono.
  etrans; [apply trim_sublist|apply slice_sublist].
Qed.

Lemma truncateToLines_tagFree text lines :
  tagFree (Js.chars (truncateToLines text lines)).
Proof.
  apply tagFree_angles.
  eapply tagFree_sublist; [apply truncateToLines_angles|].
  eapply tagFree_sublist; [apply sublist_filter|apply stripHtml_tagFree].
Qed.

(** C7. For a positive number of lines, [truncateToLines]: removes the tags
    (no tag is left in the text it works on, nor in its result); keeps the
    first lines that are not blank, at most [lines] of them, joined with a
    single space; and returns this text if it has at most [lines * 80]
    characters, and otherwise at most [lines * 80] of its leading characters
    followed by the ellipsis ["..."]. *)
Theorem truncateToLines_spec (text : string) (lines : Z) (Hlines : 0 < lines) :
  let clean := stripHtml (Js.chars text) in
  let kept := take (Z.to_nat lines) (nonBlankLines (Js.trim clean)) in
  let joined := Js.join " " (Js.str <$> kept) in
  let out := truncateToLines text lines in
  tagFree clean
  ∧ clean `sublist_of` Js.chars text
  ∧ tagFree (Js.chars out)
  ∧ kept `prefix_of` filter (λ line, Js.trim line ≠ []) (split_lines (Js.trim clean))
  ∧ Z.of_nat (length kept) ≤ lines
  ∧ Forall (λ line, Js.trim line ≠ []) kept
  ∧ (if decide (Z.of_nat (String.length joined) ≤ lines * 80)
     then out = joined
     else ∃ cut,
       out = cut +:+ "..."
       ∧ Z.of_nat (String.length cut) ≤ lines * 80
       ∧ Js.chars cut
         = Js.trim (take (Z.to_nat (lines * 80)) (Js.chars joined)))
  ∧ Z.of_nat (String.length out) ≤ lines * 80 + 3.
Proof.
  intros clean kept joined out.
  assert (Hout : out = if Z.of_nat (String.length joined) >? lines * 80
                       then Js.str (Js.trim (take (Z.to_nat (lines * 80))
                                               (Js.chars joined))) +:+ "..."
                       else joined).
  { unfold out, truncateToLines. rewrite !slice_0_take by lia. done. }
  assert (Hcut : Z.of_nat (String.length
                   (Js.str (Js.trim (take (Z.to_nat (lines * 80))
                                       (Js.chars joined))))) ≤ lines * 80).
  { rewrite str_length.
    pose proof (trim_length (take (Z.to_nat (lines * 80)) (Js.chars joined)))
      as Htrim.
    rewrite length_take in Htrim. lia. }
  split_and!.
  - apply stripHtml_tagFree.
  - apply stripHtml_sublist.
  - apply truncateToLines_tagFree.
  - apply prefix_take.
  - unfold kept. rewrite length_take. lia.
  - apply Forall_take. unfold nonBlankLines. apply Forall_forall.
    by intros line [? _]%list_elem_of_filter.
  - rewrite Hout. destruct (Z.gtb_spec (Z.of_nat (String.length joined))
                              (lines * 80)) as [Hgt|Hle].
    + rewrite decide_False by lia.
      eexists. split_and!; [done|exact Hcut|by rewrite chars_str].
    + by rewrite decide_True by lia.
  - rewrite Hout. destruct (Z.gtb_spec (Z.of_nat (String.length joined))
                              (lines * 80)) as [Hgt|Hle].
    + rewrite string_app_length. simpl. lia.
    + lia.
Qed.

(** An input with tags, a blank line and a third line that is dropped. *)
Lemma truncateToLines_spec_witness :
  0 < 2
  ∧ tagFree (Js.chars (truncateToLines Sample.preview 2))
  ∧ Z.of_nat (String.length (truncateToLines Sample.preview 2)) ≤ 2 * 80 + 3
  ∧ truncateToLines Sample.preview 2 = "Hello world   second line".
Proof.
  assert (Hlines : 0 < 2) by reflexivity.
  split; [exact Hlines|].
  destruct (truncateToLines_spec Sample.preview 2 Hlines)
    as (_ & _ & Hfree & _ & _ & _ & _ & Hlen).
  split; [exact Hfree|]. split; [exact Hlen|]. reflexivity.
Defined.

(** ** Stripping twice *)

Section matches.
Context (match_at : list ascii → option (list ascii * list ascii)).
Context (match_shorter :
  ∀ l r rest, match_at l = Some (r, rest) → (length rest < length l)%nat).

Lemma matches_go_fuel fuel fuel' l :
  (length l < fuel)%nat → (length l < fuel')%nat →
  Js.matches_go match_at fuel l = Js.matches_go match_at fuel' l.
Proof.
  revert fuel' l. induction fuel as [|fuel IH]; intros fuel' l Hf Hf'; [lia|].
  destruct fuel' as [|fuel']; [lia|]. simpl.
  destruct l as [|c l]; [done|]. simpl in Hf, Hf'.
  destruct (match_at (c :: l)) as [[r rest]|] eqn:Hm.
  - apply match_shorter in Hm. simpl in Hm. f_equal. apply IH; lia.
  - apply IH; lia.
Qed.

Lemma matches_go_S fuel c l :
  Js.matches_go match_at (S fuel) (c :: l)
  = match match_at (c :: l) with
    | Some (r, rest) => r :: Js.matches_go match_at fuel rest
    | None => Js.matches_go match_at fuel l
    end.
Proof. done. Qed.

Lemma all_matches_match l r rest :
  match_at l = Some (r, rest) →
  Js.all_matches match_at l = r :: Js.all_matches match_at rest.
Proof.
  intros Hm. pose proof (match_shorter _ _ _ Hm) as Hlen.
  unfold Js.all_matches.
  destruct l as [|c l]; [simpl in Hlen; lia|].
  rewrite matches_go_S, Hm. f_equal.
  simpl in Hlen. apply matches_go_fuel; simpl; lia.
Qed.

Lemma all_matches_no_match c l :
  match_at (c :: l) = None →
  Js.all_matches match_at (c :: l) = Js.all_matches match_at l.
Proof.
  intros Hm. unfold Js.all_matches. by rewrite matches_go_S, Hm.
Qed.

End matches.

Lemma stripped_match l r rest :
  Wikilink.replacement l = Some (r, rest) → strippedChars l = r ++ strippedChars rest.
Proof. apply replace_all_match, replacement_shorter. Qed.

Lemma stripped_no_match c l :
  Wikilink.replacement (c :: l) = None → strippedChars (c :: l) = c :: strippedChars l.
Proof. apply replace_all_no_match. Qed.

Lemma after_pair_head c a l :
  a ≠ c → Wikilink.after_pair c (a :: l) = None.
Proof.
  intros Hne. unfold Wikilink.after_pair. destruct l as [|a' l]; [done|].
  by rewrite (proj2 (Ascii.eqb_neq a c)).
Qed.

Lemma replacement_head a l : a ≠ "["%char → Wikilink.replacement (a :: l) = None.
Proof.
  intros Hne. unfold Wikilink.replacement, Wikilink.match_at.
  by rewrite after_pair_head.
Qed.

Lemma replacement_open l :
  Wikilink.replacement ("["%char :: "["%char :: l)
  = match Wikilink.match_target l with
    | Some (link, alias, rest) => Some (default link alias, rest)
    | None => None
    end.
Proof.
  unfold Wikilink.replacement, Wikilink.match_at. by rewrite after_pair_here.
Qed.

Lemma stripped_closing l : strippedChars ("]"%char :: l) = "]"%char :: strippedChars l.
Proof. by apply stripped_no_match, replacement_head. Qed.

(** *** The shape of a match *)

Lemma span_text_run u rest :
  "]"%char ∉ u → (∀ c rest', rest = c :: rest' → c = "]"%char) →
  Wikilink.span_text (u ++ rest) = (u, rest).
Proof.
  intros Hu Hrest. induction u as [|a u IH]; simpl.
  - destruct rest as [|c rest']; [done|].
    by rewrite (Hrest c rest' eq_refl).
  - apply not_elem_of_cons in Hu as [Ha Hu].
    rewrite (proj2 (Ascii.eqb_neq a "]")) by done. by rewrite IH.
Qed.

Lemma match_tail_shape l alias rest :
  Wikilink.match_tail l = Some (alias, rest) →
  ∃ text, ("]"%char ∉ text) ∧ l = text ++ "]"%char :: "]"%char :: rest.
Proof.
  unfold Wikilink.match_tail. destruct l as [|c l]; [done|].
  destruct (Ascii.eqb c "|") eqn:Hbar.
  - apply Ascii.eqb_eq in Hbar as ->.
    destruct (Wikilink.span_text l) as [run rest0] eqn:Hspan.
    apply span_text_spec in Hspan as (-> & Hrun & _).
    destruct run as [|a run]; [done|].
    destruct (Wikilink.after_pair "]" rest0) as [rest'|] eqn:Hclose; [|done].
    apply after_pair_spec in Hclose as ->. intros [= <- <-].
    exists ("|"%char :: a :: run). split; [|done].
    apply not_elem_of_cons. by split.
  - destruct (Wikilink.after_pair "]" (c :: l)) as [rest'|] eqn:Hclose; [|done].
    apply after_pair_spec in Hclose. intros [= <- <-].
    exists []. split; [apply not_elem_of_nil|done].
Qed.

Lemma match_target_shape l link alias rest :
  Wikilink.match_target l = Some (link, alias, rest) →
  ∃ text, text ≠ [] ∧ ("]"%char ∉ text)
          ∧ l = text ++ "]"%char :: "]"%char :: rest.
Proof.
  revert link. induction l as [|c l IH]; intros link; simpl; [done|].
  destruct (Ascii.eqb c "]") eqn:Hc; [done|]. apply Ascii.eqb_neq in Hc.
  destruct (Wikilink.match_tail l) as [[alias' rest']|] eqn:Htail.
  - intros [= <- <- <-].
    apply match_tail_shape in Htail as (text & Htext & ->).
    exists (c :: text). split_and!; [done| |done].
    by apply not_elem_of_cons.
  - destruct (Wikilink.match_target l) as [[[link' alias'] rest']|] eqn:Hrec;
      [|done].
    intros [= <- <- <-]. destruct (IH _ eq_refl) as (text & _ & Htext & ->).
    exists (c :: text). split_and!; [done| |done].
    by apply not_elem_of_cons.
Qed.

Lemma match_target_closed text rest :
  text ≠ [] → "]"%char ∉ text →
  is_Some (Wikilink.match_target (text ++ "]"%char :: "]"%char :: rest)).
Proof.
  induction text as [|c text IH]; [done|]. intros _ Hnot.
  apply not_elem_of_cons in Hnot as [Hc Htext]. simpl.
  rewrite (proj2 (Ascii.eqb_neq c "]")) by done.
  destruct (Wikilink.match_tail _) as [[alias rest']|] eqn:Htail; [done|].
  destruct text as [|c' text].
  - by cbv in Htail.
  - destruct (IH ltac:(done) Htext) as [[[link alias] rest'] ->]. done.
Qed.

(** The target and the end of the pattern match exactly when the run of
    characters other than the closing bracket is not empty and two closing
    brackets follow it. *)
Lemma match_target_None l :
  Wikilink.match_target l = None
  ↔ (Wikilink.span_text l).1 = []
    ∨ Wikilink.after_pair "]" (Wikilink.span_text l).2 = None.
Proof.
  destruct (Wikilink.span_text l) as [run rest] eqn:Hspan. simpl.
  pose proof (span_text_spec _ _ _ Hspan) as (-> & Hrun & Hrest). split.
  - intros Hnone. destruct run as [|a run]; [by left|]. right.
    destruct (Wikilink.after_pair "]" rest) as [rest'|] eqn:Hclose; [|done].
    apply after_pair_spec in Hclose as ->.
    destruct (match_target_closed (a :: run) rest' ltac:(done) Hrun) as [? Hsome].
    congruence.
  - intros Hor.
    destruct (Wikilink.match_target (run ++ rest)) as [[[link alias] rest']|]
      eqn:Hm; [|done].
    apply match_target_shape in Hm as (text & Hne & Htext & Heq).
    assert (Hspan' : Wikilink.span_text (run ++ rest)
                     = (text, "]"%char :: "]"%char :: rest')).
    { rewrite Heq. apply span_text_run; [done|]. by intros ? ? [= <- _]. }
    rewrite Hspan in Hspan'. injection Hspan' as -> ->.
    destruct Hor as [?|Hclose]; [done|].
    by rewrite after_pair_here in Hclose.
Qed.

(** *** What stripping leaves in place *)

(** Text without closing brackets, in front of something that does not close
    a reference, is copied as it is. *)
Lemma replacement_second a a' l :
  a' ≠ "["%char → Wikilink.replacement (a :: a' :: l) = None.
Proof.
  intros Hne. unfold Wikilink.replacement, Wikilink.match_at, Wikilink.after_pair.
  rewrite (proj2 (Ascii.eqb_neq a' "[")) by done. by rewrite andb_false_r.
Qed.

Lemma stripped_run u rest :
  "]"%char ∉ u → (∀ c rest', rest = c :: rest' → c = "]"%char) →
  Wikilink.after_pair "]" rest = None →
  strippedChars (u ++ rest) = u ++ strippedChars rest.
Proof.
  intros Hu Hrest Hclose. induction u as [|a u IH]; [done|].
  apply not_elem_of_cons in Hu as [Ha Hu].
  rewrite <- app_comm_cons, stripped_no_match; [by rewrite IH|].
  destruct u as [|a' u].
  - destruct rest as [|c rest']; [done|]. simpl.
    apply replacement_second. by rewrite (Hrest _ _ eq_refl).
  - rewrite <- app_comm_cons.
    destruct (decide (a' = "["%char)) as [->|Hne'];
      [|by apply replacement_second].
    destruct (decide (a = "["%char)) as [->|Hne]; [|by apply replacement_head].
    rewrite replacement_open.
    apply not_elem_of_cons in Hu as [_ Hu].
    assert (Hnone : Wikilink.match_target (u ++ rest) = None).
    { apply match_target_None. rewrite span_text_run by done. by right. }
    by rewrite Hnone.
Qed.

(** Stripping does not bring a closing bracket to the front. *)
Lemma stripped_head_closing t :
  Wikilink.after_pair "]" ("]"%char :: t) = None →
  Wikilink.after_pair "]" ("]"%char :: strippedChars t) = None.
Proof.
  intros Ht. destruct t as [|c t]; [done|].
  assert (Hc : c ≠ "]"%char).
  { intros ->. by rewrite after_pair_here in Ht. }
  destruct (Wikilink.replacement (c :: t)) as [[r rest]|] eqn:Hm.
  - rewrite (stripped_match _ _ _ Hm).
    apply replacement_spec in Hm as (Hr & Hnot & _).
    destruct r as [|a r]; [done|]. apply not_elem_of_cons in Hnot as [Ha _].
    unfold Wikilink.after_pair. simpl.
    by rewrite (proj2 (Ascii.eqb_neq a "]")).
  - rewrite stripped_no_match by done.
    unfold Wikilink.after_pair. simpl.
    by rewrite (proj2 (Ascii.eqb_neq c "]")).
Qed.

(** An opening pair that starts no reference starts none after stripping what
    follows it. *)
Lemma match_target_stripped l :
  Wikilink.match_target l = None → Wikilink.match_target (strippedChars l) = None.
Proof.
  intros Hnone. apply match_target_None in Hnone.
  destruct (Wikilink.span_text l) as [run rest] eqn:Hspan. simpl in Hnone.
  pose proof (span_text_spec _ _ _ Hspan) as (-> & Hrun & Hrest).
  apply match_target_None.
  destruct Hnone as [->|Hclose].
  - left. destruct rest as [|c t]; [done|].
    rewrite (Hrest _ _ eq_refl). simpl. rewrite stripped_closing. done.
  - right. rewrite stripped_run by done.
    destruct rest as [|c t].
    + change (strippedChars []) with (@nil ascii).
      by rewrite span_text_run by done.
    + rewrite (Hrest _ _ eq_refl) in *. rewrite stripped_closing.
      rewrite span_text_run; [|done|by intros ? ? [= <- _]].
      by apply stripped_head_closing.
Qed.

(** A position where the pattern does not match stays one after the rest of
    the input is stripped, as long as no text put in place of a reference
    starts with an opening bracket. *)
Lemma replacement_stripped c l :
  Wikilink.replacement (c :: l) = None →
  Forall (λ text, "["%char ∉ text) (Js.all_matches Wikilink.replacement l) →
  Wikilink.replacement (c :: strippedChars l) = None.
Proof.
  intros Hnone Hfree.
  destruct (decide (c = "["%char)) as [->|Hc]; [|by apply replacement_head].
  destruct l as [|c2 l]; [done|].
  destruct (Wikilink.replacement (c2 :: l)) as [[r rest]|] eqn:Hm.
  - rewrite (stripped_match _ _ _ Hm).
    rewrite (all_matches_match _ replacement_shorter _ _ _ Hm) in Hfree.
    apply Forall_cons in Hfree as [Hr _].
    apply replacement_spec in Hm as (Hne & _).
    destruct r as [|a r]; [done|]. apply not_elem_of_cons in Hr as [Ha _].
    unfold Wikilink.replacement, Wikilink.match_at, Wikilink.after_pair.
    simpl. by rewrite (proj2 (Ascii.eqb_neq a "[")).
  - rewrite stripped_no_match by done.
    destruct (decide (c2 = "["%char)) as [->|Hc2].
    + rewrite replacement_open in Hnone |- *.
      destruct (Wikilink.match_target l) as [[[? ?] ?]|] eqn:Htarget; [done|].
      by rewrite match_target_stripped.
    + unfold Wikilink.replacement, Wikilink.match_at, Wikilink.after_pair.
      simpl. by rewrite (proj2 (Ascii.eqb_neq c2 "[")).
Qed.

Lemma matches_nowhere_app r l :
  "["%char ∉ r →
  Js.matches_nowhere Wikilink.replacement (r ++ l)
  = Js.matches_nowhere Wikilink.replacement l.
Proof.
  induction r as [|a r IH]; [done|].
  intros [Ha Hr]%not_elem_of_cons.
  rewrite <- app_comm_cons. simpl.
  rewrite replacement_head by done. by apply IH.
Qed.

(** When no text put in place of a reference holds an opening bracket, the
    stripped text holds no reference. *)
Lemma stripped_matches_nowhere l :
  Forall (λ text, "["%char ∉ text) (Js.all_matches Wikilink.replacement l) →
  Js.matches_nowhere Wikilink.replacement (strippedChars l) = true.
Proof.
  induction l as [|l r rest Hm IH|c l Hm IH]
    using (replace_all_ind _ replacement_shorter).
  - done.
  - rewrite (all_matches_match _ replacement_shorter _ _ _ Hm).
    intros [Hr Hrest]%Forall_cons.
    rewrite (stripped_match _ _ _ Hm), matches_nowhere_app by done.
    by apply IH.
  - rewrite all_matches_no_match by done. intros Hfree.
    rewrite stripped_no_match by done.
    apply matches_nowhere_cons. split; [|by apply IH].
    by apply replacement_stripped.
Qed.

(** C2 as stated fails: the target of a reference may hold opening brackets,
    and what the first pass leaves can be a reference for the second. *)
Lemma stripWikilinks_not_idempotent :
  stripWikilinks (stripWikilinks "[[[[a]]]]") ≠ stripWikilinks "[[[[a]]]]".
Proof. by vm_compute. Qed.

(** C2, amended. Stripping twice equals stripping once for every string in
    which no reference shows a text (its alias, or else its target) with an
    opening bracket in it. *)
Theorem stripWikilinks_idempotent (s : string)
    (Hfree : bracketFreeDisplays s) :
  stripWikilinks (stripWikilinks s) = stripWikilinks s.
Proof.
  unfold stripWikilinks at 1. rewrite stripWikilinks_chars.
  fold (strippedChars (strippedChars (Js.chars s))).
  unfold stripWikilinks. f_equal.
  apply matches_nowhere_fixed, stripped_matches_nowhere, Hfree.
Qed.

(** A string with a plain reference, a reference with an alias, and brackets
    that belong to no reference. *)
Lemma stripWikilinks_idempotent_witness :
  bracketFreeDisplays "see [[Projects/Plan|the plan]] and [[Notes]] [ok] [[x"
  ∧ stripWikilinks
      (stripWikilinks "see [[Projects/Plan|the plan]] and [[Notes]] [ok] [[x")
    = stripWikilinks "see [[Projects/Plan|the plan]] and [[Notes]] [ok] [[x".
Proof.
  assert (Hfree : bracketFreeDisplays
            "see [[Projects/Plan|the plan]] and [[Notes]] [ok] [[x").
  { unfold bracketFreeDisplays. apply Forall_forall. vm_compute.
    intros text Hin. repeat (apply elem_of_cons in Hin as [->|Hin]);
      [..|by apply elem_of_nil in Hin];
      intros Hb; repeat (apply elem_of_cons in Hb as [?|Hb]; [done|]);
      by apply elem_of_nil in Hb. }
  split; [exact Hfree|].
  exact (stripWikilinks_idempotent _ Hfree).
Defined.

(** ** Text with links *)

Lemma match_at_spec l link alias rest :
  Wikilink.match_at l = Some (link, alias, rest) →
  link ≠ [] ∧ ("]"%char ∉ link)
  ∧ (length rest < length l)%nat
  ∧ Wikilink.replacement l = Some (default link alias, rest).
Proof.
  intros Hm. unfold Wikilink.replacement. rewrite Hm.
  unfold Wikilink.match_at in Hm.
  destruct (Wikilink.after_pair "[" l) as [l'|] eqn:Hopen; [|done].
  apply after_pair_spec in Hopen as ->.
  apply match_target_spec in Hm as (Hlink & Hnot & Hlen & _).
  split_and!; [done|done|simpl; lia|done].
Qed.

Lemma match_at_None l :
  Wikilink.match_at l = None ↔ Wikilink.replacement l = None.
Proof.
  unfold Wikilink.replacement.
  destruct (Wikilink.match_at l) as [[[link alias] rest]|]; naive_solver.
Qed.

Lemma links_go_fuel fuel fuel' plain l :
  (length l < fuel)%nat → (length l < fuel')%nat →
  links_go fuel plain l = links_go fuel' plain l.
Proof.
  revert fuel' plain l.
  induction fuel as [|fuel IH]; intros fuel' plain l Hf Hf'; [lia|].
  destruct fuel' as [|fuel']; [lia|]. simpl.
  destruct l as [|c l]; [done|]. simpl in Hf, Hf'.
  destruct (Wikilink.match_at (c :: l)) as [[[link alias] rest]|] eqn:Hm.
  - apply match_at_spec in Hm as (_ & _ & Hlen & _). simpl in Hlen.
    do 2 f_equal. apply IH; lia.
  - apply IH; lia.
Qed.

(** The pieces for the text [l] after the plain text [plain]. *)
Local Abbreviation linksFrom plain l := (links_go (S (length l)) plain l).

Lemma linksFrom_match plain l link alias rest :
  Wikilink.match_at l = Some (link, alias, rest) →
  linksFrom plain l
  = appendText plain
    ++ LinkSpan (Js.str link) (Js.str (default link alias)) :: linksFrom [] rest.
Proof.
  intros Hm. pose proof (match_at_spec _ _ _ _ Hm) as (_ & _ & Hlen & _).
  destruct l as [|c l]; [simpl in Hlen; lia|].
  change (links_go (S (length (c :: l))) plain (c :: l))
    with (match Wikilink.match_at (c :: l) with
          | Some (link, alias, rest) =>
              appendText plain
              ++ LinkSpan (Js.str link) (Js.str (default link alias))
                 :: links_go (length (c :: l)) [] rest
          | None => links_go (length (c :: l)) (plain ++ [c]) l
          end).
  rewrite Hm. do 2 f_equal. simpl in Hlen. apply links_go_fuel; simpl; lia.
Qed.

Lemma linksFrom_no_match plain c l :
  Wikilink.match_at (c :: l) = None →
  linksFrom plain (c :: l) = linksFrom (plain ++ [c]) l.
Proof.
  intros Hm.
  change (links_go (S (length (c :: l))) plain (c :: l))
    with (match Wikilink.match_at (c :: l) with
          | Some (link, alias, rest) =>
              appendText plain
              ++ LinkSpan (Js.str link) (Js.str (default link alias))
                 :: links_go (length (c :: l)) [] rest
          | None => links_go (length (c :: l)) (plain ++ [c]) l
          end).
  by rewrite Hm.
Qed.

Lemma renderTextWithLinks_linksFrom text :
  renderTextWithLinks text = linksFrom [] (Js.chars text).
Proof. unfold renderTextWithLinks. by rewrite chars_length. Qed.

Lemma string_app_assoc s t u : (s +:+ t) +:+ u = s +:+ t +:+ u.
Proof.
  rewrite <- (str_chars ((s +:+ t) +:+ u)), <- (str_chars (s +:+ t +:+ u)).
  by rewrite !chars_app, (assoc (++)).
Qed.

Lemma string_app_nil_r s : s +:+ "" = s.
Proof.
  rewrite <- (str_chars (s +:+ "")), chars_app. simpl.
  rewrite app_nil_r. apply str_chars.
Qed.

Lemma textContent_cons piece pieces :
  textContent (piece :: pieces) = shownText piece +:+ textContent pieces.
Proof. done. Qed.

Lemma textContent_app pieces pieces' :
  textContent (pieces ++ pieces') = textContent pieces +:+ textContent pieces'.
Proof.
  induction pieces as [|piece pieces IH]; [done|].
  simpl. fold (textContent (pieces ++ pieces')). rewrite IH.
  fold (textContent pieces). by rewrite string_app_assoc.
Qed.

Lemma textContent_appendText plain : textContent (appendText plain) = Js.str plain.
Proof. destruct plain; [done|]. simpl. by rewrite string_app_nil_r. Qed.

Lemma replacement_match_at l r rest :
  Wikilink.replacement l = Some (r, rest) →
  ∃ link alias,
    Wikilink.match_at l = Some (link, alias, rest) ∧ r = default link alias.
Proof.
  unfold Wikilink.replacement.
  destruct (Wikilink.match_at l) as [[[link alias] rest']|]; [|done].
  intros [= <- <-]. eauto.
Qed.

Lemma linksFrom_nil plain : linksFrom plain (@nil ascii) = appendText plain.
Proof. done. Qed.

Lemma linksFrom_textContent plain l :
  textContent (linksFrom plain l) = Js.str (plain ++ strippedChars l).
Proof.
  revert plain.
  induction l as [|l r rest Hm IH|c l Hm IH]
    using (replace_all_ind _ replacement_shorter); intros plain.
  - rewrite linksFrom_nil, textContent_appendText.
    by rewrite (app_nil_r plain : plain ++ strippedChars [] = plain).
  - rewrite (stripped_match _ _ _ Hm).
    apply replacement_match_at in Hm as (link & alias & Hm & ->).
    rewrite (linksFrom_match _ _ _ _ _ Hm), textContent_app.
    rewrite textContent_appendText, textContent_cons, IH.
    by rewrite !str_app.
  - rewrite stripped_no_match by done.
    rewrite linksFrom_no_match by by apply match_at_None.
    rewrite IH. by rewrite <- (assoc (++)).
Qed.

Lemma linkTexts_app pieces pieces' :
  linkTexts (pieces ++ pieces') = linkTexts pieces ++ linkTexts pieces'.
Proof. unfold linkTexts. apply bind_app. Qed.

Lemma linkTexts_appendText plain : linkTexts (appendText plain) = [].
Proof. by destruct plain. Qed.

Lemma linksFrom_linkTexts plain l :
  linkTexts (linksFrom plain l)
  = Js.str <$> Js.all_matches Wikilink.replacement l.
Proof.
  revert plain.
  induction l as [|l r rest Hm IH|c l Hm IH]
    using (replace_all_ind _ replacement_shorter); intros plain.
  - by rewrite linksFrom_nil, linkTexts_appendText.
  - rewrite (all_matches_match _ replacement_shorter _ _ _ Hm).
    apply replacement_match_at in Hm as (link & alias & Hm & ->).
    rewrite (linksFrom_match _ _ _ _ _ Hm), linkTexts_app, linkTexts_appendText.
    csimpl. f_equal. apply (IH []).
  - rewrite all_matches_no_match by done.
    rewrite linksFrom_no_match by by apply match_at_None.
    apply IH.
Qed.

(** X3. What [renderTextWithLinks] puts into its container reads as the text
    with its wikilinks stripped: the text content of the children is
    [stripWikilinks(text)], and the link spans show, in order, the texts that
    [stripWikilinks] puts in the place of the references. *)
Theorem renderTextWithLinks_shows_stripped (text : string) :
  textContent (renderTextWithLinks text) = stripWikilinks text
  ∧ linkTexts (renderTextWithLinks text) = Js.str <$> displayedTexts text.
Proof.
  rewrite renderTextWithLinks_linksFrom. split.
  - apply linksFrom_textContent.
  - apply linksFrom_linkTexts.
Qed.

Lemma appendText_elem_of piece plain :
  piece ∈ appendText plain → piece = TextNode (Js.str plain) ∧ plain ≠ [].
Proof.
  destruct plain as [|c plain]; simpl.
  - by intros ?%elem_of_nil.
  - by intros ->%list_elem_of_singleton.
Qed.

Lemma str_nonempty l : l ≠ [] → Js.str l ≠ "".
Proof. by destruct l. Qed.

Lemma linksFrom_elem_of plain l piece :
  piece ∈ linksFrom plain l →
  match piece with
  | TextNode text => text ≠ ""
  | LinkSpan linkPath displayText =>
      linkPath ≠ "" ∧ ("]"%char ∉ Js.chars linkPath)
      ∧ displayText ≠ "" ∧ ("]"%char ∉ Js.chars displayText)
  end.
Proof.
  revert plain.
  induction l as [|l r rest Hm IH|c l Hm IH]
    using (replace_all_ind _ replacement_shorter); intros plain.
  - rewrite linksFrom_nil. intros [-> Hne]%appendText_elem_of.
    by apply str_nonempty.
  - pose proof (replacement_spec _ _ _ Hm) as (Hr & Hnot & _).
    apply replacement_match_at in Hm as (link & alias & Hm & ->).
    rewrite (linksFrom_match _ _ _ _ _ Hm).
    apply match_at_spec in Hm as (Hlink & Hlinknot & _ & _).
    rewrite elem_of_app, elem_of_cons.
    intros [[-> Hne]%appendText_elem_of|[->|Hin]].
    + by apply str_nonempty.
    + rewrite !chars_str. split_and!; [by apply str_nonempty|done| |done].
      by apply str_nonempty.
    + by apply (IH []).
  - rewrite linksFrom_no_match by by apply match_at_None.
    apply IH.
Qed.

Lemma linksFrom_not_adjacent plain l before text text' after :
  linksFrom plain l ≠ before ++ TextNode text :: TextNode text' :: after.
Proof.
  revert plain before.
  induction l as [|l r rest Hm IH|c l Hm IH]
    using (replace_all_ind _ replacement_shorter); intros plain before.
  - rewrite linksFrom_nil. intros Heq%(f_equal length).
    rewrite length_app in Heq. destruct plain; simpl in Heq; lia.
  - apply replacement_match_at in Hm as (link & alias & Hm & ->).
    rewrite (linksFrom_match _ _ _ _ _ Hm).
    specialize (IH []). remember (linksFrom [] rest) as pieces eqn:Hpieces.
    clear Hpieces.
    destruct plain as [|c plain]; simpl.
    + destruct before as [|piece before]; [done|].
      intros [= _ Heq]. by apply IH in Heq.
    + destruct before as [|piece [|piece' before]]; [done|done|].
      intros [= _ _ Heq]. by apply IH in Heq.
  - rewrite linksFrom_no_match by by apply match_at_None.
    apply IH.
Qed.

Lemma linksFrom_plain plain l :
  Js.all_matches Wikilink.replacement l = [] →
  linksFrom plain l = appendText (plain ++ l).
Proof.
  revert plain.
  induction l as [|l r rest Hm IH|c l Hm IH]
    using (replace_all_ind _ replacement_shorter); intros plain.
  - by rewrite linksFrom_nil, app_nil_r.
  - by rewrite (all_matches_match _ replacement_shorter _ _ _ Hm).
  - rewrite all_matches_no_match by done. intros Hnone.
    rewrite linksFrom_no_match by by apply match_at_None.
    rewrite IH by done. by rewrite <- (assoc (++)).
Qed.

(** X4. The children that [renderTextWithLinks] appends are well formed: no
    text node is empty and no two text nodes are neighbours; the path that a
    link span opens and the text that it shows are not empty and hold no
    closing bracket; and a text without a reference gives one text node with
    the whole text, the empty text none at all. *)
Theorem renderTextWithLinks_pieces (text : string) :
  let pieces := renderTextWithLinks text in
  (∀ t, TextNode t ∈ pieces → t ≠ "")
  ∧ (∀ linkPath displayText, LinkSpan linkPath displayText ∈ pieces →
       linkPath ≠ "" ∧ ("]"%char ∉ Js.chars linkPath)
       ∧ displayText ≠ "" ∧ ("]"%char ∉ Js.chars displayText))
  ∧ (∀ before t t' after,
       pieces ≠ before ++ TextNode t :: TextNode t' :: after)
  ∧ (displayedTexts text = [] →
       pieces = if decide (text = "") then [] else [TextNode text]).
Proof.
  intros pieces. unfold pieces. rewrite renderTextWithLinks_linksFrom.
  split_and!.
  - intros t Hin. by apply linksFrom_elem_of in Hin.
  - intros linkPath displayText Hin. by apply linksFrom_elem_of in Hin.
  - intros before t t' after. apply linksFrom_not_adjacent.
  - intros Hnone. rewrite linksFrom_plain by done. simpl.
    destruct text as [|c text]; [done|]. rewrite decide_False by done.
    simpl. by rewrite (str_chars text).
Qed.

(** ** What stripping removes *)

Lemma match_tail_exact l alias rest :
  Wikilink.match_tail l = Some (alias, rest) →
  l = from_option (λ a, "|"%char :: a) [] alias ++ "]"%char :: "]"%char :: rest.
Proof.
  unfold Wikilink.match_tail. destruct l as [|c l]; [done|].
  destruct (Ascii.eqb c "|") eqn:Hbar.
  - apply Ascii.eqb_eq in Hbar as ->.
    destruct (Wikilink.span_text l) as [run rest0] eqn:Hspan.
    apply span_text_spec in Hspan as (-> & _ & _).
    destruct run as [|a run]; [done|].
    destruct (Wikilink.after_pair "]" rest0) as [rest'|] eqn:Hclose; [|done].
    apply after_pair_spec in Hclose as ->. by intros [= <- <-].
  - destruct (Wikilink.after_pair "]" (c :: l)) as [rest'|] eqn:Hclose; [|done].
    apply after_pair_spec in Hclose. by intros [= <- <-].
Qed.

Lemma match_target_exact l link alias rest :
  Wikilink.match_target l = Some (link, alias, rest) →
  l = link ++ from_option (λ a, "|"%char :: a) [] alias
      ++ "]"%char :: "]"%char :: rest.
Proof.
  revert link. induction l as [|c l IH]; intros link; simpl; [done|].
  destruct (Ascii.eqb c "]"); [done|].
  destruct (Wikilink.match_tail l) as [[alias' rest']|] eqn:Htail.
  - intros [= <- <- <-]. by apply match_tail_exact in Htail as ->.
  - destruct (Wikilink.match_target l) as [[[link' alias'] rest']|] eqn:Hrec;
      [|done].
    intros [= <- <- <-]. by rewrite (IH _ eq_refl) at 1.
Qed.

(** A match is the text put in its place between at least four characters
    that are dropped. *)
Lemma replacement_exact l r rest :
  Wikilink.replacement l = Some (r, rest) →
  ∃ pre post, l = pre ++ r ++ post ++ rest
              ∧ (4 ≤ length pre + length post)%nat.
Proof.
  intros (link & alias & Hm & ->)%replacement_match_at.
  unfold Wikilink.match_at in Hm.
  destruct (Wikilink.after_pair "[" l) as [l'|] eqn:Hopen; [|done].
  apply after_pair_spec in Hopen as ->.
  apply match_target_exact in Hm as ->.
  destruct alias as [a|]; simpl.
  - exists ("["%char :: "["%char :: link ++ ["|"%char]), ["]"%char; "]"%char].
    split; [|simpl; lia]. simpl. by rewrite <- (assoc (++)).
  - exists ["["%char; "["%char], ["]"%char; "]"%char]. split; [done|simpl; lia].
Qed.

Lemma stripped_sublist l : strippedChars l `sublist_of` l.
Proof.
  induction l as [|l r rest Hm IH|c l Hm IH]
    using (replace_all_ind _ replacement_shorter).
  - done.
  - rewrite (stripped_match _ _ _ Hm).
    apply replacement_exact in Hm as (pre & post & -> & _).
    apply sublist_inserts_l, sublist_app; [done|].
    by apply sublist_inserts_l.
  - rewrite stripped_no_match by done. by constructor.
Qed.

Lemma stripped_length l :
  (length (strippedChars l) + 4 * length (Js.all_matches Wikilink.replacement l)
   ≤ length l)%nat.
Proof.
  induction l as [|l r rest Hm IH|c l Hm IH]
    using (replace_all_ind _ replacement_shorter).
  - done.
  - rewrite (stripped_match _ _ _ Hm).
    rewrite (all_matches_match _ replacement_shorter _ _ _ Hm).
    apply replacement_exact in Hm as (pre & post & -> & Hlen).
    rewrite !length_app, length_cons. lia.
  - rewrite stripped_no_match, all_matches_no_match by done.
    rewrite !length_cons. lia.
Qed.

Lemma all_matches_nil_fixed l :
  Js.all_matches Wikilink.replacement l = [] → strippedChars l = l.
Proof.
  induction l as [|l r rest Hm IH|c l Hm IH]
    using (replace_all_ind _ replacement_shorter).
  - done.
  - by rewrite (all_matches_match _ replacement_shorter _ _ _ Hm).
  - rewrite all_matches_no_match by done. intros Hnone.
    rewrite stripped_no_match by done. by rewrite IH.
Qed.

Lemma replacement_brackets l r rest :
  Wikilink.replacement l = Some (r, rest) → "["%char ∈ l ∧ "]"%char ∈ l.
Proof.
  intros (link & alias & Hm & _)%replacement_match_at.
  unfold Wikilink.match_at in Hm.
  destruct (Wikilink.after_pair "[" l) as [l'|] eqn:Hopen; [|done].
  apply after_pair_spec in Hopen as ->.
  apply match_target_exact in Hm as ->. split; [by left|].
  do 2 right. rewrite !elem_of_app. do 2 right. by left.
Qed.

Lemma all_matches_plain l :
  "["%char ∉ l ∨ "]"%char ∉ l → Js.all_matches Wikilink.replacement l = [].
Proof.
  induction l as [|c l IH]; [done|]. intros Hplain.
  rewrite all_matches_no_match.
  - apply IH. rewrite !not_elem_of_cons in Hplain. naive_solver.
  - destruct (Wikilink.replacement (c :: l)) as [[r rest]|] eqn:Hm; [|done].
    apply replacement_brackets in Hm. naive_solver.
Qed.

(** X5. [stripWikilinks] only deletes: its result is the input with some
    characters left out, in the same order, and for every reference of the
    input at least four characters are left out (the two pairs of brackets,
    and the target with the bar when there is an alias). *)
Theorem stripWikilinks_deletes_only (s : string) :
  Js.chars (stripWikilinks s) `sublist_of` Js.chars s
  ∧ (String.length (stripWikilinks s) + 4 * length (displayedTexts s)
     ≤ String.length s)%nat.
Proof.
  rewrite stripWikilinks_chars. split; [apply stripped_sublist|].
  unfold stripWikilinks, displayedTexts.
  rewrite str_length, <- (chars_length s). apply stripped_length.
Qed.

(** X6. [stripWikilinks] returns its input unchanged exactly when the input
    holds no reference; this is so for every text without an opening bracket
    and for every text without a closing bracket. *)
Theorem stripWikilinks_fixed_iff (s : string) :
  (stripWikilinks s = s ↔ displayedTexts s = [])
  ∧ ("["%char ∉ Js.chars s ∨ "]"%char ∉ Js.chars s → stripWikilinks s = s).
Proof.
  assert (Hfixed : displayedTexts s = [] → stripWikilinks s = s).
  { intros Hnone. unfold stripWikilinks.
    rewrite all_matches_nil_fixed by done. apply str_chars. }
  split; [split; [|done]|].
  - intros Heq. pose proof (stripped_length (Js.chars s)) as Hlen.
    rewrite <- stripWikilinks_chars, Heq in Hlen.
    unfold displayedTexts. destruct (Js.all_matches _ _); [done|].
    simpl in Hlen. lia.
  - intros Hplain. by apply Hfixed, all_matches_plain.
Qed.

(** ** Preview text *)

Lemma truncateToLines_length text lines :
  0 < lines →
  Z.of_nat (String.length (truncateToLines text lines)) ≤ lines * 80 + 3.
Proof.
  intros Hlines. unfold truncateToLines.
  set (joined := Js.join " " _).
  destruct (Z.gtb_spec (Z.of_nat (String.length joined)) (lines * 80))
    as [Hgt|Hle]; [|lia].
  rewrite string_app_length, str_length, slice_0_take by lia.
  pose proof (trim_length (take (Z.to_nat (lines * 80)) (Js.chars joined)))
    as Htrim.
  rewrite length_take in Htrim. simpl. lia.
Qed.

Lemma previewFromBases_subtitle entry lines property :
  previewFromBases entry lines property
  = (λ s, truncateToLines s lines) <$> subtitleFromBases entry property.
Proof.
  unfold previewFromBases, subtitleFromBases.
  destruct (getValue entry property) as [|value]; [done|].
  destruct (truthy value); [|done].
  by destruct (_ && _).
Qed.

Lemma previewFromFrontmatter_subtitle app entry lines property :
  previewFromFrontmatter app entry lines property
  = (λ s, truncateToLines s lines)
    <$> subtitleFromFrontmatter app entry property.
Proof.
  unfold previewFromFrontmatter, subtitleFromFrontmatter.
  destruct (Js.startsWith property "note."); [|done].
  destruct (frontmatterField _ _ _) as [value|]; [|done].
  by destruct (nullish value).
Qed.

(** X7. A configured preview property is resolved like a subtitle property:
    for every property other than the empty one and [file.folder], the
    preview is the subtitle text of the property cut by [truncateToLines],
    and there is no preview exactly when there is no subtitle.  The fields
    description, summary, excerpt and abstract are not looked at. *)
Theorem getPreview_as_subtitle (app : App) (entry : BasesEntry) (lines : Z)
    (property : string)
    (Hproperty : property ≠ "") (Hfolder : property ≠ "file.folder") :
  getPreview app entry lines (Some property)
  = (λ s, truncateToLines s lines) <$> getSubtitleText app entry property.
Proof.
  unfold getPreview, getSubtitleText, SUBTITLE_PARENT_FOLDER.
  rewrite (proj2 (truthy_string_spec property)) by done.
  rewrite bool_decide_eq_false_2 by done. simpl.
  rewrite previewFromBases_subtitle, previewFromFrontmatter_subtitle.
  by destruct (subtitleFromBases entry property).
Qed.

(** A note whose summary holds a link and a tag: the accessor throws, and
    the frontmatter answers. *)
Lemma getPreview_as_subtitle_witness :
  "note.summary" ≠ "" ∧ "note.summary" ≠ "file.folder"
  ∧ getPreview
      (Sample.host [("summary", VString "See <b>[[Plan|the plan]]</b>")] [])
      (Sample.entry Throws) 2 (Some "note.summary")
    = Some "See the plan".
Proof.
  assert (Hproperty : "note.summary" ≠ "") by discriminate.
  assert (Hfolder : "note.summary" ≠ "file.folder") by discriminate.
  split; [exact Hproperty|]. split; [exact Hfolder|].
  rewrite (getPreview_as_subtitle _ _ _ _ Hproperty Hfolder). reflexivity.
Defined.

Lemma previewFromFields_truncated fm fields lines s :
  previewFromFields fm fields lines = Some s →
  ∃ text, s = truncateToLines text lines.
Proof.
  induction fields as [|field fields IH]; simpl; [done|].
  destruct (truthy _); [|done]. intros [= <-]. eauto.
Qed.

Lemma getPreview_truncated app entry lines previewProperty s :
  getPreview app entry lines previewProperty = Some s →
  ∃ text, s = truncateToLines text lines.
Proof.
  assert (Hdefault : defaultPreview app entry lines = Some s →
                     ∃ text, s = truncateToLines text lines).
  { unfold defaultPreview. destruct (_ ≫= _) as [fm|]; [|done].
    apply previewFromFields_truncated. }
  unfold getPreview. destruct previewProperty as [property|]; [|done].
  destruct (Js.truthy_string property); [|done].
  rewrite previewFromBases_subtitle, previewFromFrontmatter_subtitle.
  destruct (subtitleFromBases entry property) as [t|]; simpl.
  - intros [= <-]. eauto.
  - destruct (subtitleFromFrontmatter app entry property) as [t|]; [|done].
    intros [= <-]. eauto.
Qed.

(** X8. The preview element of an item is made only for a positive number of
    preview lines, and its text is never empty, holds no markup tag, and has
    at most [previewLines * 80 + 3] characters, whatever the source of the
    preview is. *)
Theorem entryPreview_text (app : App) (entry : BasesEntry)
    (options : EntryOptions.t) (preview : string)
    (Hpreview : entryPreview app entry options = Some preview) :
  0 < EntryOptions.previewLines options
  ∧ preview ≠ ""
  ∧ tagFree (Js.chars preview)
  ∧ Z.of_nat (String.length preview)
    ≤ EntryOptions.previewLines options * 80 + 3.
Proof.
  unfold entryPreview in Hpreview.
  destruct (Z.ltb_spec 0 (EntryOptions.previewLines options)) as [Hlines|];
    [|done].
  destruct (getPreview _ _ _ _) as [s|] eqn:Hget; [|done].
  unfold Js.or_null in Hpreview.
  destruct (Js.truthy_string s) eqn:Hs; [|done].
  injection Hpreview as <-.
  apply getPreview_truncated in Hget as [text ->].
  split_and!; [done|by apply truthy_string_spec| |].
  - apply truncateToLines_tagFree.
  - by apply truncateToLines_length.
Qed.

(** An item whose summary holds markup and a blank line. *)
Lemma entryPreview_text_witness :
  entryPreview (Sample.host [("summary", VString Sample.preview)] [])
    (Sample.entry Throws) Gallery.options
  = Some "Hello world   second line"
  ∧ 0 < 2
  ∧ "Hello world   second line" ≠ ""
  ∧ tagFree (Js.chars "Hello world   second line")
  ∧ Z.of_nat (String.length "Hello world   second line") ≤ 2 * 80 + 3.
Proof.
  assert (Hpreview :
    entryPreview (Sample.host [("summary", VString Sample.preview)] [])
      (Sample.entry Throws) Gallery.options
    = Some "Hello world   second line") by reflexivity.
  split; [exact Hpreview|].
  exact (entryPreview_text _ _ _ _ Hpreview).
Defined.

(** ** The buckets of a relative date *)

(** The four counts of [formatRelativeDate] in terms of the age. *)
Lemma formatRelativeDate_counts diff :
  (diff `div` 1000) `div` 60 = diff `div` 60000
  ∧ ((diff `div` 1000) `div` 60) `div` 60 = diff `div` 3600000
  ∧ (((diff `div` 1000) `div` 60) `div` 60) `div` 24 = diff `div` 86400000
  ∧ ((((diff `div` 1000) `div` 60) `div` 60) `div` 24) `div` 7
    = diff `div` 604800000
  ∧ ((((diff `div` 1000) `div` 60) `div` 60) `div` 24) `div` 30
    = diff `div` 2592000000
  ∧ ((((diff `div` 1000) `div` 60) `div` 60) `div` 24) `div` 365
    = diff `div` 31536000000.
Proof. rewrite !Z.div_div by lia. done. Qed.

(** X9. The label of a timestamp that is not in the future, by the age in
    milliseconds: under a minute "Just now", under an hour the whole minutes,
    under a day the whole hours, from one day up to two "Yesterday", under
    seven days the whole days, under thirty days the whole weeks, under 365
    days the months of thirty days, and from then on the years of 365
    days. *)
Theorem formatRelativeDate_buckets (now timestamp : Z)
    (Hpast : timestamp ≤ now) :
  let age := now - timestamp in
  let minute := 60000 in
  let hour := 3600000 in
  let day := 86400000 in
  formatRelativeDate now timestamp
  = if age <? minute then "Just now"
    else if age <? hour then pretty (age `div` minute) +:+ "m ago"
    else if age <? day then pretty (age `div` hour) +:+ "h ago"
    else if age <? 2 * day then "Yesterday"
    else if age <? 7 * day then pretty (age `div` day) +:+ "d ago"
    else if age <? 30 * day then pretty (age `div` (7 * day)) +:+ "w ago"
    else if age <? 365 * day then pretty (age `div` (30 * day)) +:+ "mo ago"
    else pretty (age `div` (365 * day)) +:+ "y ago".
Proof.
  intros age minute hour day. unfold formatRelativeDate. fold age.
  destruct (formatRelativeDate_counts age)
    as (-> & -> & -> & -> & -> & ->).
  assert (Hage : 0 ≤ age) by (unfold age; lia).
  unfold minute, hour, day.
  change (2 * 86400000) with 172800000.
  change (7 * 86400000) with 604800000.
  change (30 * 86400000) with 2592000000.
  change (365 * 86400000) with 31536000000.
  repeat
    match goal with
    | |- context [?x =? ?y] => destruct (Z.eqb_spec x y)
    | |- context [?x <? ?y] => destruct (Z.ltb_spec x y)
    end;
    first [reflexivity | exfalso; Z.to_euclidean_division_equations; lia].
Qed.

(** A file changed ninety minutes ago. *)
Lemma formatRelativeDate_buckets_witness :
  1700000000000 - 90 * 60000 ≤ 1700000000000
  ∧ formatRelativeDate 1700000000000 (1700000000000 - 90 * 60000) = "1h ago".
Proof.
  assert (Hpast : 1700000000000 - 90 * 60000 ≤ 1700000000000) by (by vm_compute).
  split; [exact Hpast|].
  rewrite (formatRelativeDate_buckets _ _ Hpast). reflexivity.
Defined.

(** X10. A timestamp later than the clock gets a negative count of days: the
    label is this count followed by "d ago", and "-1d ago" for every
    timestamp up to one day ahead, one millisecond included. *)
Theorem formatRelativeDate_future (now timestamp : Z)
    (Hfuture : now < timestamp) :
  let days := (now - timestamp) `div` 86400000 in
  days < 0
  ∧ formatRelativeDate now timestamp = pretty days +:+ "d ago"
  ∧ (timestamp - now ≤ 86400000 →
     formatRelativeDate now timestamp = "-1d ago").
Proof.
  intros days.
  assert (Hdays : days < 0).
  { unfold days. Z.to_euclidean_division_equations. lia. }
  assert (Hlabel : formatRelativeDate now timestamp = pretty days +:+ "d ago").
  { unfold formatRelativeDate.
    destruct (formatRelativeDate_counts (now - timestamp))
      as (_ & _ & -> & _). fold days.
    destruct (Z.eqb_spec days 0); [lia|].
    destruct (Z.eqb_spec days 1); [lia|].
    destruct (Z.ltb_spec days 7); [done|lia]. }
  split_and!; [done|done|].
  intros Hnear. rewrite Hlabel.
  assert (days = -1) as ->; [|done].
  unfold days. Z.to_euclidean_division_equations. lia.
Qed.

(** A file with a modification time one second ahead of the clock. *)
Lemma formatRelativeDate_future_witness :
  1700000000000 < 1700000001000
  ∧ formatRelativeDate 1700000000000 1700000001000 = "-1d ago".
Proof.
  assert (Hfuture : 1700000000000 < 1700000001000) by reflexivity.
  split; [exact Hfuture|].
  apply (formatRelativeDate_future _ _ Hfuture). by vm_compute.
Defined.

(** ** Previews of plain text *)

Lemma tagFree_no_lt l : "<"%char ∉ l → tagFree l.
Proof.
  induction l as [|c l IH]; [done|].
  intros [Hc Hl]%not_elem_of_cons. apply tagFree_cons. split; [done|auto].
Qed.

Lemma split_lines_one_line l : "010"%char ∉ l → split_lines l = [l].
Proof.
  induction l as [|c l IH]; [done|].
  intros [Hc Hl]%not_elem_of_cons. simpl.
  rewrite (proj2 (Ascii.eqb_neq c "010")) by done.
  assert (starts_with_lf l = false) as ->.
  { destruct l as [|c' l]; [done|]. simpl.
    apply Ascii.eqb_neq. intros ->. apply Hl. by left. }
  rewrite andb_false_r. by rewrite IH.
Qed.

(** X11. A short plain text is its own preview: a text without an opening
    angle bracket and without a line feed, with no white space at its ends
    and with at most [lines * 80] characters, comes back from
    [truncateToLines] unchanged. *)
Theorem truncateToLines_plain (text : string) (lines : Z)
    (Hlines : 0 < lines)
    (Hmarkup : "<"%char ∉ Js.chars text)
    (Hline : "010"%char ∉ Js.chars text)
    (Htrimmed : Js.trim (Js.chars text) = Js.chars text)
    (Hshort : Z.of_nat (String.length text) ≤ lines * 80) :
  truncateToLines text lines = text.
Proof.
  unfold truncateToLines, stripHtml.
  rewrite matches_nowhere_fixed by by apply tagFree_no_lt.
  rewrite Htrimmed. unfold nonBlankLines.
  rewrite split_lines_one_line, slice_0_take by (done || lia).
  destruct (decide (Js.chars text = [])) as [Hnil|Hnil].
  - assert (text = "") as -> by (by destruct text).
    change (Js.chars "") with (@nil ascii).
    rewrite filter_cons_False by (intros Hne; by apply Hne).
    rewrite filter_nil, take_nil. simpl.
    by destruct (Z.gtb_spec (Z.of_nat 0) (lines * 80)); [lia|].
  - rewrite filter_cons_True by by rewrite Htrimmed.
    rewrite filter_nil.
    destruct (Z.to_nat lines) as [|n] eqn:Hn; [lia|].
    simpl. rewrite take_nil. simpl. rewrite str_chars.
    by destruct (Z.gtb_spec (Z.of_nat (String.length text)) (lines * 80));
      [lia|].
Qed.

Lemma truncateToLines_plain_witness :
  0 < 2
  ∧ ("<"%char ∉ Js.chars "Notes on a > b")
  ∧ ("010"%char ∉ Js.chars "Notes on a > b")
  ∧ Js.trim (Js.chars "Notes on a > b") = Js.chars "Notes on a > b"
  ∧ Z.of_nat (String.length "Notes on a > b") ≤ 2 * 80
  ∧ truncateToLines "Notes on a > b" 2 = "Notes on a > b".
Proof.
  assert (Hlines : 0 < 2) by reflexivity.
  assert (Hmarkup : "<"%char ∉ Js.chars "Notes on a > b").
  { intros Hin. simpl in Hin.
    repeat (apply elem_of_cons in Hin as [?|Hin]; [done|]).
    by apply elem_of_nil in Hin. }
  assert (Hline : "010"%char ∉ Js.chars "Notes on a > b").
  { intros Hin. simpl in Hin.
    repeat (apply elem_of_cons in Hin as [?|Hin]; [done|]).
    by apply elem_of_nil in Hin. }
  assert (Htrimmed : Js.trim (Js.chars "Notes on a > b")
                     = Js.chars "Notes on a > b") by reflexivity.
  assert (Hshort : Z.of_nat (String.length "Notes on a > b") ≤ 2 * 80)
    by (by vm_compute).
  split; [exact Hlines|]. split; [exact Hmarkup|]. split; [exact Hline|].
  split; [exact Htrimmed|]. split; [exact Hshort|].
  exact (truncateToLines_plain _ _ Hlines Hmarkup Hline Htrimmed Hshort).
Defined.

(** X12. Without lines there is no preview text: for zero lines
    [truncateToLines] returns the empty string, whatever the text is; for a
    negative number of lines the length test always holds and the result
    ends with the ellipsis. *)
Theorem truncateToLines_no_lines (text : string) (lines : Z)
    (Hlines : lines ≤ 0) :
  if decide (lines = 0) then truncateToLines text lines = ""
  else ∃ cut, truncateToLines text lines = cut +:+ "...".
Proof.
  unfold truncateToLines. case_decide as Hzero.
  - subst lines. by rewrite slice_0_take, take_0 by lia.
  - set (truncated := Js.join " " _).
    destruct (Z.gtb_spec (Z.of_nat (String.length truncated)) (lines * 80));
      [eauto|lia].
Qed.

Lemma truncateToLines_no_lines_witness :
  0 ≤ 0 ∧ truncateToLines Sample.preview 0 = "".
Proof.
  assert (Hlines : 0 ≤ 0) by reflexivity.
  split; [exact Hlines|].
  exact (truncateToLines_no_lines Sample.preview 0 Hlines).
Defined.

Lemma split_lines_no_lf l line :
  line ∈ split_lines l → "010"%char ∉ line.
Proof.
  revert line. induction l as [|c l IH]; intros line; simpl.
  - intros ->%list_elem_of_singleton. apply not_elem_of_nil.
  - destruct (Ascii.eqb c "010") eqn:Hc.
    { intros [->|Hin]%elem_of_cons; [apply not_elem_of_nil|by apply IH]. }
    apply Ascii.eqb_neq in Hc.
    destruct (Ascii.eqb c "013" && starts_with_lf l); [apply IH|].
    destruct (split_lines l) as [|line' more].
    + intros ->%list_elem_of_singleton.
      apply not_elem_of_cons. split; [done|apply not_elem_of_nil].
    + intros [->|Hin]%elem_of_cons.
      * apply not_elem_of_cons. split; [done|]. apply IH. by left.
      * apply IH. by right.
Qed.

Lemma join_elem_of c (ls : list (list ascii)) :
  c ∈ Js.chars (Js.join " " (Js.str <$> ls)) →
  c = " "%char ∨ ∃ line, line ∈ ls ∧ c ∈ line.
Proof.
  induction ls as [|line ls IH]; [by intros ?%elem_of_nil|].
  destruct ls as [|line' ls].
  - simpl. rewrite chars_str. intros Hin. right. exists line.
    split; [by left|done].
  - change (Js.join " " (Js.str <$> line :: line' :: ls))
      with (Js.str line +:+ " " +:+ Js.join " " (Js.str <$> line' :: ls)).
    rewrite !chars_app, chars_str, !elem_of_app.
    intros [Hin|[Hin|Hin]].
    + right. exists line. split; [by left|done].
    + left. by apply list_elem_of_singleton in Hin.
    + destruct (IH Hin) as [->|(line0 & Hline0 & Hc)]; [by left|].
      right. exists line0. split; [by right|done].
Qed.

(** X13. The text that [truncateToLines] returns is a single line: it holds
    no line feed, for every text and every number of lines. *)
Theorem truncateToLines_single_line (text : string) (lines : Z) :
  "010"%char ∉ Js.chars (truncateToLines text lines).
Proof.
  unfold truncateToLines.
  set (kept := Js.slice 0 lines _).
  assert (Hjoined : "010"%char ∉ Js.chars (Js.join " " (Js.str <$> kept))).
  { intros [?|(line & Hline & Hc)]%join_elem_of; [done|].
    assert (Hin : line ∈ nonBlankLines
                           (Js.trim (stripHtml (Js.chars text)))).
    { eapply elem_of_sublist; [exact Hline|apply slice_sublist]. }
    apply list_elem_of_filter in Hin as [_ Hin].
    by apply split_lines_no_lf in Hin. }
  destruct (_ >? _); [|done].
  rewrite chars_app, chars_str, elem_of_app. intros [Hin|Hin].
  - apply Hjoined. eapply elem_of_sublist; [exact Hin|].
    etrans; [apply trim_sublist|apply slice_sublist].
  - simpl in Hin. repeat (apply elem_of_cons in Hin as [?|Hin]; [done|]).
    by apply elem_of_nil in Hin.
Qed.

(** ** The entries in view *)

Lemma filter_filter_key (key : BasesEntry → string) (k k' : string)
    (entries : list BasesEntry) :
  k' ≠ k →
  filter (λ entry, key entry = k') (filter (λ entry, key entry ≠ k) entries)
  = filter (λ entry, key entry = k') entries.
Proof.
  intros Hne. rewrite list_filter_filter. apply list_filter_iff.
  intros entry. naive_solver.
Qed.

(** The buckets of the keys [keys], each shown in part, hold together the
    entries that are shown. *)
Lemma concat_buckets (key : BasesEntry → string)
    (shown : string → BasesEntry → bool)
    (body : string → list BasesEntry → list BasesEntry) :
  (∀ k bucket, body k bucket ≡ₚ filter (λ entry, shown k entry = true) bucket) →
  ∀ (keys : list string) (entries : list BasesEntry),
    NoDup keys → (∀ entry, entry ∈ entries → key entry ∈ keys) →
    concat ((λ k, body k (filter (λ entry, key entry = k) entries)) <$> keys)
    ≡ₚ filter (λ entry, shown (key entry) entry = true) entries.
Proof.
  intros Hbody keys.
  induction keys as [|k keys IH]; intros entries Hnd Hkeys.
  - destruct entries as [|entry entries]; [done|].
    exfalso. eapply not_elem_of_nil, (Hkeys entry). by left.
  - apply NoDup_cons in Hnd as [Hk Hnd]. csimpl.
    trans (filter (λ entry, shown (key entry) entry = true)
             (filter (λ entry, key entry = k) entries
              ++ filter (λ entry, key entry ≠ k) entries));
      [|by rewrite (filter_app_complement (λ entry, key entry = k) entries)].
    rewrite filter_app. f_equiv.
    + rewrite Hbody, !list_filter_filter. apply reflexive_eq.
      apply list_filter_iff. intros entry. naive_solver.
    + rewrite <- (IH (filter (λ entry, key entry ≠ k) entries)); [|done|].
      * apply reflexive_eq. f_equal. apply list_fmap_ext.
        intros _ k' Hk'%list_elem_of_lookup_2.
        rewrite filter_filter_key; [done|]. by intros ->.
      * intros entry [Hne Hin]%list_elem_of_filter.
        apply Hkeys, elem_of_cons in Hin as [?|?]; done.
Qed.

Lemma concat_groups (app : App) (propertyId : string)
    (shown : string → BasesEntry → bool)
    (body : string → list BasesEntry → list BasesEntry)
    (entries : list BasesEntry) :
  (∀ k bucket, body k bucket ≡ₚ filter (λ entry, shown k entry = true) bucket) →
  concat ((λ group, body group.1 group.2)
            <$> groupEntriesByProperty app entries propertyId)
  ≡ₚ filter (λ entry,
       shown (getPropertyValueAsString app entry propertyId) entry = true)
       entries.
Proof.
  intros Hbody. rewrite groupEntriesByProperty_spec. unfold groupBySpec.
  rewrite <- list_fmap_compose.
  apply (concat_buckets _ shown body Hbody).
  - apply firstSeenOrder_NoDup.
  - intros entry Hin. apply firstSeenOrder_elem_of.
    by apply (list_elem_of_fmap_2
                (λ entry, getPropertyValueAsString app entry propertyId)).
Qed.

Lemma filter_bool_const {A} (b : bool) (l : list A) :
  filter (λ _, b = true) l = if b then l else [].
Proof.
  induction l as [|x l IH]; [by destruct b|].
  destruct b.
  - by rewrite filter_cons_True, IH.
  - by rewrite filter_cons_False, IH.
Qed.

Lemma renderedEntries_customGroup st nativeKey groupKey entries levelOffset
    options :
  renderedEntries
    (renderCustomGroup st nativeKey groupKey entries levelOffset options)
  = filter (λ _, bool_decide (collapseKey nativeKey groupKey
                              ∉ collapsedSetOf (levels !! levelOffset) st)
                 = true) entries.
Proof.
  rewrite renderCustomGroup_header, filter_bool_const. simpl.
  case_bool_decide as Hin.
  - by rewrite bool_decide_eq_false_2 by auto.
  - rewrite bool_decide_eq_true_2 by done. simpl. apply app_nil_r.
Qed.

Lemma renderedEntries_subGroup st nativeKey groupKey subLevel options
    subGroupKey subEntries :
  renderedEntries
    (renderSubGroup st nativeKey groupKey subLevel options
       (subGroupKey, subEntries))
  = filter (λ _, bool_decide (compoundKey nativeKey groupKey subGroupKey
                              ∉ collapsedSubGroups st) = true) subEntries.
Proof.
  rewrite renderSubGroup_header, filter_bool_const. simpl.
  case_bool_decide as Hin.
  - by rewrite bool_decide_eq_false_2 by auto.
  - rewrite bool_decide_eq_true_2 by done. simpl. apply app_nil_r.
Qed.

Lemma renderedEntries_group level header isCollapsed children :
  renderedEntries (GroupEl level header isCollapsed children)
  = concat (renderedEntries <$> children).
Proof. done. Qed.

Lemma renderedEntries_groupWithSubGroups app st nativeKey groupKey entries
    subGroupProperty levelOffset options :
  renderedEntries
    (renderGroupWithSubGroups app st nativeKey groupKey entries
       subGroupProperty levelOffset options)
  ≡ₚ filter (λ entry,
       bool_decide (collapseKey nativeKey groupKey
                    ∉ collapsedSetOf (levels !! levelOffset) st)
       && bool_decide
            (compoundKey nativeKey groupKey
               (getPropertyValueAsString app entry subGroupProperty)
             ∉ collapsedSubGroups st) = true) entries.
Proof.
  rewrite renderGroupWithSubGroups_header. cbv zeta.
  rewrite renderedEntries_group.
  case_bool_decide as Hin.
  - rewrite bool_decide_eq_false_2 by auto. simpl.
    by rewrite (filter_bool_const false).
  - rewrite bool_decide_eq_true_2 by done.
    set (shown := λ (k : string) (_ : BasesEntry),
           bool_decide (compoundKey nativeKey groupKey k
                        ∉ collapsedSubGroups st)).
    set (body := λ k bucket,
           renderedEntries
             (renderSubGroup st nativeKey groupKey
                (levels !! (levelOffset + 1)%nat) options (k, bucket))).
    trans (concat ((λ group, body group.1 group.2)
                     <$> groupEntriesByProperty app entries subGroupProperty)).
    { apply reflexive_eq. f_equal. rewrite <- list_fmap_compose.
      apply list_fmap_ext. by intros _ [k bucket] _. }
    refine (concat_groups app subGroupProperty shown body entries _).
    intros k bucket. unfold body. by rewrite renderedEntries_subGroup.
Qed.

Lemma renderPluginGroups_shown app st nativeKey entries groupByProperty
    subGroupByProperty levelOffset options :
  concat (renderedEntries
            <$> renderPluginGroups app st nativeKey entries groupByProperty
                  subGroupByProperty levelOffset options)
  ≡ₚ filter (λ entry,
       shownByPlugin app st nativeKey groupByProperty subGroupByProperty
         levelOffset entry = true) entries.
Proof.
  assert (Hone : ∀ property,
    concat (renderedEntries
              <$> ((λ '(groupKey, groupEntries),
                      renderCustomGroup st nativeKey groupKey groupEntries
                        levelOffset options)
                     <$> groupEntriesByProperty app entries property))
    ≡ₚ filter (λ entry,
         bool_decide
           (collapseKey nativeKey
              (getPropertyValueAsString app entry property)
            ∉ collapsedSetOf (levels !! levelOffset) st) = true) entries).
  { intros property.
    set (shown := λ (k : string) (_ : BasesEntry),
           bool_decide (collapseKey nativeKey k
                        ∉ collapsedSetOf (levels !! levelOffset) st)).
    set (body := λ k bucket,
           renderedEntries
             (renderCustomGroup st nativeKey k bucket levelOffset options)).
    trans (concat ((λ group, body group.1 group.2)
                     <$> groupEntriesByProperty app entries property)).
    { apply reflexive_eq. f_equal. rewrite <- list_fmap_compose.
      apply list_fmap_ext. by intros _ [k bucket] _. }
    refine (concat_groups app property shown body entries _).
    intros k bucket. unfold body. by rewrite renderedEntries_customGroup. }
  unfold renderPluginGroups, shownByPlugin.
  destruct groupByProperty as [groupBy|], subGroupByProperty as [subGroupBy|].
  - set (shown := λ (k : string) (entry : BasesEntry),
           bool_decide (collapseKey nativeKey k
                        ∉ collapsedSetOf (levels !! levelOffset) st)
           && bool_decide
                (compoundKey nativeKey k
                   (getPropertyValueAsString app entry subGroupBy)
                 ∉ collapsedSubGroups st)).
    set (body := λ k bucket,
           renderedEntries
             (renderGroupWithSubGroups app st nativeKey k bucket subGroupBy
                levelOffset options)).
    trans (concat ((λ group, body group.1 group.2)
                     <$> groupEntriesByProperty app entries groupBy)).
    { apply reflexive_eq. f_equal. rewrite <- list_fmap_compose.
      apply list_fmap_ext. by intros _ [k bucket] _. }
    refine (concat_groups app groupBy shown body entries _).
    intros k bucket. apply renderedEntries_groupWithSubGroups.
  - apply Hone.
  - apply Hone.
  - simpl. by rewrite app_nil_r, (filter_bool_const true).
Qed.

Lemma renderNativeGroup_shown app st groupByProperty subGroupByProperty
    levelOffset options nativeGroup :
  concat (renderedEntries
            <$> renderNativeGroup app st groupByProperty subGroupByProperty
                  levelOffset options nativeGroup)
  ≡ₚ filter (λ entry,
       shownEntry app st groupByProperty subGroupByProperty levelOffset
         nativeGroup entry = true) (BasesEntryGroup.entries nativeGroup).
Proof.
  unfold renderNativeGroup, shownEntry.
  destruct (BasesEntryGroup.hasKey nativeGroup); simpl.
  - destruct (isNativeCollapsed st nativeGroup); simpl.
    + by rewrite (filter_bool_const false).
    + rewrite app_nil_r. apply renderPluginGroups_shown.
  - apply renderPluginGroups_shown.
Qed.


Lemma shownEntry_none_collapsed app groupByProperty subGroupByProperty
    levelOffset nativeGroup entry :
  shownEntry app {| collapsedGroups := ∅; collapsedSubGroups := ∅ |}
    groupByProperty subGroupByProperty levelOffset nativeGroup entry = true.
Proof.
  unfold shownEntry, isNativeCollapsed, shownByPlugin, collapsedSetOf. simpl.
  rewrite (bool_decide_eq_false_2 (_ ∈ ∅)) by set_solver.
  rewrite andb_false_r. simpl.
  destruct groupByProperty, subGroupByProperty,
    (isSubLevel (levels !! levelOffset)); simpl;
    rewrite ?andb_true_iff, ?bool_decide_eq_true; set_solver.
Qed.

Lemma onDataUpdated_among app st groupedData groupByProperty
    subGroupByProperty options :
  concat (renderedEntries
            <$> onDataUpdated app st groupedData groupByProperty
                  subGroupByProperty options)
  ⊆+ concat (BasesEntryGroup.entries <$> groupedData).
Proof.
  unfold onDataUpdated.
  generalize (levelOffsetOf (existsb BasesEntryGroup.hasKey groupedData)).
  intros levelOffset.
  induction groupedData as [|nativeGroup groupedData IH]; [done|].
  csimpl. rewrite fmap_app, concat_app. apply submseteq_app; [|done].
  rewrite renderNativeGroup_shown.
  apply sublist_submseteq, sublist_filter.
Qed.

Lemma onDataUpdated_none_collapsed app groupedData groupByProperty
    subGroupByProperty options :
  concat (renderedEntries
            <$> onDataUpdated app
                  {| collapsedGroups := ∅; collapsedSubGroups := ∅ |}
                  groupedData groupByProperty subGroupByProperty options)
  ≡ₚ concat (BasesEntryGroup.entries <$> groupedData).
Proof.
  unfold onDataUpdated.
  generalize (levelOffsetOf (existsb BasesEntryGroup.hasKey groupedData)).
  intros levelOffset.
  induction groupedData as [|nativeGroup groupedData IH]; [done|].
  csimpl. rewrite fmap_app, concat_app. f_equiv; [|done].
  rewrite renderNativeGroup_shown. apply reflexive_eq.
  rewrite <- (filter_bool_const true (BasesEntryGroup.entries nativeGroup))
    at 2.
  apply list_filter_iff. intros entry.
  by rewrite shownEntry_none_collapsed.
Qed.


(** ** The header of a native group, in general *)

Lemma stripWikilinks_plain s :
  "["%char ∉ Js.chars s ∨ "]"%char ∉ Js.chars s → stripWikilinks s = s.
Proof.
  intros Hplain. unfold stripWikilinks.
  rewrite all_matches_nil_fixed by by apply all_matches_plain.
  apply str_chars.
Qed.

Lemma onClick_native st nativeGroup options :
  onClick (renderNativeGroupHeader st nativeGroup options) st
  = let title :=
      stripWikilinks
        (default "" (optionalToString (BasesEntryGroup.key nativeGroup))) in
    {| collapsedGroups :=
         if isNativeCollapsed st nativeGroup
         then collapsedGroups st ∖ {[title]}
         else collapsedGroups st ∪ {[title]};
       collapsedSubGroups := collapsedSubGroups st |}.
Proof. done. Qed.

(** X16. The header of a native group toggles the collapse of its group
    exactly when stripping the wikilinks leaves the text of the group key as
    it is, "__ungrouped__" standing for a key that is null: then a click is
    the toggle of the native key among the collapsed groups and a second
    click undoes the first.  This is so for every key that is present and
    holds no opening or no closing bracket; it is not so for a group whose
    key is null, which is looked up as "__ungrouped__" and toggled as the
    empty string. *)
Theorem native_group_toggle_iff (nativeGroup : BasesEntryGroup.t)
    (options : RenderOptions) :
  let header st := renderNativeGroupHeader st nativeGroup options in
  let keyText :=
    default "" (optionalToString (BasesEntryGroup.key nativeGroup)) in
  let nativeKey := nativeKeyOf nativeGroup in
  ((∀ st, onClick (header st) st = toggle nativeKey (Some primary) st)
   ↔ stripWikilinks keyText = nativeKey)
  ∧ (stripWikilinks keyText = nativeKey →
     ∀ st, let st1 := onClick (header st) st in
           onClick (header st1) st1 = st)
  ∧ (BasesEntryGroup.hasKey nativeGroup = true →
     ∀ value,
       BasesEntryGroup.key nativeGroup = Some value → nullish value = false →
       "["%char ∉ Js.chars (to_string value)
       ∨ "]"%char ∉ Js.chars (to_string value) →
       stripWikilinks keyText = nativeKey)
  ∧ (BasesEntryGroup.hasKey nativeGroup = true →
     optionalToString (BasesEntryGroup.key nativeGroup) = None →
     nativeKey = "__ungrouped__" ∧ ∀ st, clickKey (header st) = "").
Proof.
  intros header keyText nativeKey.
  assert (Hflip : stripWikilinks keyText = nativeKey →
            ∀ st, onClick (header st) st = toggle nativeKey (Some primary) st).
  { intros Htitle st. unfold header. rewrite onClick_native. cbv zeta.
    fold keyText. rewrite Htitle. unfold toggle, isNativeCollapsed. simpl.
    fold nativeKey. f_equal. case_bool_decide; by case_decide. }
  split_and!.
  - split; [|done]. intros Hclick.
    specialize (Hclick {| collapsedGroups := ∅; collapsedSubGroups := ∅ |}).
    unfold header in Hclick. rewrite onClick_native in Hclick.
    unfold toggle, isNativeCollapsed in Hclick. simpl in Hclick.
    rewrite (bool_decide_eq_false_2 (_ ∈ ∅)) in Hclick by set_solver.
    rewrite decide_False in Hclick by set_solver.
    apply (f_equal collapsedGroups) in Hclick. simpl in Hclick.
    fold keyText in Hclick.
    assert (Hin : stripWikilinks keyText ∈ (∅ ∪ {[nativeKey]} : gset string))
      by (rewrite <- Hclick; set_solver).
    set_solver.
  - intros Htitle st st1. unfold st1. rewrite !Hflip by done.
    apply toggle_twice.
  - intros HhasKey value Hkey Hnull Hplain.
    unfold keyText, nativeKey, nativeKeyOf, optionalToString.
    rewrite HhasKey, Hkey, Hnull. simpl. by apply stripWikilinks_plain.
  - intros HhasKey Hnone. split.
    + unfold nativeKey, nativeKeyOf. by rewrite HhasKey, Hnone.
    + intros st. unfold header, renderNativeGroupHeader. simpl.
      by rewrite Hnone.
Qed.

(** ** Composite keys are distinct *)

Lemma app_cons_inj {A} (c : A) (u u' v v' : list A) :
  c ∉ u → c ∉ u' → u ++ c :: v = u' ++ c :: v' → u = u' ∧ v = v'.
Proof.
  revert u'. induction u as [|a u IH]; intros [|a' u'] Hu Hu'; simpl.
  - by intros [= ->].
  - intros [= -> _]. exfalso. apply Hu'. by left.
  - intros [= -> _]. exfalso. apply Hu. by left.
  - apply not_elem_of_cons in Hu as [_ Hu].
    apply not_elem_of_cons in Hu' as [_ Hu'].
    intros [= -> Heq]. by destruct (IH _ Hu Hu' Heq) as [-> ->].
Qed.

Lemma chars_inj s t : Js.chars s = Js.chars t → s = t.
Proof. intros Heq. by rewrite <- (str_chars s), Heq, str_chars. Qed.

Lemma string_app_inv_head s t t' : s +:+ t = s +:+ t' → t = t'.
Proof.
  intros Heq%(f_equal Js.chars). rewrite !chars_app in Heq.
  by apply app_inv_head, chars_inj in Heq.
Qed.

Lemma collapseKey_inj nativeKey groupKey groupKey' :
  collapseKey nativeKey groupKey = collapseKey nativeKey groupKey' →
  groupKey = groupKey'.
Proof.
  unfold collapseKey. destruct (Js.truthy_string nativeKey); [|done].
  by intros ?%string_app_inv_head%string_app_inv_head.
Qed.

Lemma collapseKey_chars nativeKey groupKey :
  Js.chars (collapseKey nativeKey groupKey)
  = if Js.truthy_string nativeKey
    then Js.chars nativeKey ++ ":"%char :: ":"%char :: Js.chars groupKey
    else Js.chars groupKey.
Proof.
  unfold collapseKey. destruct (Js.truthy_string nativeKey); [|done].
  by rewrite !chars_app.
Qed.

Lemma compoundKey_chars nativeKey groupKey subGroupKey :
  Js.chars (compoundKey nativeKey groupKey subGroupKey)
  = if Js.truthy_string nativeKey
    then Js.chars nativeKey
         ++ ":"%char :: ":"%char
            :: Js.chars groupKey ++ ":"%char :: ":"%char :: Js.chars subGroupKey
    else Js.chars groupKey ++ ":"%char :: Js.chars subGroupKey.
Proof.
  unfold compoundKey. destruct (Js.truthy_string nativeKey);
    by rewrite !chars_app.
Qed.

(** X17. Composite collapse keys tell the groups apart as long as the keys
    that go into them hold no colon: for group keys and native keys without
    a colon, native keys both present or both absent, two sub-groups have the
    same key only if their native group, group and sub-group are the same,
    two groups only if their native group and group are the same, and the
    key of a group is never the key of a sub-group.  With a colon in a group
    key two different groups can share a key. *)
Theorem composite_keys_distinct (nativeKey nativeKey' groupKey groupKey'
      subGroupKey subGroupKey' : string)
    (Hnative : ":"%char ∉ Js.chars nativeKey)
    (Hnative' : ":"%char ∉ Js.chars nativeKey')
    (Hpresent : nativeKey = "" ↔ nativeKey' = "")
    (Hgroup : ":"%char ∉ Js.chars groupKey)
    (Hgroup' : ":"%char ∉ Js.chars groupKey') :
  (compoundKey nativeKey groupKey subGroupKey
   = compoundKey nativeKey' groupKey' subGroupKey' →
   nativeKey = nativeKey' ∧ groupKey = groupKey' ∧ subGroupKey = subGroupKey')
  ∧ (collapseKey nativeKey groupKey = collapseKey nativeKey' groupKey' →
     nativeKey = nativeKey' ∧ groupKey = groupKey')
  ∧ collapseKey nativeKey groupKey
    ≠ compoundKey nativeKey' groupKey' subGroupKey'
  ∧ compoundKey "" "a" "b:c" = compoundKey "" "a:b" "c"
  ∧ collapseKey "N" "a::b" = compoundKey "N" "a" "b".
Proof.
  assert (Htruthy : Js.truthy_string nativeKey = Js.truthy_string nativeKey').
  { destruct nativeKey, nativeKey'; simpl; try done; naive_solver. }
  split_and!; [| | |done|done].
  - intros Heq%(f_equal Js.chars). rewrite !compoundKey_chars in Heq.
    rewrite <- Htruthy in Heq.
    destruct (Js.truthy_string nativeKey) eqn:Hn.
    + apply app_cons_inj in Heq as [Hnk [= Heq]]; [|done..].
      apply app_cons_inj in Heq as [Hgk [= Hsk]]; [|done..].
      by apply chars_inj in Hnk, Hgk, Hsk.
    + apply truthy_string_false in Hn as ->.
      assert (nativeKey' = "") as -> by by apply Hpresent.
      apply app_cons_inj in Heq as [Hgk Hsk]; [|done..].
      by apply chars_inj in Hgk, Hsk.
  - intros Heq%(f_equal Js.chars). rewrite !collapseKey_chars in Heq.
    rewrite <- Htruthy in Heq.
    destruct (Js.truthy_string nativeKey) eqn:Hn.
    + apply app_cons_inj in Heq as [Hnk [= Hgk]]; [|done..].
      by apply chars_inj in Hnk, Hgk.
    + apply truthy_string_false in Hn as ->.
      assert (nativeKey' = "") as -> by by apply Hpresent.
      by apply chars_inj in Heq.
  - intros Heq%(f_equal Js.chars).
    rewrite collapseKey_chars, compoundKey_chars in Heq.
    rewrite <- Htruthy in Heq.
    destruct (Js.truthy_string nativeKey) eqn:Hn.
    + apply app_cons_inj in Heq as [_ [= Heq]]; [|done..].
      apply Hgroup. rewrite Heq, elem_of_app. right. by left.
    + apply Hgroup. rewrite Heq, elem_of_app. right. by left.
Qed.

(** Two groups of a native group "Work". *)
Lemma composite_keys_distinct_witness :
  compoundKey "Work" "done" "2024" ≠ compoundKey "Work" "todo" "2024"
  ∧ collapseKey "Work" "done" ≠ compoundKey "Work" "todo" "2024".
Proof.
  assert (Hnone : ∀ s : string,
            bool_decide (":"%char ∈ Js.chars s) = false →
            ":"%char ∉ Js.chars s).
  { intros s Hs. by apply bool_decide_eq_false in Hs. }
  assert (Hnative : ":"%char ∉ Js.chars "Work") by by apply Hnone.
  assert (Hpresent : "Work" = "" ↔ "Work" = "") by done.
  assert (Hdone : ":"%char ∉ Js.chars "done") by by apply Hnone.
  assert (Htodo : ":"%char ∉ Js.chars "todo") by by apply Hnone.
  destruct (composite_keys_distinct "Work" "Work" "done" "todo" "2024" "2024"
              Hnative Hnative Hpresent Hdone Htodo)
    as (Hsub & _ & Hgroup & _).
  split; [|exact Hgroup].
  intros Heq. by destruct (Hsub Heq) as (_ & ? & _).
Defined.

(** ** Group keys are never empty *)

Lemma valueToGroupString_not_empty value : valueToGroupString value ≠ "".
Proof.
  assert (Hobj : ∀ value, typeof value = TypeObject → nullish value = false →
            valueToGroupString value ≠ "").
  { intros v Hty Hnull. rewrite valueToGroupString_object by done. simpl.
    destruct (Js.truthy_string (to_string v)) eqn:Hstr; simpl; [|done].
    repeat case_bool_decide; simpl; try done.
    apply stripWikilinks_nonempty. by apply truthy_string_spec. }
  destruct value as [| |s|n|[]|items|str]; try done.
  - simpl. unfold Js.or_else.
    destruct (Js.truthy_string (stripWikilinks s)) eqn:Hs; [|done].
    by apply truthy_string_spec.
  - apply number_to_string_nonempty.
  - by apply Hobj.
  - by apply Hobj.
Qed.

Lemma getPropertyValueAsString_not_empty app entry propertyId :
  getPropertyValueAsString app entry propertyId ≠ "".
Proof.
  unfold getPropertyValueAsString, groupValueFromBases,
    groupValueFromFrontmatter.
  destruct (getValue entry propertyId) as [|value].
  - destruct (Js.startsWith propertyId "note.").
    + destruct (frontmatterField _ _ _) as [value|]; simpl.
      * apply valueToGroupString_not_empty.
      * case_bool_decide; [|done]. unfold Js.or_else.
        by destruct (parentName entry).
    + case_bool_decide; [|done]. unfold Js.or_else.
      by destruct (parentName entry).
  - destruct (truthy value); [apply valueToGroupString_not_empty|].
    destruct (Js.startsWith propertyId "note.").
    + destruct (frontmatterField _ _ _) as [value'|]; simpl.
      * apply valueToGroupString_not_empty.
      * case_bool_decide; [|done]. unfold Js.or_else.
        by destruct (parentName entry).
    + case_bool_decide; [|done]. unfold Js.or_else.
      by destruct (parentName entry).
Qed.

(** X18. A group key is never the empty string: whatever the accessor, the
    frontmatter and the folder of an entry give, [getPropertyValueAsString]
    returns a text with at least one character.  So every group that
    [groupEntriesByProperty] makes has a key that is not empty, and neither
    the title of its header nor its composite collapse key is empty. *)
Theorem group_keys_not_empty (app : App) (entries : list BasesEntry)
    (propertyId : string) :
  (∀ entry, getPropertyValueAsString app entry propertyId ≠ "")
  ∧ (∀ groupKey bucket,
       (groupKey, bucket) ∈ groupEntriesByProperty app entries propertyId →
       groupKey ≠ ""
       ∧ ∀ st nativeKey levelOffset options,
           (titleText <$> headerOf
              (renderCustomGroup st nativeKey groupKey bucket levelOffset
                 options)) ≠ Some ""
           ∧ collapseKey nativeKey groupKey ≠ "").
Proof.
  split; [intros entry; apply getPropertyValueAsString_not_empty|].
  intros groupKey bucket Hin.
  assert (Hkey : groupKey ≠ "").
  { rewrite groupEntriesByProperty_spec in Hin. unfold groupBySpec in Hin.
    apply list_elem_of_fmap in Hin as (k & [= -> ->] & Hk).
    apply firstSeenOrder_elem_of, list_elem_of_fmap in Hk as (entry & -> & _).
    apply getPropertyValueAsString_not_empty. }
  split; [done|]. intros st nativeKey levelOffset options. split.
  - rewrite renderCustomGroup_header. simpl. intros [= Hempty].
    by apply stripWikilinks_nonempty in Hempty.
  - unfold collapseKey. destruct nativeKey; simpl; [done|discriminate].
Qed.

(** ** The tags of an item *)

Lemma tagText_Throws tag : tagText tag = Throws ↔ typeof tag ≠ TypeString.
Proof. destruct tag; simpl; split; done. Qed.

Lemma tagText_hash tag text :
  tagText tag = Returns text → Js.startsWith text "#" = true.
Proof.
  destruct tag as [| |s| | | |]; try done. simpl.
  destruct (Js.startsWith s "#") eqn:Hs; intros [= <-]; [done|].
  unfold Js.startsWith. simpl. by destruct s.
Qed.

Lemma tagTexts_Throws tags :
  tagTexts tags = Throws ↔ ∃ tag, tag ∈ tags ∧ typeof tag ≠ TypeString.
Proof.
  induction tags as [|tag tags IH]; simpl.
  - split; [done|]. by intros (tag & ?%elem_of_nil & _).
  - destruct (tagText tag) as [|text] eqn:Htag.
    + split; [|done]. intros _. exists tag. split; [by left|].
      by apply tagText_Throws.
    + assert (Hstr : ¬ typeof tag ≠ TypeString).
      { intros Hne%tagText_Throws. congruence. }
      destruct (tagTexts tags) as [|texts].
      * split; [|done]. intros _.
        destruct (proj1 IH eq_refl) as (tag' & Hin & Hne).
        exists tag'. split; [by right|done].
      * split; [done|]. intros (tag' & [->|Hin]%elem_of_cons & Hne); [done|].
        exfalso. assert (Returns texts = Throws) by (apply IH; eauto). done.
Qed.

Lemma tagTexts_Returns tags texts :
  tagTexts tags = Returns texts →
  length texts = length tags
  ∧ Forall (λ text, Js.startsWith text "#" = true) texts.
Proof.
  revert texts. induction tags as [|tag tags IH]; intros texts; simpl.
  - by intros [= <-].
  - destruct (tagText tag) as [|text] eqn:Htag; [done|].
    destruct (tagTexts tags) as [|texts']; [done|].
    intros [= <-]. destruct (IH _ eq_refl) as [Hlen Hall].
    split; [simpl; congruence|]. constructor; [|done].
    by eapply tagText_hash.
Qed.

Lemma getTags_app app entry :
  let cache := getFileCache (metadataCache app) (file entry) in
  getTags app entry
  = frontmatterTags cache
    ++ (VString <$> inlineOnlyTags (frontmatterTags cache)
                      (inlineTagName <$> default [] (c ← cache; tags c))).
Proof.
  intros cache. unfold getTags. fold cache.
  destruct (c ← cache; tags c) as [inlineTags|]; simpl.
  - apply foldl_addInlineTag.
  - by rewrite app_nil_r.
Qed.

Lemma slice_from_1 c s : Js.slice_from 1 (String c s) = s.
Proof.
  unfold Js.slice_from, Js.rel_index. simpl Z.ltb. cbv iota.
  replace (Z.to_nat (Z.min 1 (Z.of_nat (String.length (String c s)))))
    with 1%nat by (simpl String.length; lia).
  simpl. apply str_chars.
Qed.

(** X19. The tag spans of an item.  With the option on, rendering the tags
    throws exactly when the frontmatter tags hold a value that is not a
    string (a number, a boolean, null, a nested list): the inline tags are
    always strings.  When it does not throw there is one span for each tag
    of [getTags] and every text starts with the hash sign; an inline tag
    written with one leading hash sign is shown as it is written. *)
Theorem entryTags_texts (app : App) (entry : BasesEntry)
    (options : EntryOptions.t) :
  let fmTags :=
    frontmatterTags (getFileCache (metadataCache app) (file entry)) in
  (entryTags app entry options = Throws
   ↔ EntryOptions.showTags options = true
     ∧ ∃ tag, tag ∈ fmTags ∧ typeof tag ≠ TypeString)
  ∧ (∀ texts,
       EntryOptions.showTags options = true →
       entryTags app entry options = Returns texts →
       length texts = length (getTags app entry)
       ∧ Forall (λ text, Js.startsWith text "#" = true) texts)
  ∧ (∀ name : string,
       Js.startsWith name "#" = false →
       tagText (VString (inlineTagName {| tag := "#" +:+ name |}))
       = Returns ("#" +:+ name)).
Proof.
  intros fmTags. split_and!.
  - unfold entryTags. destruct (EntryOptions.showTags options).
    + rewrite tagTexts_Throws, getTags_app. cbv zeta. fold fmTags. split.
      * intros (tag & [Hin|Hin]%elem_of_app & Hne); [eauto|].
        by apply list_elem_of_fmap in Hin as (t & -> & _).
      * intros (_ & tag & Hin & Hne). exists tag. split; [|done].
        apply elem_of_app. by left.
    + split; [done|]. by intros [? _].
  - intros texts Hshow. unfold entryTags. rewrite Hshow.
    apply tagTexts_Returns.
  - intros name Hname. unfold inlineTagName. simpl tag.
    assert (Js.startsWith ("#" +:+ name) "#" = true) as ->
      by (unfold Js.startsWith; simpl; by destruct name).
    change ("#" +:+ name) with (String "#" name).
    rewrite slice_from_1. simpl. by rewrite Hname.
Qed.

(** ** Thumbnails *)

Lemma thumbnailFromFields_Some host entry fm fields thumbnail :
  thumbnailFromFields host entry fm fields = Some thumbnail →
  ∃ field,
    field ∈ fields
    ∧ thumbnailFromValue host entry (default VUndefined (fm !! field))
      = Some thumbnail.
Proof.
  induction fields as [|field fields IH]; simpl; [done|].
  destruct (thumbnailFromValue _ _ _) as [found|] eqn:Hvalue.
  - intros [= <-]. exists field. split; [by left|done].
  - intros (field' & Hin & Hfound)%IH. exists field'. split; [by right|done].
Qed.

Lemma thumbnailFromValue_Some host entry value thumbnail :
  thumbnailFromValue host entry value = Some thumbnail →
  ∃ text,
    value = VString text ∧ text ≠ ""
    ∧ ((Js.startsWith text "http" = true
        ∧ (Js.startsWith text "[[" && endsWith text "]]") = false
        ∧ thumbnail = text)
       ∨ ∃ linkedFile,
           getFirstLinkpathDest host
             (if Js.startsWith text "[[" && endsWith text "]]"
              then Js.str (Js.slice 2 (-2) (Js.chars text)) else text)
             (path (file entry)) = Some linkedFile
           ∧ thumbnail = getResourcePath host linkedFile).
Proof.
  destruct value as [| |text| | | |]; try done. simpl.
  destruct (Js.truthy_string text) eqn:Htext; [|done].
  apply truthy_string_spec in Htext.
  intros Hfound. exists text. split; [done|]. split; [done|].
  destruct (Js.startsWith text "[[" && endsWith text "]]").
  - right. destruct (getFirstLinkpathDest _ _ _) as [linkedFile|]; [|done].
    injection Hfound as <-. eauto.
  - destruct (Js.startsWith text "http"); simpl in Hfound.
    + left. by injection Hfound as <-.
    + right. destruct (getFirstLinkpathDest _ _ _) as [linkedFile|]; [|done].
      injection Hfound as <-. eauto.
Qed.

Lemma thumbnailFromEmbeds_Some host entry embedCaches thumbnail :
  thumbnailFromEmbeds host entry embedCaches = Some thumbnail →
  ∃ embed linkedFile,
    embed ∈ embedCaches
    ∧ link embed ≠ "" ∧ isImageLink (link embed) = true
    ∧ getFirstLinkpathDest host (link embed) (path (file entry))
      = Some linkedFile
    ∧ thumbnail = getResourcePath host linkedFile.
Proof.
  induction embedCaches as [|embed embedCaches IH]; simpl; [done|].
  destruct (Js.truthy_string (link embed)) eqn:Hlink; simpl.
  - destruct (isImageLink (link embed)) eqn:Himage.
    + destruct (getFirstLinkpathDest _ _ _) as [linkedFile|] eqn:Hdest.
      * intros [= <-]. exists embed, linkedFile.
        split_and!; [by left|by apply truthy_string_spec|done..].
      * intros (embed' & linkedFile & Hin & ?)%IH.
        exists embed', linkedFile. split; [by right|done].
    + intros (embed' & linkedFile & Hin & ?)%IH.
      exists embed', linkedFile. split; [by right|done].
  - intros (embed' & linkedFile & Hin & ?)%IH.
    exists embed', linkedFile. split; [by right|done].
Qed.

(** X20. Where a thumbnail comes from.  A thumbnail that [getThumbnail]
    returns is one of these: the text of one of the five image fields of the
    frontmatter, returned as it is, when the text starts with "http" and is
    not of the form [[...]]; the resource path of the file that the host
    finds for such a field, looked up by the text between the brackets when
    the text is of the form [[...]] and by the whole text otherwise; or the
    resource path of the file that the host finds for an embed whose link
    ends with an image extension.  A file without a cache has no
    thumbnail. *)
Theorem getThumbnail_source (app : App) (host : ThumbnailHost)
    (entry : BasesEntry) (thumbnail : string)
    (Hfound : getThumbnail app host entry = Some thumbnail) :
  ∃ cache, getFileCache (metadataCache app) (file entry) = Some cache
  ∧ ((∃ fm field text,
        frontmatter cache = Some fm ∧ field ∈ imageFields
        ∧ fm !! field = Some (VString text) ∧ text ≠ ""
        ∧ ((Js.startsWith text "http" = true
            ∧ (Js.startsWith text "[[" && endsWith text "]]") = false
            ∧ thumbnail = text)
           ∨ ∃ linkedFile,
               getFirstLinkpathDest host
                 (if Js.startsWith text "[[" && endsWith text "]]"
                  then Js.str (Js.slice 2 (-2) (Js.chars text)) else text)
                 (path (file entry)) = Some linkedFile
               ∧ thumbnail = getResourcePath host linkedFile))
     ∨ (∃ embedCaches embed linkedFile,
          embeds host (file entry) = Some embedCaches ∧ embed ∈ embedCaches
          ∧ link embed ≠ "" ∧ isImageLink (link embed) = true
          ∧ getFirstLinkpathDest host (link embed) (path (file entry))
            = Some linkedFile
          ∧ thumbnail = getResourcePath host linkedFile)).
Proof.
  unfold getThumbnail in Hfound.
  destruct (getFileCache (metadataCache app) (file entry)) as [cache|];
    [|done].
  exists cache. split; [done|]. cbn [mbind option_bind] in Hfound.
  assert (Hembeds :
    match embeds host (file entry) with
    | Some embedCaches => thumbnailFromEmbeds host entry embedCaches
    | None => None
    end = Some thumbnail →
    ∃ embedCaches embed linkedFile,
      embeds host (file entry) = Some embedCaches ∧ embed ∈ embedCaches
      ∧ link embed ≠ "" ∧ isImageLink (link embed) = true
      ∧ getFirstLinkpathDest host (link embed) (path (file entry))
        = Some linkedFile
      ∧ thumbnail = getResourcePath host linkedFile).
  { destruct (embeds host (file entry)) as [embedCaches|]; [|done].
    intros (embed & linkedFile & Hin & Hrest)%thumbnailFromEmbeds_Some.
    by exists embedCaches, embed, linkedFile. }
  destruct (frontmatter cache) as [fm|]; [|right; by apply Hembeds].
  destruct (thumbnailFromFields host entry fm imageFields) as [found|]
    eqn:Hfields; [|right; by apply Hembeds].
  injection Hfound as ->. left.
  apply thumbnailFromFields_Some in Hfields as (field & Hin & Hvalue).
  apply thumbnailFromValue_Some in Hvalue as (text & Hfm & Htext & Hcases).
  exists fm, field, text. split_and!; try done.
  destruct (fm !! field) as [value|]; simpl in Hfm; by subst.
Qed.

(** The second image field of the note is a link that the host finds. *)
Lemma getThumbnail_source_witness :
  getThumbnail Gallery.app Gallery.host (Sample.entry Throws)
  = Some "app://vault/img/cover.png"
  ∧ ∃ cache,
      getFileCache (metadataCache Gallery.app) (file (Sample.entry Throws))
      = Some cache.
Proof.
  assert (Hfound : getThumbnail Gallery.app Gallery.host (Sample.entry Throws)
                   = Some "app://vault/img/cover.png") by reflexivity.
  split; [exact Hfound|].
  destruct (getThumbnail_source _ _ _ _ Hfound) as (cache & Hcache & _).
  by exists cache.
Defined.

(** ** The default preview *)

(** X21. The default preview keeps the wikilinks that a configured preview
    strips: for a note whose frontmatter has a non-empty text as description,
    the preview without a preview property is the description cut by
    [truncateToLines], brackets included; with the preview property
    [note.description], when the accessor gives nothing usable, it is the
    description with its wikilinks stripped, cut in the same way. *)
Theorem getPreview_default_keeps_links (app : App) (entry : BasesEntry)
    (lines : Z) (text : string)
    (Hdescription :
       frontmatterField app entry "description" = Some (VString text))
    (Htext : text ≠ "") :
  getPreview app entry lines None = Some (truncateToLines text lines)
  ∧ (subtitleFromBases entry "note.description" = None →
     getPreview app entry lines (Some "note.description")
     = Some (truncateToLines (stripWikilinks text) lines)).
Proof.
  split.
  - unfold getPreview, defaultPreview. unfold frontmatterField in Hdescription.
    destruct (getFileCache (metadataCache app) (file entry)) as [cache|];
      [|done].
    cbn [mbind option_bind] in *.
    destruct (frontmatter cache) as [fm|]; [|done].
    cbn [mbind option_bind] in Hdescription.
    unfold descFields, previewFromFields. rewrite Hdescription. simpl.
    by rewrite (proj2 (truthy_string_spec text)).
  - intros Hbases. unfold getPreview. simpl.
    rewrite previewFromBases_subtitle, Hbases. simpl.
    unfold previewFromFrontmatter.
    change (Js.startsWith "note.description" "note.") with true.
    change (Js.slice_from 5 "note.description") with "description".
    by rewrite Hdescription.
Qed.

Lemma getPreview_default_keeps_links_witness :
  getPreview (Sample.host [("description", VString "See [[Plan]]")] [])
    (Sample.entry Throws) 2 None
  = Some "See [[Plan]]"
  ∧ getPreview (Sample.host [("description", VString "See [[Plan]]")] [])
      (Sample.entry Throws) 2 (Some "note.description")
    = Some "See Plan".
Proof.
  assert (Hdescription :
    frontmatterField (Sample.host [("description", VString "See [[Plan]]")] [])
      (Sample.entry Throws) "description" = Some (VString "See [[Plan]]"))
    by reflexivity.
  assert (Htext : "See [[Plan]]" ≠ "") by discriminate.
  destruct (getPreview_default_keeps_links _ _ 2 _ Hdescription Htext)
    as [Hdefault Hconfigured].
  split; [exact Hdefault|]. apply Hconfigured. reflexivity.
Defined.

(** ** The group key of a list *)

Lemma join_strings_elem_of c sep (parts : list string) :
  c ∈ Js.chars (Js.join sep parts) →
  c ∈ Js.chars sep ∨ ∃ part, part ∈ parts ∧ c ∈ Js.chars part.
Proof.
  induction parts as [|part parts IH]; [by intros ?%elem_of_nil|].
  destruct parts as [|part' parts].
  - intros Hin. right. exists part. split; [by left|done].
  - change (Js.join sep (part :: part' :: parts))
      with (part +:+ sep +:+ Js.join sep (part' :: parts)).
    rewrite !chars_app, !elem_of_app. intros [Hin|[Hin|Hin]].
    + right. exists part. split; [by left|done].
    + by left.
    + destruct (IH Hin) as [?|(part0 & Hpart0 & Hc)]; [by left|].
      right. exists part0. split; [by right|done].
Qed.

Lemma to_string_strings (texts : list string) :
  to_string (VArray (VString <$> texts)) = Js.join "," texts.
Proof.
  simpl. f_equal. induction texts as [|text texts IH]; [done|].
  csimpl. by rewrite IH.
Qed.

(** X22. A list is grouped under the text of the list, not element by
    element: a list of texts without an opening bracket gets as its key the
    texts joined by a comma without a space, and the key "None" when this
    text is empty, "null" or "undefined".  The test for an object answers
    for a list, so the later branch of [valueToGroupString] that joins the
    keys of the elements with a comma and a space does not. *)
Theorem array_group_key (texts : list string)
    (Hplain : Forall (λ text, "["%char ∉ Js.chars text) texts) :
  let str := Js.join "," texts in
  valueToGroupString (VArray (VString <$> texts))
  = if bool_decide (str = "" ∨ str = "null" ∨ str = "undefined")
    then "None" else str.
Proof.
  intros str. rewrite valueToGroupString_array, to_string_strings.
  cbv zeta. fold str.
  assert (Hstrip : stripWikilinks str = str).
  { apply stripWikilinks_plain. left.
    intros [Hsep|(text & Hin & Hc)]%join_strings_elem_of.
    - simpl in Hsep. apply list_elem_of_singleton in Hsep. done.
    - rewrite Forall_forall in Hplain. by apply (Hplain text). }
  rewrite Hstrip.
  destruct (Js.truthy_string str) eqn:Hstr; simpl.
  - apply truthy_string_spec in Hstr.
    repeat case_bool_decide; simpl; try done; naive_solver.
  - apply truthy_string_false in Hstr. rewrite Hstr.
    by rewrite bool_decide_eq_true_2 by by left.
Qed.

Lemma array_group_key_witness :
  Forall (λ text, "["%char ∉ Js.chars text) ["urgent"; "home"]
  ∧ valueToGroupString (VArray [VString "urgent"; VString "home"])
    = "urgent,home".
Proof.
  assert (Hplain : Forall (λ text, "["%char ∉ Js.chars text)
                     ["urgent"; "home"]).
  { repeat constructor; intros Hin; simpl in Hin;
      repeat (apply elem_of_cons in Hin as [?|Hin]; [done|]);
      by apply elem_of_nil in Hin. }
  split; [exact Hplain|].
  exact (array_group_key ["urgent"; "home"] Hplain).
Defined.

(** ** A click and the entries in view *)

(** X23. A click on the header of a group of a one-level grouping changes the
    view of the entries of this group and of no other entry of the native
    group: after the click an entry with the key of the group is in view
    exactly when it was not before, and every other entry is in view exactly
    when it was before. *)
Theorem plugin_group_click_in_view (app : App) (st : CollapseState)
    (nativeKey groupKey property : string) (bucket : list BasesEntry)
    (levelOffset : nat) (options : RenderOptions) (entry : BasesEntry) :
  let st' :=
    clickOn (renderCustomGroup st nativeKey groupKey bucket levelOffset
               options) st in
  let inView s :=
    shownByPlugin app s nativeKey (Some property) None levelOffset entry in
  inView st'
  = if decide (getPropertyValueAsString app entry property = groupKey)
    then negb (inView st) else inView st.
Proof.
  intros st' inView. unfold st'. rewrite clickOn_customGroup.
  unfold inView, shownByPlugin.
  set (level := levels !! levelOffset).
  case_decide as Hkey.
  - rewrite Hkey.
    pose proof (toggle_membership (collapseKey nativeKey groupKey) level st)
      as Hflip.
    repeat case_bool_decide; simpl; try done; naive_solver.
  - assert (Hne : collapseKey nativeKey
                    (getPropertyValueAsString app entry property)
                  ≠ collapseKey nativeKey groupKey).
    { by intros ?%collapseKey_inj. }
    pose proof (toggle_other (collapseKey nativeKey groupKey) level st _ Hne)
      as Hsame.
    repeat case_bool_decide; simpl; try done; naive_solver.
Qed.

(** ** The properties of an item *)

(** X24. A property of an item reads as its subtitle would: when the loop
    over the property order makes a value span, the text content of the span
    is the text that the first step of subtitle resolution gives for the
    same property, the value of the accessor with its wikilinks stripped;
    when the loop skips a property other than the name of the file, this
    step gives nothing.  Unlike the resolvers the loop does not catch: it
    throws exactly when the property is not the name of the file and the
    accessor throws. *)
Theorem propertyPieces_text (parsePropertyId : string → string * string)
    (entry : BasesEntry) (propertyId : string) :
  let isFileName :=
    (parsePropertyId propertyId).2 = "name"
    ∧ (parsePropertyId propertyId).1 = "file" in
  (∀ pieces,
     propertyPieces parsePropertyId entry propertyId = Returns (Some pieces) →
     subtitleFromBases entry propertyId = Some (textContent pieces)
     ∧ pieces ≠ [])
  ∧ (propertyPieces parsePropertyId entry propertyId = Returns None →
     isFileName ∨ subtitleFromBases entry propertyId = None)
  ∧ (propertyPieces parsePropertyId entry propertyId = Throws
     ↔ ¬ isFileName ∧ getValue entry propertyId = Throws).
Proof.
  intros isFileName. unfold isFileName, propertyPieces, subtitleFromBases.
  destruct (parsePropertyId propertyId) as [type name]. simpl.
  destruct (decide (name = "name" ∧ type = "file")) as [[-> ->]|Hother].
  { simpl. split_and!; [done|by left|]. split; [done|]. by intros [[] _]. }
  assert (bool_decide (name = "name") && bool_decide (type = "file") = false)
    as ->.
  { apply andb_false_iff. rewrite !bool_decide_eq_false.
    destruct (decide (name = "name")); [right|left]; naive_solver. }
  destruct (getValue entry propertyId) as [|value].
  { split_and!; [done|done|]. by split. }
  destruct (truthy value); simpl.
  - set (valueStr := to_string value).
    destruct (Js.truthy_string valueStr) eqn:Hstr; simpl.
    + repeat case_bool_decide; simpl.
      * split_and!; [done|by right|]. split; [done|]. by intros [_ ?].
      * split_and!; [done|by right|]. split; [done|]. by intros [_ ?].
      * split_and!; [done|by right|]. split; [done|]. by intros [_ ?].
      * split_and!; [|done|split; [done|by intros [_ ?]]].
        intros pieces [= <-].
        rewrite renderTextWithLinks_linksFrom, linksFrom_textContent.
        split; [done|]. intros Hnil.
        apply truthy_string_spec in Hstr. apply Hstr.
        apply (f_equal textContent) in Hnil.
        rewrite linksFrom_textContent in Hnil. simpl in Hnil.
        fold (stripWikilinks valueStr) in Hnil.
        destruct (decide (valueStr = "")) as [|Hne]; [done|].
        by apply stripWikilinks_nonempty in Hne.
    + split_and!; [done|by right|]. split; [done|]. by intros [_ ?].
  - split_and!; [done|by right|]. split; [done|]. by intros [_ ?].
Qed.

(** ** The empty state *)

Lemma concat_nil_iff {A} (ls : list (list A)) :
  concat ls = [] ↔ ∀ l, l ∈ ls → l = [].
Proof.
  induction ls as [|l ls IH]; simpl.
  - split; [|done]. by intros _ l ?%elem_of_nil.
  - rewrite app_nil, IH. split.
    + intros [-> Hls] l' [->|Hin]%elem_of_cons; [done|by apply Hls].
    + intros Hall. split; [apply Hall; by left|].
      intros l' Hin. apply Hall. by right.
Qed.

Lemma totalEntries_length groupedData :
  totalEntries groupedData
  = length (concat (BasesEntryGroup.entries <$> groupedData)).
Proof.
  unfold totalEntries.
  assert (Hfrom : ∀ start,
    foldl (λ total nativeGroup,
             total + length (BasesEntryGroup.entries nativeGroup))%nat
      start groupedData
    = (start + length (concat (BasesEntryGroup.entries <$> groupedData)))%nat).
  { induction groupedData as [|nativeGroup groupedData IH]; intros start;
      csimpl; [lia|].
    rewrite IH, length_app. lia. }
  apply (Hfrom 0%nat).
Qed.

(** X25. The notice "No items to display" is made exactly when the data of
    the host holds no entry.  Then no render pass shows an entry; and when
    the notice is not made, the pass with nothing collapsed shows one.  The
    notice does not depend on the collapse sets: collapsing every group of
    data that is not empty does not bring it up. *)
Theorem empty_state_notice (app : App) (groupedData : list BasesEntryGroup.t)
    (groupByProperty subGroupByProperty : option string)
    (options : RenderOptions) :
  let shownIn st :=
    concat (renderedEntries
              <$> onDataUpdated app st groupedData groupByProperty
                    subGroupByProperty options) in
  (emptyStateShown groupedData = true
   ↔ ∀ nativeGroup, nativeGroup ∈ groupedData →
       BasesEntryGroup.entries nativeGroup = [])
  ∧ (emptyStateShown groupedData = true → ∀ st, shownIn st = [])
  ∧ (emptyStateShown groupedData = false →
     shownIn {| collapsedGroups := ∅; collapsedSubGroups := ∅ |} ≠ []).
Proof.
  intros shownIn. unfold emptyStateShown.
  rewrite totalEntries_length.
  assert (Hempty :
    length (concat (BasesEntryGroup.entries <$> groupedData)) = 0%nat
    ↔ concat (BasesEntryGroup.entries <$> groupedData) = []).
  { split; [apply nil_length_inv|by intros ->]. }
  split_and!.
  - rewrite Nat.eqb_eq, Hempty, concat_nil_iff. split.
    + intros Hall nativeGroup Hin. apply Hall.
      by apply list_elem_of_fmap_2.
    + intros Hall es (nativeGroup & -> & Hin)%list_elem_of_fmap. by apply Hall.
  - rewrite Nat.eqb_eq, Hempty. intros Hnil st.
    pose proof (onDataUpdated_among app st groupedData groupByProperty
                  subGroupByProperty options) as Hsub.
    rewrite Hnil in Hsub. by apply submseteq_nil_r.
  - rewrite Nat.eqb_neq, Hempty. intros Hdata Hnone. apply Hdata.
    apply Permutation_nil_r. rewrite <- Hnone. symmetry.
    apply onDataUpdated_none_collapsed.
Qed.

(** ** Subtitle and group key *)

(** X26. An entry is grouped under the text that its subtitle shows: for a
    property other than [file.folder] whose accessor returns an object or a
    string with a usable text (not empty, not "null", not "undefined"), the
    subtitle of the entry is its group key, the text with its wikilinks
    stripped.  A boolean is the exception: the subtitle of [true] is "true",
    its group key "True". *)
Theorem subtitle_is_group_key (app : App) (entry : BasesEntry)
    (propertyId : string) (value : JsValue)
    (Hfolder : propertyId ≠ "file.folder")
    (Hvalue : getValue entry propertyId = Returns value)
    (Htype : typeof value = TypeObject ∨ typeof value = TypeString)
    (Hnull : nullish value = false)
    (Husable : ¬ unusable (to_string value)) :
  getSubtitleText app entry propertyId
  = Some (getPropertyValueAsString app entry propertyId)
  ∧ getPropertyValueAsString app entry propertyId
    = stripWikilinks (to_string value)
  ∧ (let flag := Sample.entry (Returns (VBool true)) in
     getSubtitleText app flag "note.done" = Some "true"
     ∧ getPropertyValueAsString app flag "note.done" = "True").
Proof.
  assert (Hstr : to_string value ≠ "" ∧ to_string value ≠ "null"
                 ∧ to_string value ≠ "undefined").
  { unfold unusable in Husable. naive_solver. }
  destruct Hstr as (Hempty & Hnulltext & Hundefined).
  assert (Htruthy : truthy value = true).
  { destruct value as [| |s| | | |]; try done; [|by destruct Htype..].
    by apply truthy_string_spec. }
  assert (Hkey : getPropertyValueAsString app entry propertyId
                 = stripWikilinks (to_string value)).
  { unfold getPropertyValueAsString, groupValueFromBases.
    rewrite Hvalue, Htruthy.
    destruct Htype as [Hobject|Hstring].
    - rewrite valueToGroupString_object by done. simpl.
      rewrite (proj2 (truthy_string_spec _)) by done.
      by rewrite !bool_decide_eq_false_2 by done.
    - destruct value as [| |s| | | |]; try done. simpl in *.
      unfold Js.or_else.
      rewrite (proj2 (truthy_string_spec (stripWikilinks s))); [done|].
      by apply stripWikilinks_nonempty. }
  split_and!; [|done|done].
  rewrite Hkey. unfold getSubtitleText, SUBTITLE_PARENT_FOLDER.
  rewrite bool_decide_eq_false_2 by done. simpl.
  unfold subtitleFromBases. rewrite Hvalue, Htruthy.
  rewrite (proj2 (truthy_string_spec _)) by done.
  by rewrite !bool_decide_eq_false_2 by done.
Qed.

(** A status that links to a note. *)
Lemma subtitle_is_group_key_witness :
  getSubtitleText (Sample.host [] [])
    (Sample.entry (Returns (VObject "[[Status/Done|done]]"))) "note.status"
  = Some "done"
  ∧ getPropertyValueAsString (Sample.host [] [])
      (Sample.entry (Returns (VObject "[[Status/Done|done]]"))) "note.status"
    = "done".
Proof.
  assert (Hfolder : "note.status" ≠ "file.folder") by discriminate.
  assert (Husable : ¬ unusable (to_string (VObject "[[Status/Done|done]]"))).
  { by intros [?|[?|?]]. }
  destruct (subtitle_is_group_key (Sample.host [] [])
              (Sample.entry (Returns (VObject "[[Status/Done|done]]")))
              "note.status" (VObject "[[Status/Done|done]]")
              Hfolder eq_refl (or_introl eq_refl) eq_refl Husable)
    as (Hsubtitle & Hkey & _).
  split; [|by rewrite Hkey].
  by rewrite Hsubtitle, Hkey.
Defined.
